(** * A multi-index URL store: dict, cuckoo tables, red-black tree, popularity heap

    Shallow embedding of [main.py] and [bst.py].  Python [str] values are
    modelled by their UTF-8 byte strings ([string]): equality, the
    lexicographic order [<] and [encode()] all agree with Python on that
    representation.  Python [int] is [Z], [dict] and [Counter] are [gmap],
    and the two cuckoo tables and the heap list are lists updated by index. *)

From Stdlib Require Import ZArith String Ascii List Lia Bool.
From stdpp Require Import base option list gmap strings sorting.

Local Open Scope Z_scope.

(** ** hashlib: MD5 and SHA-1 on byte strings

    [cuckoo_hash1] and [cuckoo_hash2] reduce an MD5 and a SHA-1 digest modulo
    the table size, so both digests are written out (RFC 1321, RFC 3174) on
    32-bit words carried in [Z] with the wrap-around explicit. *)

Module Hashlib.

Definition mask32 : Z := 0xFFFFFFFF.
Definition add32 (a b : Z) : Z := Z.land (a + b) mask32.
Definition not32 (a : Z) : Z := Z.lxor a mask32.
Definition rotl32 (x n : Z) : Z :=
  Z.land (Z.lor (Z.shiftl x n) (Z.shiftr x (32 - n))) mask32.

(** [key.encode()]: the bytes of the string. *)
Definition encode (s : string) : list Z :=
  map (fun c => Z.of_N (N_of_ascii c)) (list_ascii_of_string s).

Fixpoint le_bytes (n : nat) (x : Z) : list Z :=
  match n with
  | O => []
  | S n' => Z.land x 255 :: le_bytes n' (Z.shiftr x 8)
  end.

Definition be_bytes (n : nat) (x : Z) : list Z := rev (le_bytes n x).

Definition le_word (bs : list Z) : Z :=
  fold_right (fun b acc => Z.lor b (Z.shiftl acc 8)) 0 bs.

Definition be_word (bs : list Z) : Z :=
  fold_left (fun acc b => Z.lor (Z.shiftl acc 8) b) bs 0.

(** Message padding: a 1 bit, zeros up to 56 mod 64, then the bit length
    on 8 bytes (little-endian for MD5, big-endian for SHA-1). *)
Definition pad (len_bytes : Z -> list Z) (msg : list Z) : list Z :=
  let n := Z.of_nat (length msg) in
  let zeros := Z.to_nat ((55 - n) mod 64) in
  msg ++ 128 :: repeat 0 zeros ++ len_bytes (8 * n).

Fixpoint chunks (fuel : nat) (k : nat) (l : list Z) : list (list Z) :=
  match fuel with
  | O => []
  | S fuel' =>
      match l with
      | [] => []
      | _ => firstn k l :: chunks fuel' k (skipn k l)
      end
  end.

Definition words (dec : list Z -> Z) (block : list Z) : list Z :=
  map dec (chunks 16 4 block).

Definition md5_K : list Z :=
  [ 0xd76aa478; 0xe8c7b756; 0x242070db; 0xc1bdceee;
    0xf57c0faf; 0x4787c62a; 0xa8304613; 0xfd469501;
    0x698098d8; 0x8b44f7af; 0xffff5bb1; 0x895cd7be;
    0x6b901122; 0xfd987193; 0xa679438e; 0x49b40821;
    0xf61e2562; 0xc040b340; 0x265e5a51; 0xe9b6c7aa;
    0xd62f105d; 0x02441453; 0xd8a1e681; 0xe7d3fbc8;
    0x21e1cde6; 0xc33707d6; 0xf4d50d87; 0x455a14ed;
    0xa9e3e905; 0xfcefa3f8; 0x676f02d9; 0x8d2a4c8a;
    0xfffa3942; 0x8771f681; 0x6d9d6122; 0xfde5380c;
    0xa4beea44; 0x4bdecfa9; 0xf6bb4b60; 0xbebfbc70;
    0x289b7ec6; 0xeaa127fa; 0xd4ef3085; 0x04881d05;
    0xd9d4d039; 0xe6db99e5; 0x1fa27cf8; 0xc4ac5665;
    0xf4292244; 0x432aff97; 0xab9423a7; 0xfc93a039;
    0x655b59c3; 0x8f0ccc92; 0xffeff47d; 0x85845dd1;
    0x6fa87e4f; 0xfe2ce6e0; 0xa3014314; 0x4e0811a1;
    0xf7537e82; 0xbd3af235; 0x2ad7d2bb; 0xeb86d391 ].

Definition md5_S : list Z :=
  [ 7; 12; 17; 22; 7; 12; 17; 22; 7; 12; 17; 22; 7; 12; 17; 22;
    5;  9; 14; 20; 5;  9; 14; 20; 5;  9; 14; 20; 5;  9; 14; 20;
    4; 11; 16; 23; 4; 11; 16; 23; 4; 11; 16; 23; 4; 11; 16; 23;
    6; 10; 15; 21; 6; 10; 15; 21; 6; 10; 15; 21; 6; 10; 15; 21 ].

Definition md5_round (M : list Z) (st : Z * Z * Z * Z) (i : nat)
  : Z * Z * Z * Z :=
  let '(A, B, C, D) := st in
  let iz := Z.of_nat i in
  let '(F, g) :=
    if iz <? 16 then (Z.lor (Z.land B C) (Z.land (not32 B) D), iz)
    else if iz <? 32 then
      (Z.lor (Z.land D B) (Z.land (not32 D) C), (5 * iz + 1) mod 16)
    else if iz <? 48 then (Z.lxor (Z.lxor B C) D, (3 * iz + 5) mod 16)
    else (Z.lxor C (Z.lor B (not32 D)), (7 * iz) mod 16) in
  let F' := add32 (add32 (add32 F A) (nth i md5_K 0)) (nth (Z.to_nat g) M 0) in
  (D, add32 B (rotl32 F' (nth i md5_S 0)), B, C).

Definition md5_block (h : Z * Z * Z * Z) (block : list Z) : Z * Z * Z * Z :=
  let M := words le_word block in
  let '(a0, b0, c0, d0) := h in
  let '(A, B, C, D) := fold_left (md5_round M) (seq 0 64) h in
  (add32 a0 A, add32 b0 B, add32 c0 C, add32 d0 D).

(** [hashlib.md5(msg).digest()] *)
Definition md5 (msg : list Z) : list Z :=
  let p := pad (le_bytes 8) msg in
  let '(a, b, c, d) :=
    fold_left md5_block (chunks (length p) 64 p)
      (0x67452301, 0xefcdab89, 0x98badcfe, 0x10325476) in
  le_bytes 4 a ++ le_bytes 4 b ++ le_bytes 4 c ++ le_bytes 4 d.

Fixpoint sha1_schedule (n : nat) (w : list Z) : list Z :=
  match n with
  | O => w
  | S n' =>
      let i := length w in
      let x := Z.lxor (Z.lxor (nth (i - 3) w 0) (nth (i - 8) w 0))
                 (Z.lxor (nth (i - 14) w 0) (nth (i - 16) w 0)) in
      sha1_schedule n' (w ++ [rotl32 x 1])
  end.

Definition sha1_round (W : list Z) (st : Z * Z * Z * Z * Z) (i : nat)
  : Z * Z * Z * Z * Z :=
  let '(a, b, c, d, e) := st in
  let iz := Z.of_nat i in
  let '(f, k) :=
    if iz <? 20 then (Z.lor (Z.land b c) (Z.land (not32 b) d), 0x5A827999)
    else if iz <? 40 then (Z.lxor (Z.lxor b c) d, 0x6ED9EBA1)
    else if iz <? 60 then
      (Z.lor (Z.lor (Z.land b c) (Z.land b d)) (Z.land c d), 0x8F1BBCDC)
    else (Z.lxor (Z.lxor b c) d, 0xCA62C1D6) in
  let temp := add32 (add32 (add32 (add32 (rotl32 a 5) f) e) k) (nth i W 0) in
  (temp, a, rotl32 b 30, c, d).

Definition sha1_block (h : Z * Z * Z * Z * Z) (block : list Z)
  : Z * Z * Z * Z * Z :=
  let W := sha1_schedule 64 (words be_word block) in
  let '(h0, h1, h2, h3, h4) := h in
  let '(a, b, c, d, e) := fold_left (sha1_round W) (seq 0 80) h in
  (add32 h0 a, add32 h1 b, add32 h2 c, add32 h3 d, add32 h4 e).

(** [hashlib.sha1(msg).digest()] *)
Definition sha1 (msg : list Z) : list Z :=
  let p := pad (be_bytes 8) msg in
  let '(h0, h1, h2, h3, h4) :=
    fold_left sha1_block (chunks (length p) 64 p)
      (0x67452301, 0xEFCDAB89, 0x98BADCFE, 0x10325476, 0xC3D2E1F0) in
  be_bytes 4 h0 ++ be_bytes 4 h1 ++ be_bytes 4 h2 ++ be_bytes 4 h3
    ++ be_bytes 4 h4.

Definition rotr32 (x n : Z) : Z := rotl32 x (32 - n).

Definition sha256_K : list Z :=
  [ 0x428A2F98; 0x71374491; 0xB5C0FBCF; 0xE9B5DBA5;
    0x3956C25B; 0x59F111F1; 0x923F82A4; 0xAB1C5ED5;
    0xD807AA98; 0x12835B01; 0x243185BE; 0x550C7DC3;
    0x72BE5D74; 0x80DEB1FE; 0x9BDC06A7; 0xC19BF174;
    0xE49B69C1; 0xEFBE4786; 0x0FC19DC6; 0x240CA1CC;
    0x2DE92C6F; 0x4A7484AA; 0x5CB0A9DC; 0x76F988DA;
    0x983E5152; 0xA831C66D; 0xB00327C8; 0xBF597FC7;
    0xC6E00BF3; 0xD5A79147; 0x06CA6351; 0x14292967;
    0x27B70A85; 0x2E1B2138; 0x4D2C6DFC; 0x53380D13;
    0x650A7354; 0x766A0ABB; 0x81C2C92E; 0x92722C85;
    0xA2BFE8A1; 0xA81A664B; 0xC24B8B70; 0xC76C51A3;
    0xD192E819; 0xD6990624; 0xF40E3585; 0x106AA070;
    0x19A4C116; 0x1E376C08; 0x2748774C; 0x34B0BCB5;
    0x391C0CB3; 0x4ED8AA4A; 0x5B9CCA4F; 0x682E6FF3;
    0x748F82EE; 0x78A5636F; 0x84C87814; 0x8CC70208;
    0x90BEFFFA; 0xA4506CEB; 0xBEF9A3F7; 0xC67178F2 ].

Fixpoint sha256_schedule (n : nat) (w : list Z) : list Z :=
  match n with
  | O => w
  | S n' =>
      let i := length w in
      let w15 := nth (i - 15) w 0 in
      let w2 := nth (i - 2) w 0 in
      let s0 := Z.lxor (Z.lxor (rotr32 w15 7) (rotr32 w15 18))
                  (Z.shiftr w15 3) in
      let s1 := Z.lxor (Z.lxor (rotr32 w2 17) (rotr32 w2 19))
                  (Z.shiftr w2 10) in
      sha256_schedule n'
        (w ++ [add32 (add32 (add32 (nth (i - 16) w 0) s0) (nth (i - 7) w 0))
                 s1])
  end.

Definition sha256_round (W : list Z)
  (st : Z * Z * Z * Z * Z * Z * Z * Z) (i : nat)
  : Z * Z * Z * Z * Z * Z * Z * Z :=
  let '(a, b, c, d, e, f, g, h) := st in
  let S1 := Z.lxor (Z.lxor (rotr32 e 6) (rotr32 e 11)) (rotr32 e 25) in
  let ch := Z.lxor (Z.land e f) (Z.land (not32 e) g) in
  let temp1 :=
    add32 (add32 (add32 (add32 h S1) ch) (nth i sha256_K 0)) (nth i W 0) in
  let S0 := Z.lxor (Z.lxor (rotr32 a 2) (rotr32 a 13)) (rotr32 a 22) in
  let maj := Z.lxor (Z.lxor (Z.land a b) (Z.land a c)) (Z.land b c) in
  let temp2 := add32 S0 maj in
  (add32 temp1 temp2, a, b, c, add32 d temp1, e, f, g).

Definition sha256_block (hs : Z * Z * Z * Z * Z * Z * Z * Z)
  (block : list Z) : Z * Z * Z * Z * Z * Z * Z * Z :=
  let W := sha256_schedule 48 (words be_word block) in
  let '(h0, h1, h2, h3, h4, h5, h6, h7) := hs in
  let '(a, b, c, d, e, f, g, h) := fold_left (sha256_round W) (seq 0 64) hs in
  (add32 h0 a, add32 h1 b, add32 h2 c, add32 h3 d,
   add32 h4 e, add32 h5 f, add32 h6 g, add32 h7 h).

(** [hashlib.sha256(msg).digest()] (FIPS 180-4) *)
Definition sha256 (msg : list Z) : list Z :=
  let p := pad (be_bytes 8) msg in
  let '(h0, h1, h2, h3, h4, h5, h6, h7) :=
    fold_left sha256_block (chunks (length p) 64 p)
      (0x6A09E667, 0xBB67AE85, 0x3C6EF372, 0xA54FF53A,
       0x510E527F, 0x9B05688C, 0x1F83D9AB, 0x5BE0CD19) in
  be_bytes 4 h0 ++ be_bytes 4 h1 ++ be_bytes 4 h2 ++ be_bytes 4 h3
    ++ be_bytes 4 h4 ++ be_bytes 4 h5 ++ be_bytes 4 h6 ++ be_bytes 4 h7.

(** [h.hexdigest()]: two lowercase hexadecimal digits per byte. *)
Definition hex_digit (n : Z) : ascii :=
  nth (Z.to_nat n) (list_ascii_of_string "0123456789abcdef") "0"%char.

Definition hexdigest (d : list Z) : string :=
  string_of_list_ascii
    (flat_map (fun b => [hex_digit (b / 16); hex_digit (b mod 16)]) d).

(** [int(h.hexdigest(), 16)]: the digest read as one big-endian number. *)
Definition int_of_digest (d : list Z) : Z :=
  fold_left (fun acc b => acc * 256 + b) d 0.

End Hashlib.


Local Open Scope string_scope.
Local Open Scope list_scope.
Local Open Scope nat_scope.

(** ** main.py: the two cuckoo tables *)

Definition CUCKOO_SIZE : nat := 1024.

(** A table slot is [None] or a [(key, value)] tuple. *)
Abbreviation slot := (option (string * string)).

Record Cuckoo := mkCuckoo {
  cuckoo_table1 : list slot;
  cuckoo_table2 : list slot
}.

(** [[None] * CUCKOO_SIZE] *)
Definition cuckoo_empty : Cuckoo :=
  mkCuckoo (replicate CUCKOO_SIZE None) (replicate CUCKOO_SIZE None).

Definition cuckoo_hash1 (key : string) : nat :=
  Z.to_nat (Hashlib.int_of_digest (Hashlib.md5 (Hashlib.encode key))
            mod Z.of_nat CUCKOO_SIZE).

Definition cuckoo_hash2 (key : string) : nat :=
  Z.to_nat (Hashlib.int_of_digest (Hashlib.sha1 (Hashlib.encode key))
            mod Z.of_nat CUCKOO_SIZE).

Definition set_table1 (c : Cuckoo) (pos : nat) (kv : string * string) : Cuckoo :=
  mkCuckoo (<[pos := Some kv]> (cuckoo_table1 c)) (cuckoo_table2 c).

Definition set_table2 (c : Cuckoo) (pos : nat) (kv : string * string) : Cuckoo :=
  mkCuckoo (cuckoo_table1 c) (<[pos := Some kv]> (cuckoo_table2 c)).

(** One pass through the body of the [for] loop of [cuckoo_insert]: it
    returns True, or goes on with the locals [key] and [value] holding the
    pair it evicted from table 2.  Every index is a hash reduced modulo
    [CUCKOO_SIZE], the length of both tables, so [t !!! pos] is [t[pos]]. *)
Inductive iteration :=
| Return (c : Cuckoo)
| Next (c : Cuckoo) (key value : string).

Definition cuckoo_iteration (c : Cuckoo) (key value : string) : iteration :=
  let pos1 := cuckoo_hash1 key in
  match cuckoo_table1 c !!! pos1 with
  | None => Return (set_table1 c pos1 (key, value))
  | Some (key1, value1) =>
      if String.eqb key1 key then Return (set_table1 c pos1 (key, value))
      else
        (* kick out the occupant of table 1 *)
        let c := set_table1 c pos1 (key, value) in
        let key := key1 in
        let value := value1 in
        let pos2 := cuckoo_hash2 key in
        match cuckoo_table2 c !!! pos2 with
        | None => Return (set_table2 c pos2 (key, value))
        | Some (key2, value2) =>
            if String.eqb key2 key
            then Return (set_table2 c pos2 (key, value))
            else
              (* kick out the occupant of table 2 *)
              Next (set_table2 c pos2 (key, value)) key2 value2
        end
  end.

(** How the [for] loop ends: by one of its two [return True], or by running
    out of iterations with the locals [key] and [value] holding the pair
    evicted last. *)
Inductive outcome :=
| Placed
| Exhausted (key value : string).

(** [for _ in range(max_iterations): ...]; [n] is what is left of the
    range. *)
Fixpoint cuckoo_insert_loop (n : nat) (c : Cuckoo) (key value : string)
  : outcome * Cuckoo :=
  match n with
  | O => (Exhausted key value, c)
  | S n' =>
      match cuckoo_iteration c key value with
      | Return c' => (Placed, c')
      | Next c' key' value' => cuckoo_insert_loop n' c' key' value'
      end
  end.

Definition is_placed (o : outcome) : bool :=
  match o with Placed => true | Exhausted _ _ => false end.

Definition cuckoo_insert (c : Cuckoo) (key value : string)
  (max_iterations : nat) : bool * Cuckoo :=
  let '(o, c') := cuckoo_insert_loop max_iterations c key value in
  (is_placed o, c').

Definition cuckoo_lookup (c : Cuckoo) (key : string) : option string :=
  let pos1 := cuckoo_hash1 key in
  match cuckoo_table1 c !!! pos1 with
  | Some (key1, value1) =>
      if String.eqb key1 key then Some value1
      else
        let pos2 := cuckoo_hash2 key in
        match cuckoo_table2 c !!! pos2 with
        | Some (key2, value2) =>
            if String.eqb key2 key then Some value2 else None
        | None => None
        end
  | None =>
      let pos2 := cuckoo_hash2 key in
      match cuckoo_table2 c !!! pos2 with
      | Some (key2, value2) =>
          if String.eqb key2 key then Some value2 else None
      | None => None
      end
  end.

(** ** bst.py: the red-black tree

    Node objects live in an object store indexed by reference; a Python
    variable holding a node or [None] is a [pyref].  An attribute read on
    [None] raises, a loop of the model that runs out of fuel does not
    return: both are the [None] of the option monad, and the theorems show
    that neither happens on a tree built by [insert]. *)

Abbreviation ref := nat.
Abbreviation pyref := (option nat).

Module Node.
Record t := mk {
  key : option string;
  value : option string;
  left : pyref;
  right : pyref;
  parent : pyref;
  color : bool  (* True for red, False for black *)
}.
Definition set_value (v : option string) (n : t) : t :=
  mk (key n) v (left n) (right n) (parent n) (color n).
Definition set_left (l : pyref) (n : t) : t :=
  mk (key n) (value n) l (right n) (parent n) (color n).
Definition set_right (r : pyref) (n : t) : t :=
  mk (key n) (value n) (left n) r (parent n) (color n).
Definition set_parent (p : pyref) (n : t) : t :=
  mk (key n) (value n) (left n) (right n) p (color n).
Definition set_color (c : bool) (n : t) : t :=
  mk (key n) (value n) (left n) (right n) (parent n) c.
End Node.

Module RedBlackTree.

Record t := mk {
  objs : list Node.t;   (* the Node objects, by reference *)
  NIL : ref;            (* self.NIL *)
  root : ref            (* self.root *)
}.

(** [__init__]: the NIL node is black; [self.root = self.NIL]. *)
Definition init : t :=
  mk [Node.mk None None None None None false] 0 0.

(** [o.f]: raises when [o] is [None]. *)
Definition attr {A} (T : t) (o : pyref) (f : Node.t -> A) : option A :=
  r ← o; n ← objs T !! r; Some (f n).

(** [o.f = v] *)
Definition setattr (T : t) (o : pyref) (upd : Node.t -> Node.t) : option t :=
  r ← o; n ← objs T !! r; Some (mk (<[r := upd n]> (objs T)) (NIL T) (root T)).

Definition set_root (T : t) (r : pyref) : option t :=
  r ← r; Some (mk (objs T) (NIL T) r).

Definition _left_rotate (T : t) (x : pyref) : option t :=
  y ← attr T x Node.right;
  yl ← attr T y Node.left;
  T ← setattr T x (Node.set_right yl);
  yl ← attr T y Node.left;
  T ← (if decide (yl ≠ Some (NIL T))
       then setattr T yl (Node.set_parent x) else Some T);
  xp ← attr T x Node.parent;
  T ← setattr T y (Node.set_parent xp);
  xp ← attr T x Node.parent;
  T ← (match xp with
       | None => set_root T y
       | Some _ =>
           xpl ← attr T xp Node.left;
           if decide (x = xpl) then setattr T xp (Node.set_left y)
           else setattr T xp (Node.set_right y)
       end);
  T ← setattr T y (Node.set_left x);
  setattr T x (Node.set_parent y).

Definition _right_rotate (T : t) (x : pyref) : option t :=
  y ← attr T x Node.left;
  yr ← attr T y Node.right;
  T ← setattr T x (Node.set_left yr);
  yr ← attr T y Node.right;
  T ← (if decide (yr ≠ Some (NIL T))
       then setattr T yr (Node.set_parent x) else Some T);
  xp ← attr T x Node.parent;
  T ← setattr T y (Node.set_parent xp);
  xp ← attr T x Node.parent;
  T ← (match xp with
       | None => set_root T y
       | Some _ =>
           xpr ← attr T xp Node.right;
           if decide (x = xpr) then setattr T xp (Node.set_right y)
           else setattr T xp (Node.set_left y)
       end);
  T ← setattr T y (Node.set_right x);
  setattr T x (Node.set_parent y).

(** One pass through the body of the [while] of [_fix_insert], up to the
    [if k == self.root: break]. *)
Definition fix_body (T : t) (k : pyref) : option (t * pyref) :=
  kp ← attr T k Node.parent;
  kpp ← attr T kp Node.parent;
  kppr ← attr T kpp Node.right;
  if decide (kp = kppr) then
    u ← attr T kpp Node.left;
    uc ← attr T u Node.color;
    if (uc : bool) then
      T ← setattr T u (Node.set_color false);
      kp ← attr T k Node.parent;
      T ← setattr T kp (Node.set_color false);
      kp ← attr T k Node.parent;
      kpp ← attr T kp Node.parent;
      T ← setattr T kpp (Node.set_color true);
      kp ← attr T k Node.parent;
      kpp ← attr T kp Node.parent;
      Some (T, kpp)
    else
      kp ← attr T k Node.parent;
      kpl ← attr T kp Node.left;
      Tk ← (if decide (k = kpl)
            then T' ← _right_rotate T kp; Some (T', kp)
            else Some (T, k));
      let T := fst Tk in
      let k := snd Tk in
      kp ← attr T k Node.parent;
      T ← setattr T kp (Node.set_color false);
      kp ← attr T k Node.parent;
      kpp ← attr T kp Node.parent;
      T ← setattr T kpp (Node.set_color true);
      kp ← attr T k Node.parent;
      kpp ← attr T kp Node.parent;
      T ← _left_rotate T kpp;
      Some (T, k)
  else
    u ← attr T kpp Node.right;
    uc ← attr T u Node.color;
    if (uc : bool) then
      T ← setattr T u (Node.set_color false);
      kp ← attr T k Node.parent;
      T ← setattr T kp (Node.set_color false);
      kp ← attr T k Node.parent;
      kpp ← attr T kp Node.parent;
      T ← setattr T kpp (Node.set_color true);
      kp ← attr T k Node.parent;
      kpp ← attr T kp Node.parent;
      Some (T, kpp)
    else
      kp ← attr T k Node.parent;
      kpr ← attr T kp Node.right;
      Tk ← (if decide (k = kpr)
            then T' ← _left_rotate T kp; Some (T', kp)
            else Some (T, k));
      let T := fst Tk in
      let k := snd Tk in
      kp ← attr T k Node.parent;
      T ← setattr T kp (Node.set_color false);
      kp ← attr T k Node.parent;
      kpp ← attr T kp Node.parent;
      T ← setattr T kpp (Node.set_color true);
      kp ← attr T k Node.parent;
      kpp ← attr T kp Node.parent;
      T ← _right_rotate T kpp;
      Some (T, k).

(** The [while] of [_fix_insert]:
    [while k != self.root and k.parent.color == True: ...] *)
Fixpoint fix_loop (fuel : nat) (T : t) (k : pyref) : option t :=
  match fuel with
  | O => None
  | S fuel' =>
      if decide (k = Some (root T)) then Some T
      else
        kp ← attr T k Node.parent;
        c ← attr T kp Node.color;
        if (c : bool) then
          Tk ← fix_body T k;
          let T' := fst Tk in
          let k' := snd Tk in
          if decide (k' = Some (root T')) then Some T'
          else fix_loop fuel' T' k'
        else Some T
  end.

Definition _fix_insert (T : t) (k : pyref) : option t :=
  T ← fix_loop (length (objs T)) T k;
  setattr T (Some (root T)) (Node.set_color false).

(** How the descent of [insert] ends: on a node with the same key, whose
    value was overwritten, or on NIL below the node [y]. *)
Inductive descent :=
| Updated (T : t)
| Bottom (y : pyref).

(** [while x != self.NIL: ...] with [new_node.key = key] *)
Fixpoint insert_loop (fuel : nat) (T : t) (key value : string) (y x : pyref)
  : option descent :=
  match fuel with
  | O => None
  | S fuel' =>
      if decide (x = Some (NIL T)) then Some (Bottom y)
      else
        xk ← attr T x Node.key;
        xk ← xk;
        if String.ltb key xk then
          xl ← attr T x Node.left;
          insert_loop fuel' T key value x xl
        else if String.ltb xk key then
          xr ← attr T x Node.right;
          insert_loop fuel' T key value x xr
        else
          T' ← setattr T x (Node.set_value (Some value));
          Some (Updated T')
  end.

(** [insert]: the new node becomes an object of the store when it is linked
    into the tree; on the path that overwrites an existing key it stays an
    unreferenced local. *)
Definition insert (T : t) (key value : string) : option t :=
  d ← insert_loop (length (objs T)) T key value None (Some (root T));
  match d with
  | Updated T' => Some T'
  | Bottom y =>
      let new_node := length (objs T) in
      let T := mk (objs T ++ [Node.mk (Some key) (Some value)
                                 (Some (NIL T)) (Some (NIL T)) y true])
                 (NIL T) (root T) in
      T ← (match y with
           | None => set_root T (Some new_node)
           | Some _ =>
               yk ← attr T y Node.key;
               yk ← yk;
               if String.ltb key yk
               then setattr T y (Node.set_left (Some new_node))
               else setattr T y (Node.set_right (Some new_node))
           end);
      np ← attr T (Some new_node) Node.parent;
      match np with
      | None => setattr T (Some new_node) (Node.set_color false)
      | Some _ =>
          npp ← attr T np Node.parent;
          match npp with
          | None => Some T
          | Some _ => _fix_insert T (Some new_node)
          end
      end
  end.

Fixpoint _search_helper (fuel : nat) (T : t) (node : pyref) (key : string)
  : option (option string) :=
  match fuel with
  | O => None
  | S fuel' =>
      if decide (node = Some (NIL T)) then Some None
      else
        nk ← attr T node Node.key;
        if decide (Some key = nk) then attr T node Node.value
        else
          nk ← nk;
          if String.ltb key nk then
            l ← attr T node Node.left;
            _search_helper fuel' T l key
          else
            r ← attr T node Node.right;
            _search_helper fuel' T r key
  end.

(** [search]: the outer option is the run of the model, the inner one the
    Python result ([None] on a miss). *)
Definition search (T : t) (key : string) : option (option string) :=
  _search_helper (length (objs T)) T (Some (root T)) key.

(** [_inorder_helper]; [result] is the list the calls append to. *)
Fixpoint _inorder_helper (fuel : nat) (T : t) (node : pyref)
  (result : list (option string * option string))
  : option (list (option string * option string)) :=
  match fuel with
  | O => None
  | S fuel' =>
      if decide (node = Some (NIL T)) then Some result
      else
        l ← attr T node Node.left;
        result ← _inorder_helper fuel' T l result;
        k ← attr T node Node.key;
        v ← attr T node Node.value;
        let result := result ++ [(k, v)] in
        r ← attr T node Node.right;
        _inorder_helper fuel' T r result
  end.

Definition inorder_traversal (T : t)
  : option (list (option string * option string)) :=
  _inorder_helper (length (objs T)) T (Some (root T)) [].

End RedBlackTree.

(** ** heapq, on the [(neg_count, url)] tuples of [most_frequent] *)

Module heapq.

Abbreviation item := (Z * string)%type.

(** Tuple comparison [a < b]: by the first components unless they are
    equal, then by the second ones. *)
Definition lt (a b : item) : bool :=
  if Z.eqb (fst a) (fst b) then String.ltb (snd a) (snd b)
  else Z.ltb (fst a) (fst b).

(** The [while pos > startpos] of [_siftdown]; [pos] strictly decreases,
    so [pos] itself is enough fuel. *)
Fixpoint siftdown_loop (fuel : nat) (heap : list item) (startpos pos : nat)
  (newitem : item) : list item * nat :=
  match fuel with
  | O => (heap, pos)
  | S fuel' =>
      if Nat.ltb startpos pos then
        let parentpos := (pos - 1) / 2 in
        let parent := heap !!! parentpos in
        if lt newitem parent
        then siftdown_loop fuel' (<[pos := parent]> heap) startpos parentpos
               newitem
        else (heap, pos)
      else (heap, pos)
  end.

Definition _siftdown (heap : list item) (startpos pos : nat) : list item :=
  let newitem := heap !!! pos in
  let '(heap, pos) := siftdown_loop pos heap startpos pos newitem in
  <[pos := newitem]> heap.

(** The [while childpos < endpos] of [_siftup]; [childpos] strictly
    increases, so [endpos] is enough fuel. *)
Fixpoint siftup_loop (fuel : nat) (heap : list item) (endpos pos childpos : nat)
  : list item * nat :=
  match fuel with
  | O => (heap, pos)
  | S fuel' =>
      if Nat.ltb childpos endpos then
        let rightpos := childpos + 1 in
        let childpos :=
          if Nat.ltb rightpos endpos
             && negb (lt (heap !!! childpos) (heap !!! rightpos))
          then rightpos else childpos in
        siftup_loop fuel' (<[pos := heap !!! childpos]> heap) endpos
          childpos (2 * childpos + 1)
      else (heap, pos)
  end.

Definition _siftup (heap : list item) (pos : nat) : list item :=
  let endpos := length heap in
  let startpos := pos in
  let newitem := heap !!! pos in
  let '(heap, pos) := siftup_loop endpos heap endpos pos (2 * pos + 1) in
  _siftdown (<[pos := newitem]> heap) startpos pos.

Definition heappush (heap : list item) (x : item) : list item :=
  let heap := heap ++ [x] in
  _siftdown heap 0 (length heap - 1).

(** [heappop]: [None] is the IndexError of [heap.pop()] on an empty list. *)
Definition heappop (heap : list item) : option (item * list item) :=
  match rev heap with
  | [] => None
  | lastelt :: rest =>
      let heap := rev rest in
      match heap with
      | [] => Some (lastelt, heap)
      | returnitem :: _ => Some (returnitem, _siftup (<[0 := lastelt]> heap) 0)
      end
  end.

(** [for i in reversed(range(n//2)): _siftup(x, i)] *)
Definition heapify (x : list item) : list item :=
  let n := length x in
  fold_left _siftup (rev (seq 0 (n / 2))) x.

End heapq.

(** ** main.py: the store *)

Record Store := mkStore {
  url_map : gmap string string;
  access_counter : gmap string Z;
  most_frequent : list heapq.item;
  url_tree : RedBlackTree.t;
  cuckoo : Cuckoo
}.

(** The module-level initial values. *)
Definition initial : Store :=
  mkStore ∅ ∅ [] RedBlackTree.init cuckoo_empty.

(** [Counter.__getitem__]: a missing key counts 0 and is not inserted. *)
Definition count (c : gmap string Z) (k : string) : Z := default 0%Z (c !! k).

(** [next(i for i, (_, url) in enumerate(heap) if url == short_url)] as the
    [for ... else] of [update_frequency] uses it. *)
Fixpoint find_url (heap : list heapq.item) (short_url : string) (i : nat)
  : option nat :=
  match heap with
  | [] => None
  | (neg_count, url) :: rest =>
      if String.eqb url short_url then Some i
      else find_url rest short_url (S i)
  end.

Definition update_frequency (st : Store) (short_url : string) : Store :=
  let access_counter :=
    <[short_url := (count (access_counter st) short_url + 1)%Z]>
      (access_counter st) in
  let count := count access_counter short_url in
  let most_frequent :=
    match find_url (most_frequent st) short_url 0 with
    | Some i => heapq.heapify (<[i := ((- count)%Z, short_url)]> (most_frequent st))
    | None => heapq.heappush (most_frequent st) ((- count)%Z, short_url)
    end in
  mkStore (url_map st) access_counter most_frequent (url_tree st) (cuckoo st).

(** The three writes of [shorten_url], the store's insert: the dict, the
    cuckoo tables (whose result is not looked at) and the tree. *)
Definition put (st : Store) (short_hash url : string) : option Store :=
  let url_map := <[short_hash := url]> (url_map st) in
  let '(_, cuckoo) := cuckoo_insert (cuckoo st) short_hash url 100 in
  url_tree ← RedBlackTree.insert (url_tree st) short_hash url;
  Some (mkStore url_map (access_counter st) (most_frequent st) url_tree cuckoo).

(** [if not url.startswith(("http://", "https://")): url = "https://" + url] *)
Definition with_scheme (url : string) : string :=
  if String.prefix "http://" url || String.prefix "https://" url then url
  else String.append "https://" url.

(** [shorten_url]; [short_hash] is what [hash_url(url)] returned, a digest
    of the URL and of the clock. *)
Definition shorten_url (st : Store) (short_hash url : string) : option Store :=
  put st short_hash (with_scheme url).

(** Python truthiness of an [Optional[str]]: [None] and [""] are falsy. *)
Definition truthy (o : option string) : bool :=
  match o with
  | None => false
  | Some s => negb (String.eqb s "")
  end.

Inductive response :=
| RedirectResponse (url : string)
| HTTPException (status_code : Z).

(** [redirect_to_url], the store's lookup.  [save_data()] only writes the
    pickle files and is left out. *)
Definition redirect_to_url (st : Store) (short_url : string)
  : option (response * Store) :=
  let original_url := url_map st !! short_url in
  let original_url :=
    if negb (truthy original_url) then cuckoo_lookup (cuckoo st) short_url
    else original_url in
  original_url ←
    (if negb (truthy original_url)
     then RedBlackTree.search (url_tree st) short_url
     else Some original_url);
  match original_url with
  | Some url =>
      if String.eqb url "" then Some (HTTPException 404, st)
      else Some (RedirectResponse url, update_frequency st short_url)
  | None => Some (HTTPException 404, st)
  end.

Record popular_url := mkPopular {
  short_url : string;
  original_url : string;
  access_count : Z
}.

(** The loop shared by [get_popular_urls] (10 entries) and the two page
    handlers (5 entries): pop from a copy of the heap, keep the keys of
    [url_map]. *)
Fixpoint popular_loop (n : nat) (url_map : gmap string string)
  (heap_copy : list heapq.item) : option (list popular_url) :=
  match n with
  | O => Some []
  | S n' =>
      match heap_copy with
      | [] => popular_loop n' url_map heap_copy
      | _ =>
          '(entry, heap_copy) ← heapq.heappop heap_copy;
          let '(neg_count, short_url) := entry in
          rest ← popular_loop n' url_map heap_copy;
          match url_map !! short_url with
          | Some url => Some (mkPopular short_url url (- neg_count) :: rest)
          | None => Some rest
          end
      end
  end.

Definition top_urls (k : nat) (st : Store) : option (list popular_url * Store) :=
  let heap_copy := most_frequent st in
  top ← popular_loop (Nat.min k (length heap_copy)) (url_map st) heap_copy;
  Some (top, st).

Definition get_popular_urls (st : Store) : option (list popular_url * Store) :=
  top_urls 10 st.

(** [get_index]: the five most popular entries for the page. *)
Definition get_index (st : Store) : option (list popular_url * Store) :=
  top_urls 5 st.

Definition HASH_SIZE : nat := 7.

(** [hash_url]; [timestamp] is what [str(time.time())] returned. *)
Definition hash_url (url timestamp : string) : string :=
  let hash_input := String.append url timestamp in
  String.substring 0 HASH_SIZE
    (Hashlib.hexdigest (Hashlib.sha256 (Hashlib.encode hash_input))).

(** The whole of the [shorten_url] handler at clock value [timestamp]: the
    short hash and the popular entries it hands to the page template, and
    the store after it.  [save_data()] only writes the files and is left
    out, as in [redirect_to_url]. *)
Definition shorten_url_request (st : Store) (timestamp url : string)
  : option (string * list popular_url * Store) :=
  let url := with_scheme url in
  let short_hash := hash_url url timestamp in
  st ← put st short_hash url;
  '(popular_urls, st) ← top_urls 5 st;
  Some (short_hash, popular_urls, st).

(** A pickle file: missing, unreadable ([pickle.load] raises), or holding
    an object.  What [pickle.dump] wrote, [pickle.load] gives back. *)
Inductive file (A : Type) :=
| Missing
| Unreadable
| Pickled (x : A).
Arguments Missing {A}.
Arguments Unreadable {A}.
Arguments Pickled {A} x.

(** The three files under [data/].  The pickled [Counter] is the list of
    its items, in the order of the dict. *)
Record Files := mkFiles {
  DATA_FILE : file (gmap string string);
  COUNTER_FILE : file (list (string * Z));
  TREE_FILE : file RedBlackTree.t
}.

(** [save_data].  [items] is [access_counter.items()]: the items of the
    counter in the order of its dict, the order in which the keys were
    first counted.  The [gmap] of the store does not record that order, so
    the call is given it. *)
Definition save_data (st : Store) (items : list (string * Z)) : Files :=
  mkFiles (Pickled (url_map st)) (Pickled items) (Pickled (url_tree st)).

(** [load_data]: each file that exists is read into its global, the heap is
    rebuilt from the counter, and the first file that cannot be read ends
    the loading ([except Exception: print]) with the globals as they are by
    then.  The cuckoo tables are not stored. *)
Definition load_data (fs : Files) (st : Store) : Store :=
  match DATA_FILE fs with
  | Unreadable => st
  | data =>
      let st :=
        match data with
        | Pickled url_map =>
            mkStore url_map (access_counter st) (most_frequent st)
              (url_tree st) (cuckoo st)
        | _ => st
        end in
      match COUNTER_FILE fs with
      | Unreadable => st
      | counter =>
          let st :=
            match counter with
            | Pickled items =>
                let most_frequent :=
                  map (fun '(url, count) => ((- count)%Z, url)) items in
                mkStore (url_map st) (list_to_map items)
                  (heapq.heapify most_frequent) (url_tree st) (cuckoo st)
            | _ => st
            end in
          match TREE_FILE fs with
          | Pickled url_tree =>
              mkStore (url_map st) (access_counter st) (most_frequent st)
                url_tree (cuckoo st)
          | _ => st
          end
      end
  end.

(** A new process: the module-level values, then [startup_event]. *)
Definition startup_event (fs : Files) : Store := load_data fs initial.


(** * Part II: specification

    The vocabulary of the statements below: invariants of the cuckoo
    tables, the tree an object store represents, the heap property and
    the states the store can reach. *)

Import RedBlackTree.
#[local] Set Warnings "-clear-no-such-hyp".

(** ** The cuckoo tables *)

(** Successive [cuckoo_insert] calls with the default budget. *)
Definition cuckoo_inserts (ops : list (string * string)) (c : Cuckoo) : Cuckoo :=
  foldl (fun c kv => snd (cuckoo_insert c (fst kv) (snd kv) 100)) c ops.

(** Some slot of table [t] holds [k]. *)
Definition stored (t : list slot) (k : string) : Prop :=
  exists i v, t !! i = Some (Some (k, v)).

(** The number of slots of [t] that hold [k]. *)
Definition holds (k : string) (s : slot) : bool :=
  match s with Some (k', _) => String.eqb k' k | None => false end.

Definition slots_holding (c : Cuckoo) (k : string) : nat :=
  length (filter (fun s => holds k s = true) (cuckoo_table1 c))
  + length (filter (fun s => holds k s = true) (cuckoo_table2 c)).

(** Both tables keep their size and every pair sits in the slot its hash
    names. *)
Record positioned (c : Cuckoo) : Prop := {
  pos_len1 : length (cuckoo_table1 c) = CUCKOO_SIZE;
  pos_len2 : length (cuckoo_table2 c) = CUCKOO_SIZE;
  pos_tab1 : forall i k v,
    cuckoo_table1 c !! i = Some (Some (k, v)) -> i = cuckoo_hash1 k;
  pos_tab2 : forall i k v,
    cuckoo_table2 c !! i = Some (Some (k, v)) -> i = cuckoo_hash2 k
}.

(** The executable reading of [stored], and of "no key in both tables". *)
Definition storedb (t : list slot) (k : string) : bool := existsb (holds k) t.

Definition unique (c : Cuckoo) : bool :=
  forallb (fun s => match s with
                    | Some (k, _) => negb (storedb (cuckoo_table2 c) k)
                    | None => true
                    end) (cuckoo_table1 c).

(** ** A chain of evictions that uses up the iterations *)

(** A chain of real keys: each one hashes, in one table, to the slot of the
    next one in the other table.  The last key inserted is already there. *)
Definition chain_keys : list string :=
  [
    "0000000"; "000003a"; "0000061"; "00000bc"; "00003b7"; "00004c1"; "0000823"; "0001063";
    "0001b1c"; "0001b58"; "000217d"; "00025c7"; "000290a"; "000354d"; "00037ac"; "00045d2";
    "0004f96"; "000518f"; "00055b3"; "0005d0b"; "0006171"; "00065e9"; "0006891"; "0006df5";
    "0007080"; "0007ee1"; "0008170"; "0008793"; "00087a7"; "0008a6b"; "0008abc"; "0008ac0";
    "0008c03"; "0008ee5"; "0008ee7"; "0008fc9"; "0009979"; "0009f0e"; "000a1b6"; "000a255";
    "000a449"; "000a45c"; "000a56f"; "000ac71"; "000ae36"; "000af41"; "000afbe"; "000b308";
    "000bbb1"; "000be5e"; "000c07e"; "000c3ec"; "000c678"; "000cd6f"; "000cf7d"; "000d32f";
    "000d495"; "000d73f"; "000dc97"; "000e530"; "000e533"; "000e86e"; "000e99b"; "000f072";
    "000f287"; "000f8f3"; "000fc66"; "000fc84"; "0010a46"; "0010ae2"; "00113c6"; "001165a";
    "00117ec"; "001180e"; "0011fcb"; "00125e3"; "0012676"; "001279b"; "001280f"; "0012fe6";
    "0013322"; "0013b86"; "0013c6d"; "0013c73"; "0013cdf"; "0013ede"; "00152a5"; "0015a21";
    "0015c6e"; "0016041"; "0016756"; "0016bc2"; "0017155"; "0017f7d"; "0018c15"; "0018fdb";
    "001926a"; "001971c"; "0019844"; "0019855"; "001987d"; "001a195"; "001a368"; "001a52c";
    "001ae2f"; "001af04"; "001b38a"; "001baef"; "001c1d4"; "001c2a4"; "001c66a"; "001c99c";
    "001cabf"; "001cd96"; "001cd97"; "001d32c"; "001d664"; "001e2a4"; "001e41b"; "001e4b2";
    "001e86b"; "001f112"; "002002a"; "0020036"; "00206bb"; "00206f6"; "00207c7"; "00208ae";
    "0021111"; "0021f3d"; "0022510"; "002279a"; "00234b2"; "0023af3"; "0023cf3"; "0023fc1";
    "002433e"; "0024840"; "00249df"; "0024b5a"; "0024c44"; "002523e"; "0025d1d"; "0025d76";
    "0025f15"; "0025f48"; "002680b"; "002757a"; "002794b"; "0027aa0"; "0027ab4"; "0027db9";
    "0027fc9"; "0028357"; "0028f17"; "0028f29"; "0028f83"; "0029129"; "002a2e6"; "002a843";
    "002a931"; "002b302"; "002b987"; "002b9a6"; "002c0a9"; "002c21d"; "002cab5"; "002cb29";
    "002cf36"; "002d0fe"; "002d55a"; "002d6a0"; "002d9a6"; "002e536"; "002e6c9"; "002e751";
    "002ea6d"; "002ed53"; "002f0d0"; "002f1d6"; "002f209"; "002f725"; "002fd91"; "002fdff";
    "002ff48"; "003110c"; "0032371"; "00325fd"; "0032969"; "0032c4e"; "00334b1"; "0033b56";
    "0033b6f"; "0033bc5"; "0033e18"; "0033f28"; "0034425"; "0034a26"; "00350c0"; "0035779";
    "0035d69"; "0035779" ].

Definition chain_ops : list (string * string) :=
  map (fun k => (k, "u")) chain_keys.

(** ** The order on keys *)

(** [a < b] on Python strings. *)
Definition slt (a b : string) : Prop := String.ltb a b = true.

(** ** The tree an object store represents *)

(** A binary tree whose nodes carry their reference, colour, key and
    value. *)
Inductive ltree :=
| Leaf
| Nd (p : nat) (c : bool) (l : ltree) (k v : string) (r : ltree).

(** One step of the path from a node up to the root: the parent, and the
    sibling subtree on the other side. *)
Inductive frame :=
| FL (p : nat) (c : bool) (k v : string) (r : ltree)   (* the hole is [p.left] *)
| FR (p : nat) (c : bool) (l : ltree) (k v : string).  (* the hole is [p.right] *)

(** The path to the root, the parent first. *)
Abbreviation ctx := (list frame).

Definition rootref (nil : nat) (t : ltree) : nat :=
  match t with Leaf => nil | Nd p _ _ _ _ _ => p end.

Definition color_of (t : ltree) : bool :=
  match t with Leaf => false | Nd _ c _ _ _ _ => c end.

Definition paint (c : bool) (t : ltree) : ltree :=
  match t with Leaf => Leaf | Nd p _ l k v r => Nd p c l k v r end.

Fixpoint inorder (t : ltree) : list (string * string) :=
  match t with
  | Leaf => []
  | Nd _ _ l k v r => inorder l ++ (k, v) :: inorder r
  end.

Fixpoint size (t : ltree) : nat :=
  match t with
  | Leaf => 0
  | Nd _ _ l _ _ r => S (size l + size r)
  end.

Definition frame_ref (f : frame) : nat :=
  match f with FL p _ _ _ _ => p | FR p _ _ _ _ => p end.

Definition frame_color (f : frame) : bool :=
  match f with FL _ c _ _ _ => c | FR _ c _ _ _ => c end.

Definition plug1 (f : frame) (t : ltree) : ltree :=
  match f with
  | FL p c k v r => Nd p c t k v r
  | FR p c l k v => Nd p c l k v t
  end.

Fixpoint plug (C : ctx) (t : ltree) : ltree :=
  match C with
  | [] => t
  | f :: C' => plug C' (plug1 f t)
  end.

(** The parent of the hole, as the [parent] attribute has it. *)
Definition cpar (C : ctx) : option nat :=
  match C with [] => None | f :: _ => Some (frame_ref f) end.

(** The root of the whole tree, given the reference filling the hole. *)
Fixpoint croot (C : ctx) (hole : nat) : nat :=
  match C with
  | [] => hole
  | f :: C' => croot C' (frame_ref f)
  end.

(** What lies left and right of the hole in the in-order sequence. *)
Fixpoint cleft (C : ctx) : list (string * string) :=
  match C with
  | [] => []
  | FL _ _ _ _ _ :: C' => cleft C'
  | FR _ _ l k v :: C' => cleft C' ++ inorder l ++ [(k, v)]
  end.

Fixpoint cright (C : ctx) : list (string * string) :=
  match C with
  | [] => []
  | FL _ _ k v r :: C' => (k, v) :: inorder r ++ cright C'
  | FR _ _ _ _ _ :: C' => cright C'
  end.

Definition lrot (t : ltree) : ltree :=
  match t with
  | Nd x cx a kx vx (Nd y cy b ky vy c) => Nd y cy (Nd x cx a kx vx b) ky vy c
  | _ => t
  end.

Definition rrot (t : ltree) : ltree :=
  match t with
  | Nd x cx (Nd y cy a ky vy b) kx vx c => Nd y cy a ky vy (Nd x cx b kx vx c)
  | _ => t
  end.

(** The tree when the [while] of [_fix_insert] ends, started on the node
    at the root of [t] below the path [C]. *)
Fixpoint fix_up (C : ctx) (t : ltree) : ltree :=
  match C with
  | f :: g :: C2 =>
      if frame_color f then
        match g with
        | FR G cg U kg vg =>
            if color_of U then
              fix_up C2 (Nd G true (paint false U) kg vg (paint false (plug1 f t)))
            else
              let P := match f with
                       | FL _ _ _ _ _ => rrot (plug1 f t)
                       | FR _ _ _ _ _ => plug1 f t
                       end in
              plug C2 (lrot (Nd G true U kg vg (paint false P)))
        | FL G cg kg vg U =>
            if color_of U then
              fix_up C2 (Nd G true (paint false (plug1 f t)) kg vg (paint false U))
            else
              let P := match f with
                       | FR _ _ _ _ _ => lrot (plug1 f t)
                       | FL _ _ _ _ _ => plug1 f t
                       end in
              plug C2 (rrot (Nd G true (paint false P) kg vg U))
        end
      else plug C t
  | _ => plug C t
  end.

(** The descent of [insert], as a path and the subtree it stops on. *)
Fixpoint descend (t : ltree) (key : string) (C : ctx) : ctx * ltree :=
  match t with
  | Leaf => (C, Leaf)
  | Nd p c l k v r =>
      if String.ltb key k then descend l key (FL p c k v r :: C)
      else if String.ltb k key then descend r key (FR p c l k v :: C)
      else (C, t)
  end.

(** [insert] on the represented tree; [n] is the reference of the new
    node. *)
Definition insert_tree (n : nat) (t : ltree) (key value : string) : ltree :=
  match descend t key [] with
  | (C, Nd p c l k v r) => plug C (Nd p c l k value r)
  | (C, Leaf) =>
      let t0 := Nd n true Leaf key value Leaf in
      match C with
      | [] => paint false t0
      | [_] => plug C t0
      | _ => paint false (fix_up C t0)
      end
  end.

Fixpoint lookup_tree (t : ltree) (key : string) : option string :=
  match t with
  | Leaf => None
  | Nd _ _ l k v r =>
      if decide (key = k) then Some v
      else if String.ltb key k then lookup_tree l key
      else lookup_tree r key
  end.

(** The NIL object. *)
Definition NILnode : Node.t := Node.mk None None None None None false.

(** The objects of [t] are in the store as [t] draws them; [par] is the
    [parent] attribute of the root of [t]. *)
Fixpoint agree (objs : list Node.t) (nil : nat) (par : option nat) (t : ltree)
  : Prop :=
  match t with
  | Leaf => True
  | Nd p c l k v r =>
      objs !! p = Some (Node.mk (Some k) (Some v) (Some (rootref nil l))
                          (Some (rootref nil r)) par c)
      /\ agree objs nil (Some p) l /\ agree objs nil (Some p) r
  end.

(** The same for the nodes of a path around the hole [hole]. *)
Fixpoint agree_ctx (objs : list Node.t) (nil : nat) (C : ctx) (hole : nat)
  : Prop :=
  match C with
  | [] => True
  | FL p c k v r :: C' =>
      objs !! p = Some (Node.mk (Some k) (Some v) (Some hole)
                          (Some (rootref nil r)) (cpar C') c)
      /\ agree objs nil (Some p) r /\ agree_ctx objs nil C' p
  | FR p c l k v :: C' =>
      objs !! p = Some (Node.mk (Some k) (Some v) (Some (rootref nil l))
                          (Some hole) (cpar C') c)
      /\ agree objs nil (Some p) l /\ agree_ctx objs nil C' p
  end.

(** The store [T] holds the tree [plug C t], seen from the subtree [t]. *)
Record zrep (T : RedBlackTree.t) (C : ctx) (t : ltree) : Prop := {
  z_nil : RedBlackTree.objs T !! RedBlackTree.NIL T = Some NILnode;
  z_sub : agree (RedBlackTree.objs T) (RedBlackTree.NIL T) (cpar C) t;
  z_ctx : agree_ctx (RedBlackTree.objs T) (RedBlackTree.NIL T) C
            (rootref (RedBlackTree.NIL T) t);
  z_root : RedBlackTree.root T = croot C (rootref (RedBlackTree.NIL T) t);
  z_keys : NoDup (cleft C ++ inorder t ++ cright C).*1
}.

(** The store [T] holds the tree [t], and nothing else but NIL. *)
Definition rep (T : RedBlackTree.t) (t : ltree) : Prop :=
  zrep T [] t /\ length (RedBlackTree.objs T) = S (size t).

(** ** Search-tree order and the red-black properties *)

(** The root of the tree around the hole is black. *)
Definition root_black (C : ctx) : Prop :=
  match last C with
  | Some f => frame_color f = false
  | None => True
  end.

(** The keys come in strictly increasing order. *)
Definition sorted (l : list (string * string)) : Prop :=
  StronglySorted slt l.*1.

(** The path was taken by comparing with [key]: everything left of the
    hole is smaller, everything right of it greater. *)
Definition bounds (C : ctx) (key : string) : Prop :=
  (forall x, x ∈ (cleft C).*1 -> slt x key)
  /\ (forall x, x ∈ (cright C).*1 -> slt key x).

(** The direction taken at the parent. *)
Definition went (C : ctx) (key : string) : Prop :=
  match C with
  | [] => True
  | FL _ _ k _ _ :: _ => String.ltb key k = true
  | FR _ _ _ k _ :: _ => String.ltb key k = false
  end.

(** Every path from the root of [t] down to a leaf passes through [n]
    black nodes. *)
Fixpoint balanced (t : ltree) (n : nat) : Prop :=
  match t with
  | Leaf => n = 0
  | Nd _ c l _ _ r =>
      if c then balanced l n /\ balanced r n
      else match n with
           | 0 => False
           | S m => balanced l m /\ balanced r m
           end
  end.

(** No red node has a red child. *)
Fixpoint nored (t : ltree) : Prop :=
  match t with
  | Leaf => True
  | Nd _ c l _ _ r =>
      (c = true -> color_of l = false /\ color_of r = false)
      /\ nored l /\ nored r
  end.

Definition sib (f : frame) : ltree :=
  match f with FL _ _ _ _ r => r | FR _ _ l _ _ => l end.

(** The black height a subtree must have to fill the hole. *)
Fixpoint cbal (C : ctx) (n : nat) : Prop :=
  match C with
  | [] => True
  | f :: C' =>
      balanced (sib f) n /\ cbal C' (if frame_color f then n else S n)
  end.

Definition parent_black (C : ctx) : Prop :=
  match C with [] => True | f :: _ => frame_color f = false end.

Fixpoint cnored (C : ctx) : Prop :=
  match C with
  | [] => True
  | f :: C' =>
      nored (sib f)
      /\ (frame_color f = true -> color_of (sib f) = false /\ parent_black C')
      /\ cnored C'
  end.

(** Black root, no red-red pair, one black height. *)
Definition rbtree (t : ltree) : Prop :=
  color_of t = false /\ nored t /\ exists n, balanced t n.

Definition tree_map (t : ltree) : gmap string string :=
  list_to_map (inorder t).

(** ** Sequences of [insert]; the properties read off the object store *)

Definition inserts (ops : list (string * string)) (T : t) : option t :=
  foldl (fun o kv => T ← o; insert T (fst kv) (snd kv)) (Some T) ops.

(** What a store built by [insert] holds: a red-black search tree. *)
Definition tree_inv (T : t) (t : ltree) : Prop :=
  rep T t /\ rbtree t /\ sorted (inorder t) /\ NIL T = 0.

(** The dict a sequence of insertions builds. *)
Definition assigns (ops : list (string * string)) (m : gmap string string)
  : gmap string string :=
  foldl (fun m kv => <[fst kv := snd kv]> m) m ops.

(** The node or NIL that [o] refers to is black. *)
Definition is_black (T : t) (o : option nat) : Prop :=
  attr T o Node.color = Some false.

Definition root_is_black (T : t) : Prop := is_black T (Some (root T)).

(** [p] is a node of the tree: the root, or the left or right child of a
    node of the tree, NIL excluded. *)
Inductive in_tree (T : t) : nat -> Prop :=
| in_root : root T <> NIL T -> in_tree T (root T)
| in_left p n q :
    in_tree T p -> objs T !! p = Some n -> Node.left n = Some q ->
    q <> NIL T -> in_tree T q
| in_right p n q :
    in_tree T p -> objs T !! p = Some n -> Node.right n = Some q ->
    q <> NIL T -> in_tree T q.

Definition no_red_red (T : t) : Prop :=
  forall p n, in_tree T p -> objs T !! p = Some n -> Node.color n = true ->
    is_black T (Node.left n) /\ is_black T (Node.right n).

(** A path from [p] down to NIL through left and right attributes, with
    [b] black nodes on it, NIL not counted. *)
Inductive black_path (T : t) : nat -> nat -> Prop :=
| bp_nil : black_path T (NIL T) 0
| bp_left p n q b :
    p <> NIL T -> objs T !! p = Some n -> Node.left n = Some q ->
    black_path T q b ->
    black_path T p (if Node.color n then b else S b)
| bp_right p n q b :
    p <> NIL T -> objs T !! p = Some n -> Node.right n = Some q ->
    black_path T q b ->
    black_path T p (if Node.color n then b else S b).

Definition equal_black_paths (T : t) : Prop :=
  forall b1 b2,
    black_path T (root T) b1 -> black_path T (root T) b2 -> b1 = b2.

(** ** The heap of access counts *)

(** [not (b < a)] on tuples, the "at most" of the heap invariant. *)
Definition ile (a b : Z * string) : Prop := heapq.lt b a = false.

(** [l[i] <= l[2*i+1]] and [l[i] <= l[2*i+2]] for every [i] from [s] on. *)
Definition heap_from (s : nat) (l : list (Z * string)) : Prop :=
  forall i j, s <= i -> j = 2 * i + 1 \/ j = 2 * i + 2 -> j < length l ->
    ile (l !!! i) (l !!! j).

Definition is_heap (l : list (Z * string)) : Prop := heap_from 0 l.

(** The list is a heap from [s] on, except that the entry at [pos] may be
    smaller than its parent. *)
Definition heap_but_up (s : nat) (v : list (Z * string)) (pos : nat) : Prop :=
  (forall i j, s <= i -> j = 2 * i + 1 \/ j = 2 * i + 2 -> j < length v ->
     j <> pos -> ile (v !!! i) (v !!! j))
  /\ (s < pos -> forall j, j = 2 * pos + 1 \/ j = 2 * pos + 2 -> j < length v ->
        ile (v !!! ((pos - 1) / 2)) (v !!! j)).

(** [pos] lies in the binary subtree rooted at [s]. *)
Inductive in_subtree (s : nat) : nat -> Prop :=
| sub_root : in_subtree s s
| sub_left i : in_subtree s i -> in_subtree s (2 * i + 1)
| sub_right i : in_subtree s i -> in_subtree s (2 * i + 2).

(** The list is a heap from [s] on, except around the entry at [pos]:
    it may be larger than its children and smaller than its parent. *)
Definition heap_but_down (s : nat) (v : list (Z * string)) (pos : nat)
  : Prop :=
  (forall i j, s <= i -> j = 2 * i + 1 \/ j = 2 * i + 2 -> j < length v ->
     i <> pos -> j <> pos -> ile (v !!! i) (v !!! j))
  /\ (s < pos -> forall j, j = 2 * pos + 1 \/ j = 2 * pos + 2 -> j < length v ->
        ile (v !!! ((pos - 1) / 2)) (v !!! j)).

(** ** The store *)

Inductive op :=
| Put (short_hash url : string)   (* the writes of [shorten_url] *)
| Get (short_url : string)        (* [redirect_to_url] *)
| Popular.                        (* [get_popular_urls] *)

Definition step (st : Store) (o : op) : option Store :=
  match o with
  | Put k v => put st k v
  | Get k => snd <$> redirect_to_url st k
  | Popular => snd <$> get_popular_urls st
  end.

Definition run (ops : list op) (st : Store) : option Store :=
  foldl (fun o x => st ← o; step st x) (Some st) ops.

Definition entry (c : Cuckoo) (k v : string) : Prop :=
  (exists i, cuckoo_table1 c !! i = Some (Some (k, v)))
  \/ (exists i, cuckoo_table2 c !! i = Some (Some (k, v))).

(** The heap entry of a counted key. *)
Definition heap_entry (kc : string * Z) : Z * string := ((- snd kc)%Z, fst kc).

(** The heap is a heap and holds, for each counted key, its count
    negated. *)
Definition tracker_inv (counter : gmap string Z) (heap : list (Z * string))
  : Prop :=
  is_heap heap /\ heap ≡ₚ heap_entry <$> map_to_list counter.

(** The heap entry a returned record was read from. *)
Definition popular_entry (p : popular_url) : Z * string :=
  ((- access_count p)%Z, short_url p).

Record store_inv (st : Store) : Prop := {
  (* the tree is a red-black search tree holding the dict's entries *)
  inv_tree : exists t, tree_inv (url_tree st) t /\ tree_map t = url_map st;
  (* the cuckoo tables only hold keys of the dict *)
  inv_cuckoo : forall k v, entry (cuckoo st) k v -> is_Some (url_map st !! k);
  (* the heap follows the counter *)
  inv_tracker : tracker_inv (access_counter st) (most_frequent st);
  (* only keys of the dict are counted *)
  inv_counted : forall k,
    is_Some (access_counter st !! k) -> is_Some (url_map st !! k)
}.

(** What [redirect_to_url] answers, read off the three structures. *)
Definition answer (st : Store) (k : string) : option string :=
  let o := url_map st !! k in
  let o := if truthy o then o else cuckoo_lookup (cuckoo st) k in
  if truthy o then o else url_map st !! k.

(** [o] writes key [k]. *)
Definition puts_key (k : string) (o : op) : bool :=
  match o with
  | Put k' _ => String.eqb k' k
  | _ => false
  end.

(** The store with another tree in place of its own. *)
Definition with_tree (st : Store) (T : RedBlackTree.t) : Store :=
  mkStore (url_map st) (access_counter st) (most_frequent st) T (cuckoo st).

(** ** Probes, histories, files and depth *)

(** The two probes of [cuckoo_lookup]. *)
Definition look1 (c : Cuckoo) (k : string) : option string :=
  match cuckoo_table1 c !!! cuckoo_hash1 k with
  | Some (k', v) => if String.eqb k' k then Some v else None
  | None => None
  end.

Definition look2 (c : Cuckoo) (k : string) : option string :=
  match cuckoo_table2 c !!! cuckoo_hash2 k with
  | Some (k', v) => if String.eqb k' k then Some v else None
  | None => None
  end.

(** What a lookup answers while the pair [(k, v)] is still in the hands of
    [cuckoo_insert]: the tables, with [k] bound to [v]. *)
Definition lookup_with (c : Cuckoo) (k v : string) (k' : string)
  : option string :=
  if decide (k' = k) then Some v else cuckoo_lookup c k'.

(** No key is stored in both tables. *)
Definition one_table (c : Cuckoo) : Prop :=
  forall x, stored (cuckoo_table1 c) x -> stored (cuckoo_table2 c) x -> False.

(** Every insert of [ops] returned True. *)
Fixpoint all_placed (ops : list (string * string)) (c : Cuckoo) : bool :=
  match ops with
  | [] => true
  | (k, v) :: ops =>
      let '(placed, c') := cuckoo_insert c k v 100 in
      placed && all_placed ops c'
  end.

(** The pair [inorder_traversal] reports for a node. *)
Definition reported (kv : string * string) : option string * option string :=
  (Some (fst kv), Some (snd kv)).

(** [o] is a lookup of [k] that [st] answers with a redirect. *)
Definition redirected (st : Store) (k : string) (o : op) : bool :=
  match o with
  | Get k' =>
      String.eqb k' k
      && match redirect_to_url st k' with
         | Some (RedirectResponse _, _) => true
         | _ => false
         end
  | _ => false
  end.

(** The number of lookups of [k] answered with a redirect while [ops] runs
    from [st]. *)
Fixpoint redirects (ops : list op) (st : Store) (k : string) : Z :=
  match ops with
  | [] => 0
  | o :: ops =>
      ((if redirected st k o then 1 else 0)
       + match step st o with
         | Some st' => redirects ops st' k
         | None => 0
         end)%Z
  end.

(** [o] is not a write. *)
Definition reads (o : op) : bool :=
  match o with Put _ _ => false | _ => true end.

(** The sixteen lowercase hexadecimal digits. *)
Definition hex_digits : list ascii := list_ascii_of_string "0123456789abcdef".

(** The files [save_data] writes when the dict of the counter lists its
    items in the order [items]. *)
Definition saved (st : Store) (items : list (string * Z)) : Files :=
  mkFiles (Pickled (url_map st)) (Pickled items) (Pickled (url_tree st)).

(** The number of nodes on the longest path from the root down. *)
Fixpoint height (t : ltree) : nat :=
  match t with
  | Leaf => 0
  | Nd _ _ l _ _ r => S (Nat.max (height l) (height r))
  end.

(** The writes among [ops], in order. *)
Definition puts (ops : list op) : list (string * string) :=
  omap (fun o => match o with Put k v => Some (k, v) | _ => None end) ops.

(** * Part III: proofs *)

(** ** The digests

    The test vectors of RFC 1321 and RFC 3174, and the slots of the keys
    the examples below are built from. *)

Lemma md5_test_vectors :
  Hashlib.int_of_digest (Hashlib.md5 (Hashlib.encode ""))
  = 0xd41d8cd98f00b204e9800998ecf8427e%Z
  /\ Hashlib.int_of_digest (Hashlib.md5 (Hashlib.encode "abc"))
     = 0x900150983cd24fb0d6963f7d28e17f72%Z
  /\ Hashlib.int_of_digest (Hashlib.md5 (Hashlib.encode "message digest"))
     = 0xf96b697d7cb7938d525a2f31aaf161d0%Z.
Proof. vm_compute. repeat split. Qed.

Lemma sha1_test_vectors :
  Hashlib.int_of_digest (Hashlib.sha1 (Hashlib.encode ""))
  = 0xda39a3ee5e6b4b0d3255bfef95601890afd80709%Z
  /\ Hashlib.int_of_digest (Hashlib.sha1 (Hashlib.encode "abc"))
     = 0xa9993e364706816aba3e25717850c26c9cd0d89d%Z.
Proof. vm_compute. repeat split. Qed.

(** Three keys that share both slots, and two that share the slot of
    table 1 only. *)
Lemma colliding_keys :
  map (fun k => (cuckoo_hash1 k, cuckoo_hash2 k))
    ["0000515"; "0002682"; "0004ffe"; "000000c"; "0000023"]
  = [(633, 789); (633, 789); (633, 789); (167, 6); (167, 357)].
Proof. vm_compute. reflexivity. Qed.

(** ** The cuckoo tables *)

Lemma cuckoo_hash1_lt key : cuckoo_hash1 key < CUCKOO_SIZE.
Proof.
  unfold cuckoo_hash1.
  generalize (Hashlib.int_of_digest (Hashlib.md5 (Hashlib.encode key))).
  intros z. pose proof (Z.mod_pos_bound z (Z.of_nat CUCKOO_SIZE)) as H.
  unfold CUCKOO_SIZE in *. lia.
Qed.

Lemma cuckoo_hash2_lt key : cuckoo_hash2 key < CUCKOO_SIZE.
Proof.
  unfold cuckoo_hash2.
  generalize (Hashlib.int_of_digest (Hashlib.sha1 (Hashlib.encode key))).
  intros z. pose proof (Z.mod_pos_bound z (Z.of_nat CUCKOO_SIZE)) as H.
  unfold CUCKOO_SIZE in *. lia.
Qed.

Global Opaque cuckoo_hash1 cuckoo_hash2.

Lemma positioned_empty : positioned cuckoo_empty.
Proof.
  split; unfold cuckoo_empty; cbn [cuckoo_table1 cuckoo_table2].
  - apply length_replicate.
  - apply length_replicate.
  - intros i k v H. apply lookup_replicate in H. by destruct H.
  - intros i k v H. apply lookup_replicate in H. by destruct H.
Qed.

Lemma positioned_set1 c k v :
  positioned c -> positioned (set_table1 c (cuckoo_hash1 k) (k, v)).
Proof.
  intros [L1 L2 P1 P2]. split; simpl; auto.
  - by rewrite length_insert.
  - intros i k' v' H. apply list_lookup_insert_Some in H.
    destruct H as [(Hi & Heq & _) | (Hne & H)]; [by simplify_eq | eauto].
Qed.

Lemma positioned_set2 c k v :
  positioned c -> positioned (set_table2 c (cuckoo_hash2 k) (k, v)).
Proof.
  intros [L1 L2 P1 P2]. split; simpl; auto.
  - by rewrite length_insert.
  - intros i k' v' H. apply list_lookup_insert_Some in H.
    destruct H as [(Hi & Heq & _) | (Hne & H)]; [by simplify_eq | eauto].
Qed.

(** Reading a slot in range. *)
Lemma slot_total (t : list slot) i :
  i < length t -> t !! i = Some (t !!! i).
Proof. intros H. by apply list_lookup_lookup_total_lt. Qed.

(** What one pass of the loop body does, case by case. *)
Lemma cuckoo_iteration_cases c k v :
  (cuckoo_iteration c k v = Return (set_table1 c (cuckoo_hash1 k) (k, v)) /\
   (cuckoo_table1 c !!! cuckoo_hash1 k = None \/
    exists v0, cuckoo_table1 c !!! cuckoo_hash1 k = Some (k, v0)))
  \/ (exists k1 v1, cuckoo_table1 c !!! cuckoo_hash1 k = Some (k1, v1) /\
       k1 <> k /\
       let c1 := set_table1 c (cuckoo_hash1 k) (k, v) in
       (cuckoo_iteration c k v = Return (set_table2 c1 (cuckoo_hash2 k1) (k1, v1)) /\
        (cuckoo_table2 c !!! cuckoo_hash2 k1 = None \/
         exists v0, cuckoo_table2 c !!! cuckoo_hash2 k1 = Some (k1, v0)))
       \/ (exists k2 v2, cuckoo_table2 c !!! cuckoo_hash2 k1 = Some (k2, v2) /\
            k2 <> k1 /\
            cuckoo_iteration c k v
            = Next (set_table2 c1 (cuckoo_hash2 k1) (k1, v1)) k2 v2)).
Proof.
  unfold cuckoo_iteration.
  destruct (cuckoo_table1 c !!! cuckoo_hash1 k) as [[k1 v1]|] eqn:E1;
    [|left; eauto].
  destruct (String.eqb_spec k1 k) as [->|Hne1]; [left; eauto|].
  right. exists k1, v1. split; [done|]. split; [done|]. cbn zeta.
  cbn [cuckoo_table2 set_table1].
  destruct (cuckoo_table2 c !!! cuckoo_hash2 k1) as [[k2 v2]|] eqn:E2;
    [|left; eauto].
  destruct (String.eqb_spec k2 k1) as [->|Hne2]; [left; eauto|].
  right. exists k2, v2. eauto.
Qed.

Lemma cuckoo_iteration_positioned c k v :
  positioned c ->
  match cuckoo_iteration c k v with
  | Return c' => positioned c'
  | Next c' _ _ => positioned c'
  end.
Proof.
  intros Hc.
  destruct (cuckoo_iteration_cases c k v)
    as [[-> _] | (k1 & v1 & _ & _ & [[-> _] | (k2 & v2 & _ & _ & ->)])];
    auto using positioned_set1, positioned_set2.
Qed.

Lemma cuckoo_insert_loop_positioned n : forall c k v,
  positioned c -> positioned (snd (cuckoo_insert_loop n c k v)).
Proof.
  induction n as [|n IH]; intros c k v Hc; simpl; [done|].
  pose proof (cuckoo_iteration_positioned c k v Hc) as H.
  destruct (cuckoo_iteration c k v); [done|]. by apply IH.
Qed.

Lemma cuckoo_insert_positioned c k v n :
  positioned c -> positioned (snd (cuckoo_insert c k v n)).
Proof.
  intros Hc. unfold cuckoo_insert.
  pose proof (cuckoo_insert_loop_positioned n c k v Hc) as H.
  by destruct (cuckoo_insert_loop n c k v).
Qed.

Lemma cuckoo_inserts_positioned ops : forall c,
  positioned c -> positioned (cuckoo_inserts ops c).
Proof.
  induction ops as [|[k v] ops IH]; intros c Hc; [done|].
  apply IH. by apply cuckoo_insert_positioned.
Qed.

(** A key is stored in a positioned table exactly when its own slot holds
    it. *)
Lemma stored1_iff c k :
  positioned c ->
  stored (cuckoo_table1 c) k <->
  exists v, cuckoo_table1 c !!! cuckoo_hash1 k = Some (k, v).
Proof.
  intros Hc. split.
  - intros (i & v & H). exists v.
    pose proof (pos_tab1 c Hc _ _ _ H) as ->.
    by apply list_lookup_total_correct.
  - intros (v & H). exists (cuckoo_hash1 k), v.
    rewrite <- H. apply slot_total.
    rewrite (pos_len1 c Hc). apply cuckoo_hash1_lt.
Qed.

Lemma stored2_iff c k :
  positioned c ->
  stored (cuckoo_table2 c) k <->
  exists v, cuckoo_table2 c !!! cuckoo_hash2 k = Some (k, v).
Proof.
  intros Hc. split.
  - intros (i & v & H). exists v.
    pose proof (pos_tab2 c Hc _ _ _ H) as ->.
    by apply list_lookup_total_correct.
  - intros (v & H). exists (cuckoo_hash2 k), v.
    rewrite <- H. apply slot_total.
    rewrite (pos_len2 c Hc). apply cuckoo_hash2_lt.
Qed.

(** ** Running out of iterations *)

(** After a pass that goes on, the pair in hand has left table 2. *)
Lemma cuckoo_iteration_next_table2 c k v c' k' v' :
  positioned c ->
  cuckoo_iteration c k v = Next c' k' v' ->
  ~ stored (cuckoo_table2 c') k'.
Proof.
  intros Hc Hit.
  pose proof (cuckoo_iteration_positioned c k v Hc) as Hc'. rewrite Hit in Hc'.
  destruct (cuckoo_iteration_cases c k v)
    as [[E _] | (k1 & v1 & _ & _ & [[E _] | (k2 & v2 & E2 & Hne & E)])];
    rewrite E in Hit; try discriminate.
  injection Hit as <- <- <-.
  rewrite (stored2_iff _ _ Hc'). intros (v0 & H).
  assert (cuckoo_hash2 k2 = cuckoo_hash2 k1) as Hpos.
  { symmetry. eapply (pos_tab2 c Hc). rewrite slot_total; [by rewrite E2|].
    rewrite (pos_len2 c Hc). apply cuckoo_hash2_lt. }
  rewrite Hpos in H. cbn [cuckoo_table2 set_table2 set_table1] in H.
  rewrite list_lookup_total_insert_eq in H; [congruence|].
  rewrite (pos_len2 c Hc). apply cuckoo_hash2_lt.
Qed.

Lemma cuckoo_exhausted_table2 n : forall c k v c' k' v',
  positioned c -> 0 < n ->
  cuckoo_insert_loop n c k v = (Exhausted k' v', c') ->
  ~ stored (cuckoo_table2 c') k'.
Proof.
  induction n as [|n IH]; intros c k v c' k' v' Hc Hn Hl; [lia|].
  simpl in Hl.
  pose proof (cuckoo_iteration_positioned c k v Hc) as Hc1.
  destruct (cuckoo_iteration c k v) as [|c1 k1 v1] eqn:Hit; [discriminate|].
  destruct n as [|n].
  - simpl in Hl. injection Hl as <- <- <-.
    eapply (cuckoo_iteration_next_table2 c k v); eauto.
  - eapply IH; eauto. lia.
Qed.

Lemma storedb_iff t k : storedb t k = true <-> stored t k.
Proof.
  unfold storedb, stored. rewrite existsb_exists. split.
  - intros ([[k' v]|] & Hin & Hh); simpl in Hh; [|done].
    apply String.eqb_eq in Hh as ->.
    apply list_elem_of_In, list_elem_of_lookup in Hin as [i Hi]. eauto.
  - intros (i & v & Hi). exists (Some (k, v)). split.
    + apply list_elem_of_In, list_elem_of_lookup. eauto.
    + simpl. apply String.eqb_refl.
Qed.

Lemma storedb_false t k : storedb t k = false <-> ~ stored t k.
Proof. rewrite <- storedb_iff. by destruct (storedb t k). Qed.

Lemma unique_spec c k :
  unique c = true ->
  stored (cuckoo_table1 c) k -> stored (cuckoo_table2 c) k -> False.
Proof.
  unfold unique. rewrite forallb_forall. intros Hu (i & v & Hi) H2.
  specialize (Hu (Some (k, v))). simpl in Hu.
  apply storedb_iff in H2. rewrite H2 in Hu.
  assert (false = true); [|done]. apply Hu.
  apply list_elem_of_In, list_elem_of_lookup. eauto.
Qed.

Lemma stored_set1 c k v x :
  positioned c ->
  stored (cuckoo_table1 (set_table1 c (cuckoo_hash1 k) (k, v))) x ->
  x = k \/ (cuckoo_hash1 x <> cuckoo_hash1 k /\ stored (cuckoo_table1 c) x).
Proof.
  intros Hc (i & v' & Hi). cbn [cuckoo_table1 set_table1] in Hi.
  apply list_lookup_insert_Some in Hi as [(_ & Heq & _) | (Hne & Hi)].
  - left. by simplify_eq.
  - right. pose proof (pos_tab1 c Hc _ _ _ Hi) as ->. split; [done|].
    by exists (cuckoo_hash1 x), v'.
Qed.

Lemma stored_set2 c k v x :
  positioned c ->
  stored (cuckoo_table2 (set_table2 c (cuckoo_hash2 k) (k, v))) x ->
  x = k \/ (cuckoo_hash2 x <> cuckoo_hash2 k /\ stored (cuckoo_table2 c) x).
Proof.
  intros Hc (i & v' & Hi). cbn [cuckoo_table2 set_table2] in Hi.
  apply list_lookup_insert_Some in Hi as [(_ & Heq & _) | (Hne & Hi)].
  - left. by simplify_eq.
  - right. pose proof (pos_tab2 c Hc _ _ _ Hi) as ->. split; [done|].
    by exists (cuckoo_hash2 x), v'.
Qed.

Lemma slot_stored (t : list slot) i k v :
  i < length t -> t !!! i = Some (k, v) -> stored t k.
Proof. intros Hi H. exists i, v. rewrite <- H. by apply slot_total. Qed.

(** With no key in both tables and the pair in hand out of table 2, a pass
    that goes on keeps both facts, and its new pair in hand is in neither
    table. *)
Lemma cuckoo_iteration_next_unique c k v c' k' v' :
  positioned c ->
  (forall x, stored (cuckoo_table1 c) x -> stored (cuckoo_table2 c) x -> False) ->
  ~ stored (cuckoo_table2 c) k ->
  cuckoo_iteration c k v = Next c' k' v' ->
  (forall x, stored (cuckoo_table1 c') x -> stored (cuckoo_table2 c') x -> False)
  /\ ~ stored (cuckoo_table1 c') k' /\ ~ stored (cuckoo_table2 c') k'.
Proof.
  intros Hc Hu Hk Hit.
  pose proof (cuckoo_iteration_next_table2 _ _ _ _ _ _ Hc Hit) as Hk2.
  destruct (cuckoo_iteration_cases c k v)
    as [[E _] | (k1 & v1 & E1 & Hne1 & [[E _] | (k2 & v2 & E2 & Hne2 & E)])];
    rewrite E in Hit; try discriminate.
  injection Hit as <- <- <-.
  assert (cuckoo_hash1 k < length (cuckoo_table1 c)) as Hl1
    by (rewrite (pos_len1 c Hc); apply cuckoo_hash1_lt).
  assert (cuckoo_hash2 k1 < length (cuckoo_table2 c)) as Hl2
    by (rewrite (pos_len2 c Hc); apply cuckoo_hash2_lt).
  pose proof (slot_stored _ _ _ _ Hl1 E1) as Hs1.
  pose proof (slot_stored _ _ _ _ Hl2 E2) as Hs2.
  assert (cuckoo_hash1 k1 = cuckoo_hash1 k) as Hp1.
  { symmetry. eapply (pos_tab1 c Hc). rewrite slot_total; [by rewrite E1|done]. }
  pose proof (positioned_set1 c k v Hc) as Hc1.
  assert (forall x, stored (cuckoo_table1 c) x ->
            stored (cuckoo_table1 (set_table1 c (cuckoo_hash1 k) (k, v))) x ->
            x <> k1) as Hout.
  { intros x _ Hx ->. apply stored_set1 in Hx as [->|[Hx _]]; done. }
  split; [|split; [|done]].
  - intros x Hx1 Hx2. cbn [cuckoo_table1 set_table2] in Hx1.
    apply stored_set2 in Hx2 as [->|[_ Hx2]]; [|clear Hc1|done].
    + apply stored_set1 in Hx1 as [->|[Hx1 _]]; done.
    + cbn [cuckoo_table2 set_table1] in Hx2.
      apply stored_set1 in Hx1 as [->|[_ Hx1]]; [done| |done]. eauto.
  - cbn [cuckoo_table1 set_table2]. intros Hx.
    apply stored_set1 in Hx as [->|[_ Hx]]; [done| |done]. eauto.
Qed.

Lemma cuckoo_exhausted_unique n : forall c k v c' k' v',
  positioned c -> 0 < n ->
  (forall x, stored (cuckoo_table1 c) x -> stored (cuckoo_table2 c) x -> False) ->
  ~ stored (cuckoo_table2 c) k ->
  cuckoo_insert_loop n c k v = (Exhausted k' v', c') ->
  ~ stored (cuckoo_table1 c') k'.
Proof.
  induction n as [|n IH]; intros c k v c' k' v' Hc Hn Hu Hk Hl; [lia|].
  simpl in Hl.
  pose proof (cuckoo_iteration_positioned c k v Hc) as Hc1.
  destruct (cuckoo_iteration c k v) as [|c1 k1 v1] eqn:Hit; [discriminate|].
  destruct (cuckoo_iteration_next_unique _ _ _ _ _ _ Hc Hu Hk Hit)
    as (Hu1 & Hk1 & Hk2).
  destruct n as [|n].
  - simpl in Hl. by injection Hl as <- <- <-.
  - eapply (IH c1 k1 v1); eauto. lia.
Qed.

(** C4, as amended: when the 100 iterations of [cuckoo_insert] run out,
    it returns False, both tables still have [CUCKOO_SIZE] slots, and the
    pair evicted last is not written back: no slot of table 2 holds its key
    any more, and no slot of table 1 either when, before the call, no key
    was stored in both tables and the inserted key was not in table 2. *)
Theorem cuckoo_insert_exhausted ops k v k' v' c' :
  let c := cuckoo_inserts ops cuckoo_empty in
  cuckoo_insert_loop 100 c k v = (Exhausted k' v', c') ->
  cuckoo_insert c k v 100 = (false, c')
  /\ length (cuckoo_table1 c') = CUCKOO_SIZE
  /\ length (cuckoo_table2 c') = CUCKOO_SIZE
  /\ storedb (cuckoo_table2 c') k' = false
  /\ (unique c = true -> storedb (cuckoo_table2 c) k = false ->
      storedb (cuckoo_table1 c') k' = false).
Proof.
  intros c Hl.
  assert (positioned c) as Hc
    by apply cuckoo_inserts_positioned, positioned_empty.
  pose proof (cuckoo_insert_loop_positioned 100 c k v Hc) as Hc'.
  rewrite Hl in Hc'. simpl in Hc'.
  split; [by unfold cuckoo_insert; rewrite Hl|].
  split; [apply (pos_len1 _ Hc')|]. split; [apply (pos_len2 _ Hc')|].
  split.
  - apply storedb_false. eapply (cuckoo_exhausted_table2 100 c k v); eauto. lia.
  - intros Hu Hk. apply storedb_false.
    eapply (cuckoo_exhausted_unique 100 c k v); eauto; [lia| |].
    + intros x. by apply unique_spec.
    + by apply storedb_false.
Qed.

Lemma cuckoo_insert_exhausted_witness :
  let c := cuckoo_inserts [("0000515", "u"); ("0002682", "v")] cuckoo_empty in
  let c' := snd (cuckoo_insert_loop 100 c "0004ffe" "w") in
  cuckoo_insert c "0004ffe" "w" 100 = (false, c')
  /\ storedb (cuckoo_table1 c') "0000515" = false.
Proof.
  intros c c'.
  destruct (cuckoo_insert_exhausted [("0000515", "u"); ("0002682", "v")]
              "0004ffe" "w" "0000515" "u" c')
    as (H1 & _ & _ & _ & H5); [vm_compute; reflexivity|].
  split; [exact H1|]. apply H5; vm_compute; reflexivity.
Defined.

(** C4, as stated, fails: [chain_ops] leaves ["0035779"] in both tables,
    and the insert of ["0035e4b"] then runs through its 100 iterations with
    ["0035779"] as the pair evicted last, while slot [cuckoo_hash1 "0035779"]
    of table 1 still holds that key. *)
Lemma cuckoo_exhausted_pair_still_stored :
  let c := cuckoo_inserts chain_ops cuckoo_empty in
  exists c', cuckoo_insert_loop 100 c "0035e4b" "u" = (Exhausted "0035779" "u", c')
    /\ cuckoo_table1 c' !! cuckoo_hash1 "0035779" = Some (Some ("0035779", "u")).
Proof. eexists. split; (vm_compute; reflexivity). Qed.

(** ** The order on keys *)

Lemma ascii_compare_refl a : Ascii.compare a a = Eq.
Proof. unfold Ascii.compare. apply N.compare_refl. Qed.

Lemma ascii_compare_lt_trans a b c :
  Ascii.compare a b = Lt -> Ascii.compare b c = Lt -> Ascii.compare a c = Lt.
Proof.
  unfold Ascii.compare. rewrite !N.compare_lt_iff. lia.
Qed.

Lemma string_compare_refl s : String.compare s s = Eq.
Proof.
  induction s as [|a s IH]; [done|]. simpl. by rewrite ascii_compare_refl.
Qed.

Lemma string_compare_lt_trans : forall s1 s2 s3,
  String.compare s1 s2 = Lt -> String.compare s2 s3 = Lt ->
  String.compare s1 s3 = Lt.
Proof.
  induction s1 as [|a s1 IH]; intros [|b s2] [|c s3]; simpl; try done.
  destruct (Ascii.compare a b) eqn:Eab; try done;
    destruct (Ascii.compare b c) eqn:Ebc; try done; intros H12 H23.
  - apply Ascii.compare_eq_iff in Eab, Ebc. subst.
    rewrite ascii_compare_refl. eauto.
  - apply Ascii.compare_eq_iff in Eab. subst. by rewrite Ebc.
  - apply Ascii.compare_eq_iff in Ebc. subst. by rewrite Eab.
  - by rewrite (ascii_compare_lt_trans _ _ _ Eab Ebc).
Qed.

Lemma slt_irrefl a : ~ slt a a.
Proof. unfold slt, String.ltb. by rewrite string_compare_refl. Qed.

Lemma slt_trans a b c : slt a b -> slt b c -> slt a c.
Proof.
  unfold slt, String.ltb.
  destruct (String.compare a b) eqn:E1; try done.
  destruct (String.compare b c) eqn:E2; try done.
  by rewrite (string_compare_lt_trans _ _ _ E1 E2).
Qed.

Lemma slt_asym a b : slt a b -> ~ slt b a.
Proof. intros H1 H2. apply (slt_irrefl a). by eapply slt_trans. Qed.

(** The [else] branch of [if a < b ... elif a > b ...]: the keys are equal. *)
Lemma slt_total a b :
  String.ltb a b = false -> String.ltb b a = false -> a = b.
Proof.
  unfold String.ltb. rewrite (String.compare_antisym b a).
  destruct (String.compare a b) eqn:E; simpl; try done.
  intros _ _. by apply String.compare_eq_iff.
Qed.

Lemma slt_ne a b : slt a b -> a <> b.
Proof. intros H ->. by apply (slt_irrefl b). Qed.

Global Instance slt_dec a b : Decision (slt a b).
Proof. unfold slt. apply _. Defined.

(** ** The red-black tree *)

(** ** Paths and subtrees *)

Lemma inorder_plug C : forall t,
  inorder (plug C t) = cleft C ++ inorder t ++ cright C.
Proof.
  induction C as [|[p c k v r|p c l k v] C IH]; intros t; simpl.
  - by rewrite app_nil_r.
  - rewrite IH. simpl. by rewrite <- !app_assoc.
  - rewrite IH. simpl. by rewrite <- !app_assoc.
Qed.

Lemma size_plug1 f t : size (plug1 f t) > size t.
Proof. destruct f; simpl; lia. Qed.

Lemma size_plug C : forall t, length C + size t <= size (plug C t).
Proof.
  induction C as [|f C IH]; intros t; simpl; [lia|].
  specialize (IH (plug1 f t)). pose proof (size_plug1 f t). lia.
Qed.

Lemma croot_plug nil C : forall t,
  croot C (rootref nil t) = rootref nil (plug C t).
Proof.
  induction C as [|f C IH]; intros t; simpl; [done|].
  rewrite <- IH. by destruct f.
Qed.

(** ** Moving the focus *)

Lemma agree_plug1 objs nil C f t :
  agree objs nil (cpar C) (plug1 f t)
  /\ agree_ctx objs nil C (rootref nil (plug1 f t))
  <-> agree objs nil (cpar (f :: C)) t
      /\ agree_ctx objs nil (f :: C) (rootref nil t).
Proof. destruct f; simpl; tauto. Qed.

Lemma zrep_up T f C t : zrep T (f :: C) t <-> zrep T C (plug1 f t).
Proof.
  split; intros [Hn Hs Hc Hr Hk].
  - destruct (proj2 (agree_plug1 _ _ C f t) (conj Hs Hc)) as [Hs' Hc'].
    split; [done|done|done| |].
    + rewrite Hr. by destruct f.
    + destruct f; simpl in *; by rewrite <- ?app_assoc in *.
  - destruct (proj1 (agree_plug1 _ _ C f t) (conj Hs Hc)) as [Hs' Hc'].
    split; [done|done|done| |].
    + rewrite Hr. by destruct f.
    + destruct f; simpl in *; by rewrite <- ?app_assoc in *.
Qed.

Lemma zrep_plug T C : forall t, zrep T C t -> zrep T [] (plug C t).
Proof.
  induction C as [|f C IH]; intros t H; [done|].
  simpl. by apply IH, zrep_up.
Qed.

Lemma zrep_unplug T C : forall t, zrep T [] (plug C t) -> zrep T C t.
Proof.
  induction C as [|f C IH]; intros t H; [done|].
  simpl in H. by apply zrep_up, IH.
Qed.

(** ** Objects and keys *)

(** A write to an object whose key is not in [t] leaves [t] as it is. *)
Lemma agree_insert objs nil par t q n n' kq :
  objs !! q = Some n -> Node.key n = Some kq -> kq ∉ (inorder t).*1 ->
  agree objs nil par t -> agree (<[q := n']> objs) nil par t.
Proof.
  intros Hq Hk. revert par.
  induction t as [|p c l IHl k v r IHr]; intros par; simpl; [done|].
  rewrite fmap_app, fmap_cons. simpl. intros Hnin (Hp & Hl & Hr).
  split; [|split].
  - rewrite list_lookup_insert_ne; [done|]. intros ->.
    rewrite Hq in Hp. injection Hp as ->. simpl in Hk. set_solver.
  - apply IHl; [set_solver|done].
  - apply IHr; [set_solver|done].
Qed.

Lemma agree_ctx_insert objs nil C q n n' kq : forall hole,
  objs !! q = Some n -> Node.key n = Some kq ->
  kq ∉ (cleft C ++ cright C).*1 ->
  agree_ctx objs nil C hole -> agree_ctx (<[q := n']> objs) nil C hole.
Proof.
  intros hole Hq Hk. revert hole.
  induction C as [|[p c k v r|p c l k v] C IH]; intros hole; simpl; [done| |].
  - rewrite fmap_app, fmap_cons, fmap_app. simpl.
    intros Hnin (Hp & Hr & HC). split; [|split].
    + rewrite list_lookup_insert_ne; [done|]. intros ->.
      rewrite Hq in Hp. injection Hp as ->. simpl in Hk. set_solver.
    + eapply agree_insert; eauto. set_solver.
    + apply IH; [|done]. rewrite fmap_app. set_solver.
  - rewrite !fmap_app. simpl.
    intros Hnin (Hp & Hl & HC). split; [|split].
    + rewrite list_lookup_insert_ne; [done|]. intros ->.
      rewrite Hq in Hp. injection Hp as ->. simpl in Hk. set_solver.
    + eapply agree_insert; eauto. set_solver.
    + apply IH; [|done]. rewrite fmap_app. set_solver.
Qed.

(** Appending an object leaves every tree as it is. *)
Lemma agree_app objs nil par t n :
  agree objs nil par t -> agree (objs ++ [n]) nil par t.
Proof.
  revert par. induction t as [|p c l IHl k v r IHr]; intros par; simpl; [done|].
  intros (Hp & Hl & Hr). split; [|split]; auto.
  by apply lookup_app_l_Some.
Qed.

Lemma agree_ctx_app objs nil C n : forall hole,
  agree_ctx objs nil C hole -> agree_ctx (objs ++ [n]) nil C hole.
Proof.
  induction C as [|[p c k v r|p c l k v] C IH]; intros hole; simpl; [done| |];
    intros (Hp & Hr & HC); (split; [|split]);
    auto using agree_app, lookup_app_l_Some.
Qed.

(** Filling the hole with another reference. *)
Lemma agree_ctx_hole objs nil C hole hole' :
  match C with
  | [] => True
  | FL p c k v r :: C' =>
      objs !! p = Some (Node.mk (Some k) (Some v) (Some hole')
                          (Some (rootref nil r)) (cpar C') c)
  | FR p c l k v :: C' =>
      objs !! p = Some (Node.mk (Some k) (Some v) (Some (rootref nil l))
                          (Some hole') (cpar C') c)
  end ->
  agree_ctx objs nil C hole -> agree_ctx objs nil C hole'.
Proof. destruct C as [|[p c k v r|p c l k v] C]; simpl; tauto. Qed.

Lemma zrep_node T C p c l k v r :
  zrep T C (Nd p c l k v r) ->
  objs T !! p = Some (Node.mk (Some k) (Some v) (Some (rootref (NIL T) l))
                        (Some (rootref (NIL T) r)) (cpar C) c).
Proof. intros H. by destruct (z_sub _ _ _ H) as [? _]. Qed.

Lemma zrep_ne_nil T C p c l k v r :
  zrep T C (Nd p c l k v r) -> p <> NIL T.
Proof.
  intros H ->. pose proof (zrep_node _ _ _ _ _ _ _ _ H) as Hp.
  rewrite (z_nil _ _ _ H) in Hp. discriminate.
Qed.

(** ** Writes at the focus *)

Lemma NoDup_mid {A} (l1 l2 : list A) k : NoDup (l1 ++ k :: l2) -> k ∉ l1 ++ l2.
Proof. rewrite <- Permutation_middle, NoDup_cons. tauto. Qed.

(** The keys of the tree in one right-nested list. *)
Ltac norm_keys_in H :=
  repeat (progress (simpl in H;
                    rewrite ?fmap_app, ?fmap_cons, <- ?app_assoc, ?app_nil_r in H)).

Ltac norm_keys :=
  repeat (progress (simpl;
                    rewrite ?fmap_app, ?fmap_cons, <- ?app_assoc, ?app_nil_r)).

(** From [H : NoDup l], one fact [k ∉ rest] for every key [k] that [l]
    lists on its own. *)
Ltac key_facts_of H l1 l :=
  lazymatch l with
  | ?k :: ?r =>
      assert (k ∉ l1 ++ r)
        by (apply NoDup_mid; norm_keys; exact H);
      key_facts_of H (l1 ++ [k]) r
  | ?a ++ ?r => key_facts_of H (l1 ++ a) r
  | _ => idtac
  end.

Ltac key_facts H :=
  norm_keys_in H;
  lazymatch type of H with
  | NoDup ?l => key_facts_of H (@nil string) l
  end.

(** [k ∉ l], from the fact on [k] that [key_facts] left. *)
Ltac notin :=
  norm_keys;
  lazymatch goal with
  | |- ?k ∉ _ =>
      match goal with
      | H : k ∉ _ |- _ =>
          let Hin := fresh in intros Hin; apply H; clear -Hin; set_solver
      end
  end.

(** Two keys of the tree differ. *)
Ltac kne :=
  simpl;
  lazymatch goal with
  | |- Some ?k1 <> Some ?k2 =>
      match goal with
      | H : k1 ∉ _ |- _ =>
          let Heq := fresh in
          intros Heq; apply H; injection Heq as ->; clear; set_solver
      | H : k2 ∉ _ |- _ =>
          let Heq := fresh in
          intros Heq; apply H; injection Heq as <-; clear; set_solver
      end
  | |- _ => done
  end.

Lemma setattr_Some T p n upd :
  objs T !! p = Some n ->
  setattr T (Some p) upd = Some (mk (<[p := upd n]> (objs T)) (NIL T) (root T)).
Proof. intros H. unfold setattr. simpl. by rewrite H. Qed.

Lemma attr_Some {A} T p n (f : Node.t -> A) :
  objs T !! p = Some n -> attr T (Some p) f = Some (f n).
Proof. intros H. unfold attr. simpl. by rewrite H. Qed.

(** Overwriting the colour and the value of the node in focus. *)
Lemma zrep_setattr T C p c l k v r upd c' v' :
  (forall L R P, upd (Node.mk (Some k) (Some v) L R P c)
                 = Node.mk (Some k) (Some v') L R P c') ->
  zrep T C (Nd p c l k v r) ->
  exists T', setattr T (Some p) upd = Some T'
    /\ NIL T' = NIL T /\ root T' = root T
    /\ length (objs T') = length (objs T)
    /\ zrep T' C (Nd p c' l k v' r).
Proof.
  intros Hupd H.
  pose proof (zrep_node _ _ _ _ _ _ _ _ H) as Hp.
  pose proof (zrep_ne_nil _ _ _ _ _ _ _ _ H) as Hnil.
  destruct H as [Hn (_ & Hl & Hr) Hc Hroot Hk].
  eexists. split; [by apply setattr_Some|]. simpl.
  split; [done|]. split; [done|]. split; [by rewrite length_insert|].
  pose proof Hk as Hk0. key_facts Hk.
  split; simpl.
  - by rewrite list_lookup_insert_ne.
  - split; [|split].
    + rewrite list_lookup_insert_eq; [by rewrite Hupd|by eapply lookup_lt_Some].
    + eapply agree_insert; eauto; notin.
    + eapply agree_insert; eauto; notin.
  - eapply agree_ctx_insert; eauto; notin.
  - done.
  - norm_keys_in Hk0. norm_keys. exact Hk0.
Qed.

(** ** Rotations *)

(** Two objects with different keys are different objects. *)
Lemma ref_ne (objs : list Node.t) p q n1 n2 :
  objs !! p = Some n1 -> objs !! q = Some n2 ->
  Node.key n1 <> Node.key n2 -> p <> q.
Proof. intros H1 H2 Hne ->. congruence. Qed.

(** The object at the root of a subtree. *)
Lemma agree_root objs nil par t :
  agree objs nil par t -> objs !! nil = Some NILnode ->
  exists n, objs !! rootref nil t = Some n
    /\ match t with
       | Leaf => n = NILnode
       | Nd p c l k v r =>
           n = Node.mk (Some k) (Some v) (Some (rootref nil l))
                 (Some (rootref nil r)) par c
       end.
Proof. destruct t; simpl; [eauto|]. intros (? & _) _. eauto. Qed.

(** Reads through the writes already made. *)
Ltac lk :=
  repeat first
    [ rewrite list_lookup_insert_eq
        by (rewrite ?length_insert; eauto using lookup_lt_Some)
    | rewrite list_lookup_insert_ne by congruence ].

Ltac run :=
  repeat (cbn [attr setattr set_root mbind option_bind objs NIL root
               Node.key Node.value Node.left Node.right Node.parent Node.color
               Node.set_left Node.set_right Node.set_parent Node.set_color
               Node.set_value];
          lk;
          repeat match goal with
          | H : ?o !! ?p = Some _ |- context [?o !! ?p] => rewrite H
          end;
          try rewrite decide_True by congruence;
          try rewrite decide_False by congruence).

(** An untouched subtree or path is still there after the writes. *)
Ltac frame :=
  repeat first
    [ eassumption
    | eapply agree_insert;
        [ lk; first [eassumption | reflexivity]
        | reflexivity
        | notin
        | ]
    | eapply agree_ctx_insert;
        [ lk; first [eassumption | reflexivity]
        | reflexivity
        | notin
        | ] ].

Ltac same_keys Hk := norm_keys_in Hk; norm_keys; exact Hk.

Ltac finish Hk0 :=
  eexists; split; [reflexivity|]; cbn [objs NIL root];
  split; [done|]; split; [by rewrite !length_insert|];
  split; cbn [objs NIL root agree agree_ctx rootref cpar croot frame_ref];
  [ lk; done
  | repeat split; first [ by lk | by frame ]
  | repeat split; first [ by lk | by frame ]
  | done
  | same_keys Hk0 ].

Lemma rootref_ne (objs : list Node.t) nil par t x n kx :
  agree objs nil par t -> objs !! nil = Some NILnode ->
  objs !! x = Some n -> Node.key n = Some kx -> kx ∉ (inorder t).*1 ->
  rootref nil t <> x.
Proof.
  destruct t as [|p c l k v r]; simpl.
  - intros _ Hn Hx Hk _ ->. by simplify_eq/=.
  - intros (Hp & _) _ Hx Hk Hnin ->. simplify_eq/=.
    rewrite fmap_app, fmap_cons in Hnin. set_solver.
Qed.

Ltac ne := eapply ref_ne; [eassumption|eassumption|kne].
Ltac rne := eapply rootref_ne; [eassumption|eassumption|eassumption
                               |reflexivity|notin].

Lemma left_rotate_spec T C x cx a kx vx y cy b ky vy c :
  zrep T C (Nd x cx a kx vx (Nd y cy b ky vy c)) ->
  exists T', _left_rotate T (Some x) = Some T'
    /\ NIL T' = NIL T /\ length (objs T') = length (objs T)
    /\ zrep T' C (Nd y cy (Nd x cx a kx vx b) ky vy c).
Proof.
  intros [Hn (Hx & Ha & Hy & Hb & Hc) HC Hroot Hk].
  destruct T as [o nil rt]. simpl in *.
  pose proof Hk as Hk0.
  unfold _left_rotate.
  destruct b as [|pb cb bl kb vb br]; simpl in *.
  - destruct C as [|[P cp kp vp s|P cp s kp vp] C]; simpl in *.
    + key_facts Hk.
      assert (x <> y) as Hxy by ne. assert (x <> nil) as Hxn by ne.
      assert (y <> nil) as Hyn by ne.
      run. finish Hk0.
    + destruct HC as (HP & Hs & HC). key_facts Hk.
      assert (x <> y) as Hxy by ne. assert (x <> nil) as Hxn by ne.
      assert (y <> nil) as Hyn by ne.
      assert (P <> x) by ne. assert (P <> y) by ne. assert (P <> nil) by ne.
      run. finish Hk0.
    + destruct HC as (HP & Hs & HC). key_facts Hk.
      assert (x <> y) as Hxy by ne. assert (x <> nil) as Hxn by ne.
      assert (y <> nil) as Hyn by ne.
      assert (P <> x) by ne. assert (P <> y) by ne. assert (P <> nil) by ne.
      assert (rootref nil s <> x) by rne.
      run. finish Hk0.
  - destruct Hb as (Hpb & Hbl & Hbr).
    destruct C as [|[P cp kp vp s|P cp s kp vp] C]; simpl in *.
    + key_facts Hk.
      assert (x <> y) as Hxy by ne. assert (x <> nil) as Hxn by ne.
      assert (y <> nil) as Hyn by ne.
      assert (pb <> x) by ne. assert (pb <> y) by ne. assert (pb <> nil) by ne.
      run. finish Hk0.
    + destruct HC as (HP & Hs & HC). key_facts Hk.
      assert (x <> y) as Hxy by ne. assert (x <> nil) as Hxn by ne.
      assert (y <> nil) as Hyn by ne.
      assert (pb <> x) by ne. assert (pb <> y) by ne. assert (pb <> nil) by ne.
      assert (P <> x) by ne. assert (P <> y) by ne. assert (P <> nil) by ne.
      assert (P <> pb) by ne.
      run. finish Hk0.
    + destruct HC as (HP & Hs & HC). key_facts Hk.
      assert (x <> y) as Hxy by ne. assert (x <> nil) as Hxn by ne.
      assert (y <> nil) as Hyn by ne.
      assert (pb <> x) by ne. assert (pb <> y) by ne. assert (pb <> nil) by ne.
      assert (P <> x) by ne. assert (P <> y) by ne. assert (P <> nil) by ne.
      assert (P <> pb) by ne.
      assert (rootref nil s <> x) by rne.
      run. finish Hk0.
Qed.

Lemma right_rotate_spec T C x cx a kx vx y cy b ky vy c :
  zrep T C (Nd x cx (Nd y cy a ky vy b) kx vx c) ->
  exists T', _right_rotate T (Some x) = Some T'
    /\ NIL T' = NIL T /\ length (objs T') = length (objs T)
    /\ zrep T' C (Nd y cy a ky vy (Nd x cx b kx vx c)).
Proof.
  intros [Hn (Hx & (Hy & Ha & Hb) & Hc) HC Hroot Hk].
  destruct T as [o nil rt]. simpl in *.
  pose proof Hk as Hk0.
  unfold _right_rotate.
  destruct b as [|pb cb bl kb vb br]; simpl in *.
  - destruct C as [|[P cp kp vp s|P cp s kp vp] C]; simpl in *.
    + key_facts Hk.
      assert (x <> y) as Hxy by ne. assert (x <> nil) as Hxn by ne.
      assert (y <> nil) as Hyn by ne.
      run. finish Hk0.
    + destruct HC as (HP & Hs & HC). key_facts Hk.
      assert (x <> y) as Hxy by ne. assert (x <> nil) as Hxn by ne.
      assert (y <> nil) as Hyn by ne.
      assert (P <> x) by ne. assert (P <> y) by ne. assert (P <> nil) by ne.
      assert (rootref nil s <> x) by rne.
      run. finish Hk0.
    + destruct HC as (HP & Hs & HC). key_facts Hk.
      assert (x <> y) as Hxy by ne. assert (x <> nil) as Hxn by ne.
      assert (y <> nil) as Hyn by ne.
      assert (P <> x) by ne. assert (P <> y) by ne. assert (P <> nil) by ne.
      run. finish Hk0.
  - destruct Hb as (Hpb & Hbl & Hbr).
    destruct C as [|[P cp kp vp s|P cp s kp vp] C]; simpl in *.
    + key_facts Hk.
      assert (x <> y) as Hxy by ne. assert (x <> nil) as Hxn by ne.
      assert (y <> nil) as Hyn by ne.
      assert (pb <> x) by ne. assert (pb <> y) by ne. assert (pb <> nil) by ne.
      run. finish Hk0.
    + destruct HC as (HP & Hs & HC). key_facts Hk.
      assert (x <> y) as Hxy by ne. assert (x <> nil) as Hxn by ne.
      assert (y <> nil) as Hyn by ne.
      assert (pb <> x) by ne. assert (pb <> y) by ne. assert (pb <> nil) by ne.
      assert (P <> x) by ne. assert (P <> y) by ne. assert (P <> nil) by ne.
      assert (P <> pb) by ne.
      assert (rootref nil s <> x) by rne.
      run. finish Hk0.
    + destruct HC as (HP & Hs & HC). key_facts Hk.
      assert (x <> y) as Hxy by ne. assert (x <> nil) as Hxn by ne.
      assert (y <> nil) as Hyn by ne.
      assert (pb <> x) by ne. assert (pb <> y) by ne. assert (pb <> nil) by ne.
      assert (P <> x) by ne. assert (P <> y) by ne. assert (P <> nil) by ne.
      assert (P <> pb) by ne.
      run. finish Hk0.
Qed.

(** ** Reading around the focus *)

Lemma zrep_attr {A} T C p c l k v r (f : Node.t -> A) :
  zrep T C (Nd p c l k v r) ->
  attr T (Some p) f
  = Some (f (Node.mk (Some k) (Some v) (Some (rootref (NIL T) l))
               (Some (rootref (NIL T) r)) (cpar C) c)).
Proof. intros H. apply attr_Some. by apply zrep_node. Qed.

Lemma zrep_down_l T C p c l k v r :
  zrep T C (Nd p c l k v r) -> zrep T (FL p c k v r :: C) l.
Proof. intros H. by apply (zrep_up T (FL p c k v r) C l). Qed.

Lemma zrep_down_r T C p c l k v r :
  zrep T C (Nd p c l k v r) -> zrep T (FR p c l k v :: C) r.
Proof. intros H. by apply (zrep_up T (FR p c l k v) C r). Qed.

Lemma zrep_up_l T C p c l k v r :
  zrep T (FL p c k v r :: C) l -> zrep T C (Nd p c l k v r).
Proof. intros H. by apply (zrep_up T (FL p c k v r) C l). Qed.

Lemma zrep_up_r T C p c l k v r :
  zrep T (FR p c l k v :: C) r -> zrep T C (Nd p c l k v r).
Proof. intros H. by apply (zrep_up T (FR p c l k v) C r). Qed.

(** The colour of the root of the subtree in focus, NIL included. *)
Lemma zrep_color T C t :
  zrep T C t ->
  attr T (Some (rootref (NIL T) t)) Node.color = Some (color_of t).
Proof.
  intros H. destruct t as [|p c l k v r]; cbn [rootref color_of].
  - by rewrite (attr_Some _ _ _ _ (z_nil _ _ _ H)).
  - by rewrite (zrep_attr _ _ _ _ _ _ _ _ _ H).
Qed.

(** A node below the root is not the root. *)
Lemma zrep_not_root T f C p c l k v r :
  zrep T (f :: C) (Nd p c l k v r) -> p <> root T.
Proof.
  intros H Heq.
  pose proof (zrep_node _ _ _ _ _ _ _ _ H) as Hp.
  apply zrep_plug in H. rewrite Heq in Hp. simpl in H.
  pose proof (z_root _ _ _ H) as Hr. simpl in Hr.
  destruct (plug C (plug1 f (Nd p c l k v r))) as [|q ? ? ? ? ?] eqn:E.
  - pose proof (size_plug C (plug1 f (Nd p c l k v r))) as Hs.
    pose proof (size_plug1 f (Nd p c l k v r)). rewrite E in Hs. simpl in *. lia.
  - pose proof (zrep_node _ _ _ _ _ _ _ _ H) as Hq.
    simpl in Hr. rewrite <- Hr in Hq. rewrite Hq in Hp. by destruct f.
Qed.

Lemma set_color_paint k v L R P c c' :
  Node.set_color c' (Node.mk (Some k) (Some v) L R P c)
  = Node.mk (Some k) (Some v) L R P c'.
Proof. done. Qed.

(** [p.color = c'] on the node in focus. *)
Lemma zrep_set_color T C p c l k v r c' :
  zrep T C (Nd p c l k v r) ->
  exists T', setattr T (Some p) (Node.set_color c') = Some T'
    /\ NIL T' = NIL T /\ root T' = root T
    /\ length (objs T') = length (objs T)
    /\ zrep T' C (Nd p c' l k v r).
Proof. apply zrep_setattr. intros. apply set_color_paint. Qed.

(** [p.value = v'] on the node in focus. *)
Lemma zrep_set_value T C p c l k v r v' :
  zrep T C (Nd p c l k v r) ->
  exists T', setattr T (Some p) (Node.set_value (Some v')) = Some T'
    /\ NIL T' = NIL T /\ root T' = root T
    /\ length (objs T') = length (objs T)
    /\ zrep T' C (Nd p c l k v' r).
Proof. apply zrep_setattr. done. Qed.

(** ** One pass of the loop of [_fix_insert] *)

Ltac red1 :=
  cbn [mbind option_bind Node.parent Node.left Node.right Node.color
       Node.key Node.value cpar frame_ref rootref fst snd color_of].

(** Reads an attribute of the node in focus of [H]. *)
Ltac rd H f := rewrite (zrep_attr _ _ _ _ _ _ _ _ f H); red1.

(** Performs the write [o.color = c] on the node in focus of [H]. *)
Lemma fix_body_red_right T f G cg u ul ku vu ur kg vg C2 k ck l kk vk r :
  let U := Nd u true ul ku vu ur in
  let t := Nd k ck l kk vk r in
  zrep T (f :: FR G cg U kg vg :: C2) t ->
  exists T', fix_body T (Some k) = Some (T', Some G)
    /\ NIL T' = NIL T /\ root T' = root T
    /\ length (objs T') = length (objs T)
    /\ zrep T' C2 (Nd G true (paint false U) kg vg (paint false (plug1 f t))).
Proof.
  intros U t H. subst U t.
  pose proof (proj1 (zrep_up _ _ _ _) H) as HP.
  pose proof (proj1 (zrep_up _ _ _ _) HP) as HG.
  pose proof (zrep_down_l _ _ _ _ _ _ _ _ HG) as HU.
  unfold fix_body.
  rd H Node.parent.
  destruct f as [P cp kp vp s|P cp s kp vp]; cbn [plug1 frame_ref] in *.
  - rd HP Node.parent. rd HG Node.right. rewrite decide_True by done.
    rd HG Node.left. rd HU Node.color.
    destruct (zrep_set_color _ _ _ _ _ _ _ _ false HU)
      as (T1 & -> & En1 & Er1 & El1 & HU1). red1.
    pose proof (zrep_down_r _ _ _ _ _ _ _ _ (zrep_up_l _ _ _ _ _ _ _ _ HU1)) as HP1.
    pose proof (zrep_down_l _ _ _ _ _ _ _ _ HP1) as H1.
    rd H1 Node.parent.
    destruct (zrep_set_color _ _ _ _ _ _ _ _ false HP1)
      as (T2 & -> & En2 & Er2 & El2 & HP2). red1.
    pose proof (zrep_down_l _ _ _ _ _ _ _ _ HP2) as H2.
    pose proof (zrep_up_r _ _ _ _ _ _ _ _ HP2) as HG2.
    rd H2 Node.parent. rd HP2 Node.parent.
    destruct (zrep_set_color _ _ _ _ _ _ _ _ true HG2)
      as (T3 & -> & En3 & Er3 & El3 & HG3). red1.
    pose proof (zrep_down_r _ _ _ _ _ _ _ _ HG3) as HP3.
    pose proof (zrep_down_l _ _ _ _ _ _ _ _ HP3) as H3.
    rd H3 Node.parent. rd HP3 Node.parent.
    exists T3. split; [done|]. rewrite El3, El2, El1, En3, En2, En1, Er3, Er2, Er1.
    done.
  - rd HP Node.parent. rd HG Node.right. rewrite decide_True by done.
    rd HG Node.left. rd HU Node.color.
    destruct (zrep_set_color _ _ _ _ _ _ _ _ false HU)
      as (T1 & -> & En1 & Er1 & El1 & HU1). red1.
    pose proof (zrep_down_r _ _ _ _ _ _ _ _ (zrep_up_l _ _ _ _ _ _ _ _ HU1)) as HP1.
    pose proof (zrep_down_r _ _ _ _ _ _ _ _ HP1) as H1.
    rd H1 Node.parent.
    destruct (zrep_set_color _ _ _ _ _ _ _ _ false HP1)
      as (T2 & -> & En2 & Er2 & El2 & HP2). red1.
    pose proof (zrep_down_r _ _ _ _ _ _ _ _ HP2) as H2.
    pose proof (zrep_up_r _ _ _ _ _ _ _ _ HP2) as HG2.
    rd H2 Node.parent. rd HP2 Node.parent.
    destruct (zrep_set_color _ _ _ _ _ _ _ _ true HG2)
      as (T3 & -> & En3 & Er3 & El3 & HG3). red1.
    pose proof (zrep_down_r _ _ _ _ _ _ _ _ HG3) as HP3.
    pose proof (zrep_down_r _ _ _ _ _ _ _ _ HP3) as H3.
    rd H3 Node.parent. rd HP3 Node.parent.
    exists T3. split; [done|]. rewrite El3, El2, El1, En3, En2, En1, Er3, Er2, Er1.
    done.
Qed.

(** The two children of a node are different objects, unless both are
    NIL. *)
Lemma zrep_children_ne T C p c l k v r :
  zrep T C (Nd p c l k v r) -> l <> Leaf \/ r <> Leaf ->
  rootref (NIL T) l <> rootref (NIL T) r.
Proof.
  intros H Hne.
  pose proof (zrep_down_l _ _ _ _ _ _ _ _ H) as Hl.
  pose proof (zrep_down_r _ _ _ _ _ _ _ _ H) as Hr.
  destruct l as [|pl cl ll kl vl rl], r as [|pr cr lr kr vr rr];
    cbn [rootref].
  - by destruct Hne.
  - intros Heq. by apply (zrep_ne_nil _ _ _ _ _ _ _ _ Hr).
  - by apply (zrep_ne_nil _ _ _ _ _ _ _ _ Hl).
  - pose proof (zrep_node _ _ _ _ _ _ _ _ Hl) as Hpl.
    pose proof (zrep_node _ _ _ _ _ _ _ _ Hr) as Hpr.
    pose proof (z_keys _ _ _ H) as Hk. key_facts Hk.
    eapply ref_ne; [exact Hpl|exact Hpr|kne].
Qed.

Lemma fix_body_black_right_line T P cp s kp vp G cg U kg vg C2 k ck l kk vk r :
  let f := FR P cp s kp vp in
  let t := Nd k ck l kk vk r in
  zrep T (f :: FR G cg U kg vg :: C2) t ->
  color_of U = false ->
  exists T', fix_body T (Some k) = Some (T', Some k)
    /\ NIL T' = NIL T /\ length (objs T') = length (objs T)
    /\ zrep T' C2 (lrot (Nd G true U kg vg (paint false (plug1 f t)))).
Proof.
  intros f t H HcU. subst f t.
  pose proof (proj1 (zrep_up _ _ _ _) H) as HP.
  pose proof (proj1 (zrep_up _ _ _ _) HP) as HG.
  pose proof (zrep_down_l _ _ _ _ _ _ _ _ HG) as HU.
  cbn [plug1] in *.
  unfold fix_body.
  rd H Node.parent. rd HP Node.parent. rd HG Node.right.
  rewrite decide_True by done.
  rd HG Node.left. rewrite (zrep_color _ _ _ HU), HcU. red1.
  rd HP Node.left.
  rewrite decide_False
    by (intros [= Heq]; symmetry in Heq; revert Heq;
        apply (zrep_children_ne _ _ _ _ _ _ _ _ HP); by right).
  red1. rd H Node.parent.
  destruct (zrep_set_color _ _ _ _ _ _ _ _ false HP)
    as (T1 & -> & En1 & Er1 & El1 & HP1). red1.
  pose proof (zrep_down_r _ _ _ _ _ _ _ _ HP1) as H1.
  pose proof (zrep_up_r _ _ _ _ _ _ _ _ HP1) as HG1.
  rd H1 Node.parent. rd HP1 Node.parent.
  destruct (zrep_set_color _ _ _ _ _ _ _ _ true HG1)
    as (T2 & -> & En2 & Er2 & El2 & HG2). red1.
  pose proof (zrep_down_r _ _ _ _ _ _ _ _ HG2) as HP2.
  pose proof (zrep_down_r _ _ _ _ _ _ _ _ HP2) as H2.
  rd H2 Node.parent. rd HP2 Node.parent.
  destruct (left_rotate_spec _ _ _ _ _ _ _ _ _ _ _ _ _ HG2)
    as (T3 & -> & En3 & El3 & HG3). red1.
  exists T3. split; [done|]. rewrite El3, El2, El1, En3, En2, En1.
  done.
Qed.

Lemma fix_body_black_right_triangle T P cp s kp vp G cg U kg vg C2
    k ck l kk vk r :
  let f := FL P cp kp vp s in
  let t := Nd k ck l kk vk r in
  zrep T (f :: FR G cg U kg vg :: C2) t ->
  color_of U = false ->
  exists T', fix_body T (Some k) = Some (T', Some P)
    /\ NIL T' = NIL T /\ length (objs T') = length (objs T)
    /\ zrep T' C2 (lrot (Nd G true U kg vg (paint false (rrot (plug1 f t))))).
Proof.
  intros f t H HcU. subst f t.
  pose proof (proj1 (zrep_up _ _ _ _) H) as HP.
  pose proof (proj1 (zrep_up _ _ _ _) HP) as HG.
  pose proof (zrep_down_l _ _ _ _ _ _ _ _ HG) as HU.
  cbn [plug1] in *.
  unfold fix_body.
  rd H Node.parent. rd HP Node.parent. rd HG Node.right.
  rewrite decide_True by done.
  rd HG Node.left. rewrite (zrep_color _ _ _ HU), HcU. red1.
  rd HP Node.left.
  rewrite decide_True by done.
  destruct (right_rotate_spec _ _ _ _ _ _ _ _ _ _ _ _ _ HP)
    as (T1 & -> & En1 & El1 & HK1). red1.
  pose proof (zrep_down_r _ _ _ _ _ _ _ _ HK1) as HP1.
  rd HP1 Node.parent.
  destruct (zrep_set_color _ _ _ _ _ _ _ _ false HK1)
    as (T2 & -> & En2 & Er2 & El2 & HK2). red1.
  pose proof (zrep_down_r _ _ _ _ _ _ _ _ HK2) as HP2.
  pose proof (zrep_up_r _ _ _ _ _ _ _ _ HK2) as HG2.
  rd HP2 Node.parent. rd HK2 Node.parent.
  destruct (zrep_set_color _ _ _ _ _ _ _ _ true HG2)
    as (T3 & -> & En3 & Er3 & El3 & HG3). red1.
  pose proof (zrep_down_r _ _ _ _ _ _ _ _ HG3) as HK3.
  pose proof (zrep_down_r _ _ _ _ _ _ _ _ HK3) as HP3.
  rd HP3 Node.parent. rd HK3 Node.parent.
  destruct (left_rotate_spec _ _ _ _ _ _ _ _ _ _ _ _ _ HG3)
    as (T4 & -> & En4 & El4 & HG4). red1.
  exists T4. split; [done|]. rewrite El4, El3, El2, El1, En4, En3, En2, En1.
  done.
Qed.

Lemma fix_body_red_left T f G cg u ul ku vu ur kg vg C2 k ck l kk vk r :
  let U := Nd u true ul ku vu ur in
  let t := Nd k ck l kk vk r in
  zrep T (f :: FL G cg kg vg U :: C2) t ->
  exists T', fix_body T (Some k) = Some (T', Some G)
    /\ NIL T' = NIL T /\ root T' = root T
    /\ length (objs T') = length (objs T)
    /\ zrep T' C2 (Nd G true (paint false (plug1 f t)) kg vg (paint false U)).
Proof.
  intros U t H. subst U t.
  pose proof (proj1 (zrep_up _ _ _ _) H) as HP.
  pose proof (proj1 (zrep_up _ _ _ _) HP) as HG.
  pose proof (zrep_down_r _ _ _ _ _ _ _ _ HG) as HU.
  unfold fix_body.
  rd H Node.parent.
  destruct f as [P cp kp vp s|P cp s kp vp]; cbn [plug1 frame_ref] in *.
  - rd HP Node.parent. rd HG Node.right.
    rewrite decide_False
      by (intros [= Heq]; revert Heq;
          apply (zrep_children_ne _ _ _ _ _ _ _ _ HG); by right).
    rd HU Node.color.
    destruct (zrep_set_color _ _ _ _ _ _ _ _ false HU)
      as (T1 & -> & En1 & Er1 & El1 & HU1). red1.
    pose proof (zrep_down_l _ _ _ _ _ _ _ _ (zrep_up_r _ _ _ _ _ _ _ _ HU1)) as HP1.
    pose proof (zrep_down_l _ _ _ _ _ _ _ _ HP1) as H1.
    rd H1 Node.parent.
    destruct (zrep_set_color _ _ _ _ _ _ _ _ false HP1)
      as (T2 & -> & En2 & Er2 & El2 & HP2). red1.
    pose proof (zrep_down_l _ _ _ _ _ _ _ _ HP2) as H2.
    pose proof (zrep_up_l _ _ _ _ _ _ _ _ HP2) as HG2.
    rd H2 Node.parent. rd HP2 Node.parent.
    destruct (zrep_set_color _ _ _ _ _ _ _ _ true HG2)
      as (T3 & -> & En3 & Er3 & El3 & HG3). red1.
    pose proof (zrep_down_l _ _ _ _ _ _ _ _ HG3) as HP3.
    pose proof (zrep_down_l _ _ _ _ _ _ _ _ HP3) as H3.
    rd H3 Node.parent. rd HP3 Node.parent.
    exists T3. split; [done|]. rewrite El3, El2, El1, En3, En2, En1, Er3, Er2, Er1.
    done.
  - rd HP Node.parent. rd HG Node.right.
    rewrite decide_False
      by (intros [= Heq]; revert Heq;
          apply (zrep_children_ne _ _ _ _ _ _ _ _ HG); by right).
    rd HU Node.color.
    destruct (zrep_set_color _ _ _ _ _ _ _ _ false HU)
      as (T1 & -> & En1 & Er1 & El1 & HU1). red1.
    pose proof (zrep_down_l _ _ _ _ _ _ _ _ (zrep_up_r _ _ _ _ _ _ _ _ HU1)) as HP1.
    pose proof (zrep_down_r _ _ _ _ _ _ _ _ HP1) as H1.
    rd H1 Node.parent.
    destruct (zrep_set_color _ _ _ _ _ _ _ _ false HP1)
      as (T2 & -> & En2 & Er2 & El2 & HP2). red1.
    pose proof (zrep_down_r _ _ _ _ _ _ _ _ HP2) as H2.
    pose proof (zrep_up_l _ _ _ _ _ _ _ _ HP2) as HG2.
    rd H2 Node.parent. rd HP2 Node.parent.
    destruct (zrep_set_color _ _ _ _ _ _ _ _ true HG2)
      as (T3 & -> & En3 & Er3 & El3 & HG3). red1.
    pose proof (zrep_down_l _ _ _ _ _ _ _ _ HG3) as HP3.
    pose proof (zrep_down_r _ _ _ _ _ _ _ _ HP3) as H3.
    rd H3 Node.parent. rd HP3 Node.parent.
    exists T3. split; [done|]. rewrite El3, El2, El1, En3, En2, En1, Er3, Er2, Er1.
    done.
Qed.

Lemma fix_body_black_left_line T P cp s kp vp G cg U kg vg C2 k ck l kk vk r :
  let f := FL P cp kp vp s in
  let t := Nd k ck l kk vk r in
  zrep T (f :: FL G cg kg vg U :: C2) t ->
  color_of U = false ->
  exists T', fix_body T (Some k) = Some (T', Some k)
    /\ NIL T' = NIL T /\ length (objs T') = length (objs T)
    /\ zrep T' C2 (rrot (Nd G true (paint false (plug1 f t)) kg vg U)).
Proof.
  intros f t H HcU. subst f t.
  pose proof (proj1 (zrep_up _ _ _ _) H) as HP.
  pose proof (proj1 (zrep_up _ _ _ _) HP) as HG.
  pose proof (zrep_down_r _ _ _ _ _ _ _ _ HG) as HU.
  cbn [plug1] in *.
  unfold fix_body.
  rd H Node.parent. rd HP Node.parent. rd HG Node.right.
  rewrite decide_False
    by (intros [= Heq]; revert Heq;
        apply (zrep_children_ne _ _ _ _ _ _ _ _ HG); by left).
  rewrite (zrep_color _ _ _ HU), HcU. red1.
  rd HP Node.right.
  rewrite decide_False
    by (intros [= Heq]; revert Heq;
        apply (zrep_children_ne _ _ _ _ _ _ _ _ HP); by left).
  red1. rd H Node.parent.
  destruct (zrep_set_color _ _ _ _ _ _ _ _ false HP)
    as (T1 & -> & En1 & Er1 & El1 & HP1). red1.
  pose proof (zrep_down_l _ _ _ _ _ _ _ _ HP1) as H1.
  pose proof (zrep_up_l _ _ _ _ _ _ _ _ HP1) as HG1.
  rd H1 Node.parent. rd HP1 Node.parent.
  destruct (zrep_set_color _ _ _ _ _ _ _ _ true HG1)
    as (T2 & -> & En2 & Er2 & El2 & HG2). red1.
  pose proof (zrep_down_l _ _ _ _ _ _ _ _ HG2) as HP2.
  pose proof (zrep_down_l _ _ _ _ _ _ _ _ HP2) as H2.
  rd H2 Node.parent. rd HP2 Node.parent.
  destruct (right_rotate_spec _ _ _ _ _ _ _ _ _ _ _ _ _ HG2)
    as (T3 & -> & En3 & El3 & HG3). red1.
  exists T3. split; [done|]. rewrite El3, El2, El1, En3, En2, En1.
  done.
Qed.

Lemma fix_body_black_left_triangle T P cp s kp vp G cg U kg vg C2
    k ck l kk vk r :
  let f := FR P cp s kp vp in
  let t := Nd k ck l kk vk r in
  zrep T (f :: FL G cg kg vg U :: C2) t ->
  color_of U = false ->
  exists T', fix_body T (Some k) = Some (T', Some P)
    /\ NIL T' = NIL T /\ length (objs T') = length (objs T)
    /\ zrep T' C2 (rrot (Nd G true (paint false (lrot (plug1 f t))) kg vg U)).
Proof.
  intros f t H HcU. subst f t.
  pose proof (proj1 (zrep_up _ _ _ _) H) as HP.
  pose proof (proj1 (zrep_up _ _ _ _) HP) as HG.
  pose proof (zrep_down_r _ _ _ _ _ _ _ _ HG) as HU.
  cbn [plug1] in *.
  unfold fix_body.
  rd H Node.parent. rd HP Node.parent. rd HG Node.right.
  rewrite decide_False
    by (intros [= Heq]; revert Heq;
        apply (zrep_children_ne _ _ _ _ _ _ _ _ HG); by left).
  rewrite (zrep_color _ _ _ HU), HcU. red1.
  rd HP Node.right.
  rewrite decide_True by done.
  destruct (left_rotate_spec _ _ _ _ _ _ _ _ _ _ _ _ _ HP)
    as (T1 & -> & En1 & El1 & HK1). red1.
  pose proof (zrep_down_l _ _ _ _ _ _ _ _ HK1) as HP1.
  rd HP1 Node.parent.
  destruct (zrep_set_color _ _ _ _ _ _ _ _ false HK1)
    as (T2 & -> & En2 & Er2 & El2 & HK2). red1.
  pose proof (zrep_down_l _ _ _ _ _ _ _ _ HK2) as HP2.
  pose proof (zrep_up_l _ _ _ _ _ _ _ _ HK2) as HG2.
  rd HP2 Node.parent. rd HK2 Node.parent.
  destruct (zrep_set_color _ _ _ _ _ _ _ _ true HG2)
    as (T3 & -> & En3 & Er3 & El3 & HG3). red1.
  pose proof (zrep_down_l _ _ _ _ _ _ _ _ HG3) as HK3.
  pose proof (zrep_down_l _ _ _ _ _ _ _ _ HK3) as HP3.
  rd HP3 Node.parent. rd HK3 Node.parent.
  destruct (right_rotate_spec _ _ _ _ _ _ _ _ _ _ _ _ _ HG3)
    as (T4 & -> & En4 & El4 & HG4). red1.
  exists T4. split; [done|]. rewrite El4, El3, El2, El1, En4, En3, En2, En1.
  done.
Qed.

(** ** The loop of [_fix_insert] *)

Lemma root_black_tail f g C : root_black (f :: g :: C) -> root_black (g :: C).
Proof. done. Qed.

(** Below a black parent the loop stops at once. *)
Lemma fix_loop_exit fuel T f C p c l k v r :
  zrep T (f :: C) (Nd p c l k v r) -> frame_color f = false ->
  fix_loop (S fuel) T (Some p) = Some T.
Proof.
  intros H Hf. cbn [fix_loop].
  rewrite decide_False
    by (intros [= Heq]; by apply (zrep_not_root _ _ _ _ _ _ _ _ _ H)).
  rd H Node.parent.
  pose proof (proj1 (zrep_up _ _ _ _) H) as HP.
  destruct f; cbn [plug1 frame_ref frame_color] in *; rd HP Node.color;
    by rewrite Hf.
Qed.

Lemma fix_loop_sim fuel : forall T C p c l k v r,
  zrep T C (Nd p c l k v r) -> root_black C -> length C < fuel ->
  exists T', fix_loop fuel T (Some p) = Some T'
    /\ NIL T' = NIL T /\ length (objs T') = length (objs T)
    /\ zrep T' [] (fix_up C (Nd p c l k v r)).
Proof.
  induction fuel as [|fuel IH]; intros T C p c l k v r H Hrb Hlen; [lia|].
  destruct C as [|f [|g C2]].
  - (* the node is the root *)
    exists T. cbn [fix_loop]. rewrite (z_root _ _ _ H). cbn [croot rootref].
    by rewrite decide_True.
  - (* its parent is the root, which is black *)
    exists T. rewrite (fix_loop_exit _ _ _ _ _ _ _ _ _ _ H Hrb).
    split; [done|]. split; [done|]. split; [done|].
    cbn [fix_up]. by apply zrep_plug.
  - destruct (frame_color f) eqn:Hf.
    2:{ exists T. rewrite (fix_loop_exit _ _ _ _ _ _ _ _ _ _ H Hf).
        split; [done|]. split; [done|]. split; [done|].
        cbn [fix_up]. rewrite Hf. by apply zrep_plug. }
    cbn [fix_loop].
    rewrite decide_False
      by (intros [= Heq]; by apply (zrep_not_root _ _ _ _ _ _ _ _ _ H)).
    rd H Node.parent.
    pose proof (proj1 (zrep_up _ _ _ _) H) as HP.
    assert (attr T (Some (frame_ref f)) Node.color = Some true) as ->.
    { destruct f; cbn [plug1 frame_ref frame_color] in *; rd HP Node.color;
        by rewrite Hf. }
    red1. cbn [fix_up]. rewrite Hf. simpl in Hlen.
    apply root_black_tail in Hrb.
    destruct g as [G cg kg vg U|G cg U kg vg].
    + (* the parent is a left child *)
      destruct (color_of U) eqn:HcU.
      * destruct U as [|u cu ul ku vu ur]; [done|]. simpl in HcU. subst cu.
        destruct (fix_body_red_left _ _ _ _ _ _ _ _ _ _ _ _ _ _ _ _ _ _ H)
          as (T1 & -> & En1 & Er1 & El1 & H1). red1.
        destruct C2 as [|f2 C3].
        -- exists T1. rewrite (z_root _ _ _ H1). cbn [croot rootref].
           by rewrite decide_True.
        -- rewrite decide_False
             by (intros [= Heq]; by apply (zrep_not_root _ _ _ _ _ _ _ _ _ H1)).
           destruct (IH T1 (f2 :: C3) _ _ _ _ _ _ H1) as (T2 & -> & En2 & El2 & H2).
           { done. }
           { simpl in *. lia. }
           exists T2. by rewrite En2, El2.
      * destruct f as [P cp kp vp s|P cp s kp vp].
        -- destruct (fix_body_black_left_line _ _ _ _ _ _ _ _ _ _ _ _ _ _ _ _ _ _
                       H HcU) as (T1 & -> & En1 & El1 & H1). red1.
           cbn [plug1 paint rrot] in H1.
           pose proof (zrep_down_l _ _ _ _ _ _ _ _ H1) as Hk.
           rewrite decide_False
             by (intros [= Heq]; by apply (zrep_not_root _ _ _ _ _ _ _ _ _ Hk)).
           destruct fuel as [|fuel]; [lia|].
           rewrite (fix_loop_exit _ _ _ _ _ _ _ _ _ _ Hk eq_refl).
           exists T1. split; [done|]. split; [done|]. split; [done|].
           by apply zrep_plug.
        -- destruct (fix_body_black_left_triangle _ _ _ _ _ _ _ _ _ _ _ _ _ _ _
                       _ _ _ H HcU) as (T1 & -> & En1 & El1 & H1). red1.
           cbn [plug1 paint rrot lrot] in H1.
           pose proof (zrep_down_l _ _ _ _ _ _ _ _ H1) as Hk.
           rewrite decide_False
             by (intros [= Heq]; by apply (zrep_not_root _ _ _ _ _ _ _ _ _ Hk)).
           destruct fuel as [|fuel]; [lia|].
           rewrite (fix_loop_exit _ _ _ _ _ _ _ _ _ _ Hk eq_refl).
           exists T1. split; [done|]. split; [done|]. split; [done|].
           by apply zrep_plug.
    + (* the parent is a right child *)
      destruct (color_of U) eqn:HcU.
      * destruct U as [|u cu ul ku vu ur]; [done|]. simpl in HcU. subst cu.
        destruct (fix_body_red_right _ _ _ _ _ _ _ _ _ _ _ _ _ _ _ _ _ _ H)
          as (T1 & -> & En1 & Er1 & El1 & H1). red1.
        destruct C2 as [|f2 C3].
        -- exists T1. rewrite (z_root _ _ _ H1). cbn [croot rootref].
           by rewrite decide_True.
        -- rewrite decide_False
             by (intros [= Heq]; by apply (zrep_not_root _ _ _ _ _ _ _ _ _ H1)).
           destruct (IH T1 (f2 :: C3) _ _ _ _ _ _ H1) as (T2 & -> & En2 & El2 & H2).
           { done. }
           { simpl in *. lia. }
           exists T2. by rewrite En2, El2.
      * destruct f as [P cp kp vp s|P cp s kp vp].
        -- destruct (fix_body_black_right_triangle _ _ _ _ _ _ _ _ _ _ _ _ _ _ _
                       _ _ _ H HcU) as (T1 & -> & En1 & El1 & H1). red1.
           cbn [plug1 paint rrot lrot] in H1.
           pose proof (zrep_down_r _ _ _ _ _ _ _ _ H1) as Hk.
           rewrite decide_False
             by (intros [= Heq]; by apply (zrep_not_root _ _ _ _ _ _ _ _ _ Hk)).
           destruct fuel as [|fuel]; [lia|].
           rewrite (fix_loop_exit _ _ _ _ _ _ _ _ _ _ Hk eq_refl).
           exists T1. split; [done|]. split; [done|]. split; [done|].
           by apply zrep_plug.
        -- destruct (fix_body_black_right_line _ _ _ _ _ _ _ _ _ _ _ _ _ _ _ _ _ _
                       H HcU) as (T1 & -> & En1 & El1 & H1). red1.
           cbn [plug1 paint rrot lrot] in H1.
           pose proof (zrep_down_r _ _ _ _ _ _ _ _ H1) as Hk.
           rewrite decide_False
             by (intros [= Heq]; by apply (zrep_not_root _ _ _ _ _ _ _ _ _ Hk)).
           destruct fuel as [|fuel]; [lia|].
           rewrite (fix_loop_exit _ _ _ _ _ _ _ _ _ _ Hk eq_refl).
           exists T1. split; [done|]. split; [done|]. split; [done|].
           by apply zrep_plug.
Qed.

(** ** The in-order sequence: search-tree order *)

Lemma StronglySorted_slt_NoDup (l : list string) :
  StronglySorted slt l -> NoDup l.
Proof.
  induction 1 as [|x l Hl IH Hx]; constructor; [|done].
  intros Hin. rewrite Forall_forall in Hx. by apply (slt_irrefl x), Hx.
Qed.

Lemma sorted_NoDup l : sorted l -> NoDup l.*1.
Proof. apply StronglySorted_slt_NoDup. Qed.

Lemma size_inorder t : size t = length (inorder t).
Proof.
  induction t as [|p c l IHl k v r IHr]; simpl; [done|].
  rewrite length_app. simpl. lia.
Qed.

Lemma inorder_paint c t : inorder (paint c t) = inorder t.
Proof. by destruct t. Qed.

Lemma inorder_lrot t : inorder (lrot t) = inorder t.
Proof.
  destruct t as [|x cx a kx vx [|y cy b ky vy c]]; simpl; try done.
  by rewrite <- app_assoc.
Qed.

Lemma inorder_rrot t : inorder (rrot t) = inorder t.
Proof.
  destruct t as [|x cx [|y cy a ky vy b] kx vx c]; simpl; try done.
  by rewrite <- app_assoc.
Qed.

Lemma inorder_plug1 f t t' :
  inorder t = inorder t' -> inorder (plug1 f t) = inorder (plug1 f t').
Proof. intros H. destruct f; simpl; by rewrite H. Qed.

(** Induction on a path two steps at a time, as the loop climbs it. *)
Lemma ctx_ind2 (P : ctx -> Prop) :
  P [] -> (forall f, P [f]) -> (forall f g C, P C -> P (f :: g :: C)) ->
  forall C, P C.
Proof.
  intros H0 H1 H2.
  assert (forall C, P C /\ forall f, P (f :: C)) as H.
  { induction C as [|g C [IH1 IH2]]; split; auto. }
  intros C. apply H.
Qed.

Lemma inorder_fix_up C : forall t, inorder (fix_up C t) = inorder (plug C t).
Proof.
  induction C as [| |f g C2 IH] using ctx_ind2; intros t; try done.
  cbn [fix_up plug]. destruct (frame_color f); [|done].
  destruct g as [G cg kg vg U|G cg U kg vg]; destruct (color_of U);
    rewrite ?IH, !(inorder_plug C2); do 2 f_equal;
    rewrite ?inorder_rrot, ?inorder_lrot; simpl; rewrite ?inorder_paint;
    try done; destruct f; by rewrite ?inorder_lrot, ?inorder_rrot.
Qed.

(** ** The descent *)

Lemma descend_plug t : forall key C,
  plug (descend t key C).1 (descend t key C).2 = plug C t.
Proof.
  induction t as [|p c l IHl k v r IHr]; intros key C; simpl; [done|].
  destruct (String.ltb key k); [by rewrite IHl|].
  destruct (String.ltb k key); [by rewrite IHr|]. done.
Qed.

Lemma descend_went t : forall key C,
  went C key -> went (descend t key C).1 key.
Proof.
  induction t as [|p c l IHl k v r IHr]; intros key C HC; simpl; [done|].
  destruct (String.ltb key k) eqn:E1; [by apply IHl|].
  destruct (String.ltb k key) eqn:E2; [by apply IHr|]. done.
Qed.

Lemma descend_found t : forall key C,
  match (descend t key C).2 with
  | Leaf => True
  | Nd _ _ _ k _ _ => k = key
  end.
Proof.
  induction t as [|p c l IHl k v r IHr]; intros key C; simpl; [done|].
  destruct (String.ltb key k) eqn:E1; [by apply IHl|].
  destruct (String.ltb k key) eqn:E2; [by apply IHr|].
  simpl. symmetry. by apply slt_total.
Qed.

Lemma descend_bounds t : forall key C,
  sorted (inorder (plug C t)) -> bounds C key ->
  bounds (descend t key C).1 key.
Proof.
  induction t as [|p c l IHl k v r IHr]; intros key C Hs [Hl Hr]; simpl;
    [done|].
  pose proof Hs as Hs'. unfold sorted in Hs'.
  rewrite inorder_plug in Hs'. simpl in Hs'.
  rewrite !fmap_app, fmap_cons in Hs'. simpl in Hs'.
  apply StronglySorted_app in Hs' as (_ & _ & Hs').
  apply StronglySorted_app in Hs' as (_ & Hs' & _).
  apply StronglySorted_app in Hs' as (Hlk & _ & Hkr).
  apply StronglySorted_cons in Hkr as [Hkr _]. rewrite Forall_forall in Hkr.
  destruct (String.ltb key k) eqn:E1.
  { apply IHl; [done|]. split; [done|]. simpl.
    intros x. rewrite ?fmap_cons, ?fmap_app. simpl.
    rewrite elem_of_cons, elem_of_app. intros [->|[Hx|Hx]]; [done| |by auto].
    eapply slt_trans; [exact E1|]. by apply Hkr. }
  destruct (String.ltb k key) eqn:E2; [|done].
  apply IHr; [done|]. split; [|done]. simpl.
  intros x. rewrite !fmap_app. simpl.
  rewrite !elem_of_app, list_elem_of_singleton.
  intros [Hx|[Hx| ->]]; [by auto| |done].
  eapply slt_trans; [|exact E2]. apply Hlk; [done|]. set_solver.
Qed.

Lemma bounds_nil key : bounds [] key.
Proof. split; intros x Hx; by apply elem_of_nil in Hx. Qed.

Lemma bounds_not_in C key :
  bounds C key -> key ∉ (cleft C ++ cright C).*1.
Proof.
  intros [Hl Hr]. rewrite fmap_app, elem_of_app.
  intros [H|H]; by apply (slt_irrefl key); auto.
Qed.

(** Filling the hole with one pair keeps the order. *)
Lemma sorted_fill C key value :
  sorted (cleft C ++ cright C) -> bounds C key ->
  sorted (cleft C ++ (key, value) :: cright C).
Proof.
  unfold sorted. intros Hs [Hl Hr].
  rewrite !fmap_app in *. rewrite fmap_cons. simpl.
  apply StronglySorted_app in Hs as (Hlr & H1 & H2).
  apply StronglySorted_app. split; [|split; [done|]].
  - intros x1 x2 Hx1. rewrite elem_of_cons. intros [->|Hx2]; auto.
  - apply StronglySorted_cons. split; [|done]. by apply Forall_forall.
Qed.

(** Overwriting the value of a key keeps the order. *)
Lemma sorted_update l1 l2 k v v' :
  sorted (l1 ++ (k, v) :: l2) -> sorted (l1 ++ (k, v') :: l2).
Proof. unfold sorted. by rewrite !fmap_app, !fmap_cons. Qed.

(** ** [insert] *)

Lemma insert_loop_sim t : forall fuel T C key value,
  zrep T C t -> size t < fuel ->
  match (descend t key C).2 with
  | Leaf =>
      insert_loop fuel T key value (cpar C) (Some (rootref (NIL T) t))
      = Some (Bottom (cpar (descend t key C).1))
      /\ zrep T (descend t key C).1 Leaf
  | Nd p c l k v r =>
      exists T',
        insert_loop fuel T key value (cpar C) (Some (rootref (NIL T) t))
        = Some (Updated T')
        /\ setattr T (Some p) (Node.set_value (Some value)) = Some T'
        /\ NIL T' = NIL T /\ root T' = root T
        /\ length (objs T') = length (objs T)
        /\ zrep T' (descend t key C).1 (Nd p c l k value r)
  end.
Proof.
  induction t as [|p c l IHl k v r IHr]; intros fuel T C key value H Hfuel;
    (destruct fuel as [|fuel]; [simpl in Hfuel; lia|]).
  - simpl. by rewrite decide_True.
  - cbn [descend insert_loop rootref].
    rewrite decide_False
      by (intros [= Heq]; by apply (zrep_ne_nil _ _ _ _ _ _ _ _ H)).
    rd H Node.key. simpl in Hfuel.
    destruct (String.ltb key k) eqn:E1.
    { rd H Node.left.
      apply (IHl fuel T (FL p c k v r :: C));
        [by apply zrep_down_l|lia]. }
    destruct (String.ltb k key) eqn:E2.
    { rd H Node.right.
      apply (IHr fuel T (FR p c l k v :: C));
        [by apply zrep_down_r|lia]. }
    cbn [snd fst].
    destruct (zrep_set_value _ _ _ _ _ _ _ _ value H)
      as (T' & E & En & Er & El & H').
    exists T'. by rewrite E.
Qed.

(** The colour of the root, from the path to it. *)
Lemma root_black_plug C : forall t,
  C <> [] -> color_of (plug C t) = false -> root_black C.
Proof.
  induction C as [|f C IH]; intros t HC Hc; [done|].
  destruct C as [|g C].
  - simpl in Hc. unfold root_black. simpl. by destruct f.
  - unfold root_black. rewrite last_cons_cons.
    apply (IH (plug1 f t)); done.
Qed.

(** Linking the new node below the last node of the descent. *)
Lemma zrep_link T f C1 key value :
  zrep T (f :: C1) Leaf -> went (f :: C1) key ->
  key ∉ (cleft (f :: C1) ++ cright (f :: C1)).*1 ->
  let n := length (objs T) in
  let T0 := mk (objs T ++ [Node.mk (Some key) (Some value) (Some (NIL T))
                             (Some (NIL T)) (Some (frame_ref f)) true])
              (NIL T) (root T) in
  exists T1,
    (yk ← attr T0 (Some (frame_ref f)) Node.key;
     yk ← yk;
     if String.ltb key yk
     then setattr T0 (Some (frame_ref f)) (Node.set_left (Some n))
     else setattr T0 (Some (frame_ref f)) (Node.set_right (Some n))) = Some T1
    /\ NIL T1 = NIL T /\ root T1 = root T
    /\ length (objs T1) = S (length (objs T))
    /\ zrep T1 (f :: C1) (Nd n true Leaf key value Leaf).
Proof.
  intros [Hn _ HC Hroot Hk] Hw Hnin n T0.
  destruct T as [o nil rt]. simpl in *. subst n T0.
  assert (NoDup ((cleft (f :: C1)) ++ (key, value) :: cright (f :: C1)).*1)
    as Hk'.
  { rewrite fmap_app, fmap_cons. simpl. rewrite fmap_app in Hk, Hnin.
    apply NoDup_app in Hk as (H1 & H2 & H3).
    apply NoDup_app. split; [done|]. split.
    - intros x Hx. rewrite not_elem_of_cons. split; [|by auto].
      intros ->. apply Hnin. set_solver.
    - apply NoDup_cons. split; [|done]. set_solver. }
  pose proof Hk' as Hk0.
  destruct f as [P cp kp vp s|P cp s kp vp]; simpl in *;
    destruct HC as (HP & Hs & HC);
    pose proof (lookup_lt_Some _ _ _ HP) as HPlt;
    pose proof (lookup_lt_Some _ _ _ Hn) as Hnlt;
    key_facts Hk';
    unfold attr, setattr; cbn [mbind option_bind objs NIL root];
    rewrite !lookup_app_l by done; rewrite HP;
    cbn [mbind option_bind Node.key]; rewrite Hw;
    (eexists; split; [reflexivity|]); simpl;
    (split; [done|]); (split; [done|]);
    (split; [rewrite length_insert, length_app; simpl; lia|]);
    (split; simpl;
     [ rewrite list_lookup_insert_ne
         by (eapply ref_ne; [exact HP|exact Hn|done]);
       by apply lookup_app_l_Some
     | split; [|done];
       rewrite list_lookup_insert_ne by lia;
       by rewrite lookup_app_r, Nat.sub_diag by lia
     | split; [|split];
       [ by rewrite list_lookup_insert_eq by (rewrite length_app; simpl; lia)
       | eapply agree_insert;
           [by apply lookup_app_l_Some|reflexivity|notin|by apply agree_app]
       | eapply agree_ctx_insert;
           [by apply lookup_app_l_Some|reflexivity|notin
           |by apply agree_ctx_app] ]
     | done
     | same_keys Hk0 ]).
Qed.

Lemma size_plug_node C p c l k v r p' c' l' v' r' :
  size l = size l' -> size r = size r' ->
  size (plug C (Nd p c l k v r)) = size (plug C (Nd p' c' l' k v' r')).
Proof.
  intros Hl Hr. rewrite !size_inorder, !inorder_plug, !length_app. simpl.
  rewrite !length_app. simpl. rewrite <- !size_inorder. lia.
Qed.

Lemma size_plug_new C n c k v :
  size (plug C (Nd n c Leaf k v Leaf)) = S (size (plug C Leaf)).
Proof.
  rewrite !size_inorder, !inorder_plug, !length_app. simpl. lia.
Qed.

Lemma size_paint c t : size (paint c t) = size t.
Proof. by destruct t. Qed.

Lemma size_fix_up C t : size (fix_up C t) = size (plug C t).
Proof. by rewrite !size_inorder, inorder_fix_up. Qed.

(** [insert] on a store that holds a search tree with a black root runs to
    the end and leaves the store holding [insert_tree] of that tree. *)
Lemma insert_sim T t key value :
  rep T t -> sorted (inorder t) -> color_of t = false ->
  exists T', insert T key value = Some T'
    /\ NIL T' = NIL T
    /\ rep T' (insert_tree (length (objs T)) t key value).
Proof.
  intros [H Hlen] Hs Hc. unfold insert, insert_tree.
  pose proof (insert_loop_sim t (length (objs T)) T [] key value H) as Hl.
  pose proof (z_root _ _ _ H) as Hroot. cbn [croot cpar] in *.
  rewrite <- Hroot in Hl.
  pose proof (descend_plug t key []) as Hplug.
  pose proof (descend_went t key [] I) as Hw.
  pose proof (descend_bounds t key [] Hs (bounds_nil key)) as Hb.
  destruct (descend t key []) as [C' s] eqn:E. cbn [fst snd plug] in *.
  destruct s as [|p c l k v r].
  - destruct Hl as [-> H']; [lia|]. cbn [mbind option_bind].
    apply bounds_not_in in Hb.
    destruct C' as [|f [|g C2]].
    + (* the tree was empty *)
      simpl in Hplug. subst t. simpl in Hlen.
      destruct T as [o nil rt]. simpl in *.
      destruct H as [Hn _ _ _ _]. simpl in *.
      destruct o as [|n0 [|? ?]]; simpl in Hlen; try lia.
      destruct nil as [|nil]; [|done]. simpl in Hn. injection Hn as ->.
      eexists. split; [reflexivity|]. split; [done|].
      split; [|done]. split; simpl; try done. apply NoDup_singleton.
    + (* below the root *)
      destruct (zrep_link T f [] key value H' Hw Hb)
        as (T1 & E1 & En1 & Er1 & El1 & H1).
      cbn [cpar]. rewrite E1. cbn [mbind option_bind].
      rd H1 Node.parent.
      pose proof (proj1 (zrep_up _ _ _ _) H1) as HP.
      assert (attr T1 (Some (frame_ref f)) Node.parent = Some None) as ->.
      { destruct f; cbn [plug1 frame_ref] in *; by rd HP Node.parent. }
      cbn [mbind option_bind]. exists T1. split; [done|]. split; [done|].
      split; [by apply zrep_plug|].
      rewrite El1, Hlen, <- Hplug. cbn [plug].
      destruct f; simpl; lia.
    + (* deeper: the tree is rebalanced *)
      destruct (zrep_link T f (g :: C2) key value H' Hw Hb)
        as (T1 & E1 & En1 & Er1 & El1 & H1).
      cbn [cpar]. rewrite E1. cbn [mbind option_bind].
      rd H1 Node.parent.
      pose proof (proj1 (zrep_up _ _ _ _) H1) as HP.
      assert (attr T1 (Some (frame_ref f)) Node.parent
              = Some (Some (frame_ref g))) as ->.
      { destruct f; cbn [plug1 frame_ref] in *; by rd HP Node.parent. }
      cbn [mbind option_bind]. unfold _fix_insert.
      assert (length (f :: g :: C2) < length (objs T1)) as Hfuel.
      { rewrite El1, Hlen, <- Hplug.
        pose proof (size_plug (f :: g :: C2) Leaf). simpl in *. lia. }
      assert (root_black (f :: g :: C2)) as Hrb.
      { apply (root_black_plug _ Leaf); [done|]. by rewrite Hplug. }
      destruct (fix_loop_sim _ _ _ _ _ _ _ _ _ H1 Hrb Hfuel)
        as (T2 & -> & En2 & El2 & H2).
      cbn [mbind option_bind].
      rewrite (z_root _ _ _ H2). cbn [croot].
      pose proof (size_fix_up (f :: g :: C2)
                    (Nd (length (objs T)) true Leaf key value Leaf)) as Hsz.
      rewrite size_plug_new in Hsz.
      destruct (fix_up (f :: g :: C2) _) as [|q cq lq kq vq rq] eqn:Ew;
        [done|]. cbn [rootref].
      destruct (zrep_set_color _ _ _ _ _ _ _ _ false H2)
        as (T3 & -> & En3 & Er3 & El3 & H3).
      exists T3. split; [done|]. split; [by rewrite En3, En2|].
      split; [done|].
      rewrite El3, El2, El1, Hlen, <- Hplug. cbn [paint].
      change (size (Nd q false lq kq vq rq)) with (size (Nd q cq lq kq vq rq)).
      by rewrite Hsz.
  - destruct Hl as (T' & -> & _ & En & Er & El & H'); [lia|].
    cbn [mbind option_bind]. exists T'. split; [done|]. split; [done|].
    split; [by apply zrep_plug|].
    rewrite El, Hlen, <- Hplug. f_equal. by apply size_plug_node.
Qed.

(** ** The red-black properties of the represented tree *)

Lemma balanced_plug1 f t n :
  balanced (plug1 f t) (if frame_color f then n else S n)
  <-> balanced (sib f) n /\ balanced t n.
Proof. destruct f as [p [] k v r|p [] l k v]; simpl; tauto. Qed.

Lemma nored_plug1 f t :
  nored (plug1 f t)
  <-> nored (sib f) /\ nored t
      /\ (frame_color f = true -> color_of (sib f) = false /\ color_of t = false).
Proof. destruct f as [p c k v r|p c l k v]; simpl; tauto. Qed.

Lemma color_plug1 f t : color_of (plug1 f t) = frame_color f.
Proof. by destruct f. Qed.

Lemma balanced_plug C : forall t n,
  cbal C n -> balanced t n -> exists m, balanced (plug C t) m.
Proof.
  induction C as [|f C IH]; intros t n HC Ht; simpl; [eauto|].
  destruct HC as [Hs HC]. eapply IH; [exact HC|].
  by apply balanced_plug1.
Qed.

Lemma nored_plug C : forall t,
  cnored C -> nored t -> (color_of t = true -> parent_black C) ->
  nored (plug C t).
Proof.
  induction C as [|f C IH]; intros t HC Ht Hc; simpl; [done|].
  destruct HC as (Hs & Hf & HC). apply IH; [done| |].
  - apply nored_plug1. split; [done|]. split; [done|].
    intros Hred. split; [by apply Hf|].
    destruct (color_of t) eqn:E; [|done].
    specialize (Hc eq_refl). simpl in Hc. congruence.
  - rewrite color_plug1. intros Hred. by apply Hf.
Qed.

(** A black height of the whole tree fixes the one of the hole. *)
Lemma balanced_unplug C : forall t m,
  balanced (plug C t) m -> exists n, cbal C n /\ balanced t n.
Proof.
  induction C as [|f C IH]; intros t m H; simpl in *; [eauto|].
  destruct (IH _ _ H) as (n & HC & Hp).
  destruct f as [p [] k v r|p [] l k v]; simpl in *.
  - exists n. tauto.
  - destruct n as [|n]; [done|]. exists n. tauto.
  - exists n. tauto.
  - destruct n as [|n]; [done|]. exists n. tauto.
Qed.

Lemma nored_unplug C : forall t,
  nored (plug C t) ->
  cnored C /\ nored t /\ (color_of t = true -> parent_black C).
Proof.
  induction C as [|f C IH]; intros t H; simpl in *; [done|].
  destruct (IH _ H) as (HC & Hp & Hc).
  apply nored_plug1 in Hp as (Hs & Ht & Hf).
  rewrite color_plug1 in Hc.
  split; [|split; [done|]].
  - split; [done|]. split; [|done]. intros Hred. split; [by apply Hf|auto].
  - intros Hred. destruct (frame_color f) eqn:E; [|done].
    destruct (Hf eq_refl). congruence.
Qed.

Lemma balanced_paint_black t n :
  balanced t n -> exists m, balanced (paint false t) m.
Proof.
  destruct t as [|p [] l k v r]; simpl; [eauto| |eauto].
  intros H. by exists (S n).
Qed.

Lemma nored_paint_black t : nored t -> nored (paint false t).
Proof. destruct t; simpl; [done|]. intros (_ & ? & ?). done. Qed.

Lemma color_paint c t : t <> Leaf -> color_of (paint c t) = c.
Proof. by destruct t. Qed.

Lemma root_black_cons f C :
  root_black (f :: C) -> C <> [] -> root_black C.
Proof. destruct C; [done|]. by intros. Qed.

(** The loop of [_fix_insert], started on a red node whose subtree is in
    order, ends on a tree that is balanced and without red-red pair. *)
Lemma fix_up_ok C : forall t n,
  cbal C n -> cnored C -> root_black C ->
  balanced t n -> nored t -> color_of t = true ->
  (exists m, balanced (fix_up C t) m) /\ nored (fix_up C t).
Proof.
  induction C as [|f|f g C2 IH] using ctx_ind2;
    intros t n Hb Hn Hrb Ht Hnt Hct.
  - simpl. eauto.
  - cbn [fix_up]. split; [by eapply balanced_plug|].
    apply nored_plug; try done; intros _; exact Hrb.
  - cbn [fix_up]. destruct (frame_color f) eqn:Hf.
    2:{ split; [by eapply balanced_plug|].
        apply nored_plug; try done; intros _; exact Hf. }
    destruct Hb as (Hbf & Hbg & Hb2). rewrite Hf in Hbg, Hb2.
    destruct Hn as (Hnf & Hcf & Hng & Hcg & Hn2).
    destruct (Hcf Hf) as [Hcs Hgb]. simpl in Hgb. rewrite Hgb in Hb2.
    assert (root_black C2) as Hrb2.
    { by destruct C2. }
    assert (balanced (plug1 f t) n /\ nored (paint false (plug1 f t))) as [HP HnP].
    { destruct f as [P cp kp vp s|P cp s kp vp]; simpl in *; subst cp;
        intuition congruence. }
    destruct t as [|k ck a kk vk b]; [done|]. simpl in Hct. subst ck.
    simpl in Ht, Hnt. destruct Ht as [Hba Hbb].
    destruct Hnt as (Hca & Hna & Hnb). destruct (Hca eq_refl) as [Hcola Hcolb].
    destruct g as [G cg kg vg U|G cg U kg vg]; simpl in *; subst cg;
      destruct (color_of U) eqn:HcU.
    + (* red uncle *)
      apply (IH _ (S n)); try done.
      * simpl. split.
        -- destruct f; simpl in *; subst; simpl; intuition congruence.
        -- destruct U as [|u [] ? ? ? ?]; simpl in *; try done.
      * simpl. split; [|split]; try done.
        -- intros _. destruct f, U; simpl in *; done.
        -- by apply nored_paint_black.
    + (* black uncle: one or two rotations *)
      destruct f as [P cp kp vp s|P cp s kp vp]; simpl in *; subst cp.
      * split.
        -- eapply (balanced_plug C2 _ (S n)); [done|]. simpl. intuition congruence.
        -- apply nored_plug; [done| |done]. simpl. intuition congruence.
      * split.
        -- eapply (balanced_plug C2 _ (S n)); [done|]. simpl. intuition congruence.
        -- apply nored_plug; [done| |done]. simpl. intuition congruence.
    + apply (IH _ (S n)); try done.
      * simpl. split.
        -- destruct U as [|u [] ? ? ? ?]; simpl in *; try done.
        -- destruct f; simpl in *; subst; simpl; intuition congruence.
      * simpl. split; [|split]; try done.
        -- intros _. destruct f, U; simpl in *; done.
        -- by apply nored_paint_black.
    + destruct f as [P cp kp vp s|P cp s kp vp]; simpl in *; subst cp.
      * split.
        -- eapply (balanced_plug C2 _ (S n)); [done|]. simpl. intuition congruence.
        -- apply nored_plug; [done| |done]. simpl. intuition congruence.
      * split.
        -- eapply (balanced_plug C2 _ (S n)); [done|]. simpl. intuition congruence.
        -- apply nored_plug; [done| |done]. simpl. intuition congruence.
Qed.

(** ** [insert_tree] keeps a red-black search tree *)

Lemma color_plug C : forall t t',
  color_of t = color_of t' -> color_of (plug C t) = color_of (plug C t').
Proof.
  induction C as [|f C IH]; intros t t' H; simpl; [done|].
  apply IH. by rewrite !color_plug1.
Qed.

Lemma fix_up_not_leaf C p c l k v r : fix_up C (Nd p c l k v r) <> Leaf.
Proof.
  intros H. pose proof (size_inorder (fix_up C (Nd p c l k v r))) as Hs.
  rewrite inorder_fix_up, inorder_plug, H in Hs. simpl in Hs.
  rewrite !length_app in Hs. simpl in Hs. rewrite ?length_app in Hs.
  simpl in Hs. lia.
Qed.

Lemma insert_tree_rb n t key value :
  rbtree t -> rbtree (insert_tree n t key value).
Proof.
  intros (Hc & Hn & m & Hb). unfold insert_tree.
  pose proof (descend_plug t key []) as Hplug.
  destruct (descend t key []) as [C' s]. cbn [fst snd plug] in *.
  rewrite <- Hplug in Hc, Hn, Hb.
  apply nored_unplug in Hn as (HnC & Hns & Hcs).
  apply balanced_unplug in Hb as (n0 & HbC & Hbs).
  destruct s as [|p c l k v r].
  - simpl in Hbs. subst n0.
    destruct C' as [|f [|g C2]].
    + split; [done|]. split; [done|]. by exists 1.
    + simpl in Hc. rewrite color_plug1 in Hc.
      split; [by simpl; rewrite color_plug1|]. split.
      * apply nored_plug; done.
      * by eapply (balanced_plug _ _ 0).
    + assert (root_black (f :: g :: C2)) as Hrb
        by (by apply (root_black_plug _ Leaf)).
      destruct (fix_up_ok (f :: g :: C2) (Nd n true Leaf key value Leaf) 0)
        as [[m' Hb'] Hn']; try done.
      split; [|split].
      * apply color_paint, fix_up_not_leaf.
      * by apply nored_paint_black.
      * by eapply balanced_paint_black.
  - split; [|split].
    + by rewrite <- Hc; apply color_plug.
    + apply nored_plug; done.
    + by eapply balanced_plug.
Qed.

(** The in-order sequence after [insert_tree]. *)
Lemma inorder_insert_tree n t key value :
  let C' := (descend t key []).1 in
  inorder (insert_tree n t key value)
  = cleft C' ++ match (descend t key []).2 with
                | Leaf => [(key, value)]
                | Nd _ _ l k _ r => inorder l ++ (k, value) :: inorder r
                end ++ cright C'.
Proof.
  unfold insert_tree. destruct (descend t key []) as [C' s]. cbn [fst snd].
  destruct s as [|p c l k v r]; [|by rewrite inorder_plug].
  destruct C' as [|f [|g C2]]; [done|by rewrite inorder_plug|].
  by rewrite inorder_paint, inorder_fix_up, inorder_plug.
Qed.

Lemma insert_tree_sorted n t key value :
  sorted (inorder t) -> sorted (inorder (insert_tree n t key value)).
Proof.
  intros Hs. rewrite inorder_insert_tree.
  pose proof (descend_plug t key []) as Hplug.
  pose proof (descend_bounds t key [] Hs (bounds_nil key)) as Hb.
  destruct (descend t key []) as [C' s]. cbn [fst snd plug] in *.
  rewrite <- Hplug, inorder_plug in Hs.
  destruct s as [|p c l k v r]; simpl in *.
  - by apply sorted_fill.
  - unfold sorted in *. by rewrite !fmap_app, fmap_cons in *.
Qed.

(** ** The tree as a finite map *)

Lemma list_to_map_fill (l1 l2 : list (string * string)) k v :
  k ∉ l1.*1 ->
  (list_to_map (l1 ++ (k, v) :: l2) : gmap string string)
  = <[k := v]> (list_to_map (l1 ++ l2)).
Proof.
  intros Hk. apply map_eq. intros i.
  rewrite !list_to_map_app. simpl.
  destruct (decide (i = k)) as [->|Hne].
  - rewrite lookup_insert_eq, lookup_union_r, lookup_insert_eq; [done|].
    by apply not_elem_of_list_to_map_1.
  - rewrite lookup_insert_ne by done.
    rewrite !lookup_union, lookup_insert_ne by done. done.
Qed.

Lemma insert_tree_map n t key value :
  sorted (inorder t) ->
  tree_map (insert_tree n t key value) = <[key := value]> (tree_map t).
Proof.
  intros Hs. unfold tree_map. rewrite inorder_insert_tree.
  pose proof (descend_plug t key []) as Hplug.
  pose proof (descend_bounds t key [] Hs (bounds_nil key)) as Hb.
  pose proof (descend_found t key []) as Hf.
  destruct (descend t key []) as [C' s]. cbn [fst snd plug] in *.
  rewrite <- Hplug, inorder_plug in *.
  destruct s as [|p c l k v r]; simpl in *.
  - apply list_to_map_fill. intros Hin. destruct Hb as [Hb _].
    by apply (slt_irrefl key), Hb.
  - subst k. apply sorted_NoDup in Hs.
    assert (forall x, cleft C' ++ (inorder l ++ (key, x) :: inorder r) ++ cright C'
                      = (cleft C' ++ inorder l)
                          ++ (key, x) :: (inorder r ++ cright C')) as Hre
      by (intros; by rewrite <- !app_assoc).
    rewrite !Hre in *.
    rewrite fmap_app, fmap_cons in Hs. apply NoDup_app in Hs as (_ & Hs & _).
    assert (key ∉ (cleft C' ++ inorder l).*1) as Hnin.
    { intros Hin. apply (Hs _ Hin). set_solver. }
    rewrite !list_to_map_fill by done.
    by rewrite insert_insert_eq.
Qed.

Lemma lookup_tree_map t : forall key,
  sorted (inorder t) -> lookup_tree t key = tree_map t !! key.
Proof.
  unfold tree_map.
  induction t as [|p c l IHl k v r IHr]; intros key Hs; simpl; [done|].
  unfold sorted in Hs. simpl in Hs.
  rewrite fmap_app, fmap_cons in Hs. simpl in Hs.
  apply StronglySorted_app in Hs as (Hlr & Hsl & Hsr).
  apply StronglySorted_cons in Hsr as [Hkr Hsr]. rewrite Forall_forall in Hkr.
  rewrite list_to_map_app. simpl.
  destruct (decide (key = k)) as [->|Hne].
  - rewrite lookup_union_r, lookup_insert_eq; [done|].
    apply not_elem_of_list_to_map_1. intros Hin.
    apply (slt_irrefl k), Hlr; [done|]. set_solver.
  - destruct (String.ltb key k) eqn:E.
    + rewrite IHl by done. rewrite lookup_union, lookup_insert_ne by done.
      rewrite (not_elem_of_list_to_map_1 (inorder r) key).
      * by destruct (list_to_map (inorder l) !! key).
      * intros Hin. apply (slt_asym key k); [done|]. by apply Hkr.
    + rewrite IHr by done. rewrite lookup_union_r, lookup_insert_ne; try done.
      apply not_elem_of_list_to_map_1. intros Hin.
      assert (slt key k) as Hlt by (apply Hlr; [done|set_solver]).
      unfold slt in Hlt. congruence.
Qed.

(** ** [search] *)

Lemma search_helper_sim t : forall fuel T C key,
  zrep T C t -> size t < fuel ->
  _search_helper fuel T (Some (rootref (NIL T) t)) key
  = Some (lookup_tree t key).
Proof.
  induction t as [|p c l IHl k v r IHr]; intros fuel T C key H Hfuel;
    (destruct fuel as [|fuel]; [simpl in Hfuel; lia|]).
  - simpl. by rewrite decide_True.
  - cbn [_search_helper rootref lookup_tree].
    rewrite decide_False
      by (intros [= Heq]; by apply (zrep_ne_nil _ _ _ _ _ _ _ _ H)).
    rd H Node.key. simpl in Hfuel.
    destruct (decide (key = k)) as [->|Hne].
    { rewrite decide_True by done. by rd H Node.value. }
    rewrite decide_False by congruence. red1.
    destruct (String.ltb key k) eqn:E1.
    + rd H Node.left.
      apply (IHl fuel T (FL p c k v r :: C)); [by apply zrep_down_l|lia].
    + rd H Node.right.
      apply (IHr fuel T (FR p c l k v :: C)); [by apply zrep_down_r|lia].
Qed.

Lemma search_sim T t key :
  rep T t -> search T key = Some (lookup_tree t key).
Proof.
  intros [H Hlen]. unfold search.
  rewrite (z_root _ _ _ H). cbn [croot].
  apply (search_helper_sim t _ T []); [done|lia].
Qed.

(** ** Sequences of [insert] *)

Lemma inserts_None ops :
  foldl (fun o kv => T ← o; insert T (fst kv) (snd kv)) None ops = None.
Proof. induction ops; simpl; auto. Qed.

Lemma inserts_cons k v ops T :
  inserts ((k, v) :: ops) T = T' ← insert T k v; inserts ops T'.
Proof.
  unfold inserts. simpl. destruct (insert T k v); [done|].
  simpl. apply inserts_None.
Qed.

Lemma inserts_app ops1 ops2 T :
  inserts (ops1 ++ ops2) T = T' ← inserts ops1 T; inserts ops2 T'.
Proof.
  unfold inserts. rewrite foldl_app.
  destruct (foldl _ (Some T) ops1); [done|]. simpl. apply inserts_None.
Qed.

Lemma tree_inv_init : tree_inv init Leaf.
Proof.
  split; [|split; [|split]]; try done.
  - split; [|done]. split; simpl; try done. apply NoDup_nil_2.
  - split; [done|]. split; [done|]. by exists 0.
  - constructor.
Qed.

Lemma tree_inv_insert T t key value :
  tree_inv T t ->
  exists T', insert T key value = Some T'
    /\ tree_inv T' (insert_tree (length (objs T)) t key value).
Proof.
  intros (Hrep & Hrb & Hs & Hnil).
  destruct (insert_sim T t key value Hrep Hs (proj1 Hrb))
    as (T' & E & En & Hrep').
  exists T'. split; [done|]. split; [done|].
  split; [by apply insert_tree_rb|].
  split; [by apply insert_tree_sorted|]. congruence.
Qed.

Lemma tree_inv_inserts ops : forall T t,
  tree_inv T t ->
  exists T' t', inserts ops T = Some T' /\ tree_inv T' t'
    /\ tree_map t' = assigns ops (tree_map t).
Proof.
  induction ops as [|[k v] ops IH]; intros T t HT.
  - by exists T, t.
  - destruct (tree_inv_insert T t k v HT) as (T1 & E1 & HT1).
    destruct (IH _ _ HT1) as (T2 & t2 & E2 & HT2 & Hm).
    exists T2, t2. rewrite inserts_cons, E1. split; [done|]. split; [done|].
    rewrite Hm. simpl. f_equal. apply insert_tree_map.
    by destruct HT as (_ & _ & ? & _).
Qed.

Lemma assigns_lookup ops : forall (m : gmap string string) k,
  k ∈ ops.*1 \/ is_Some (m !! k) -> is_Some (assigns ops m !! k).
Proof.
  induction ops as [|[k' v'] ops IH]; intros m k; simpl.
  - intros [H|H]; [by apply elem_of_nil in H|done].
  - intros H. apply IH. rewrite elem_of_cons in H. simpl in H.
    destruct (decide (k = k')) as [->|Hne].
    + right. rewrite lookup_insert_eq. eauto.
    + rewrite lookup_insert_ne by done. naive_solver.
Qed.

(** ** The red-black properties, read off the object store *)

Lemma black_path_rep t : forall T C n b,
  zrep T C t -> balanced t n ->
  black_path T (rootref (NIL T) t) b -> b = n.
Proof.
  induction t as [|p c l IHl k v r IHr]; intros T C n b H Hb Hp.
  - simpl in *. subst n. inversion Hp; [done|congruence..].
  - pose proof (zrep_node _ _ _ _ _ _ _ _ H) as Hn.
    pose proof (zrep_ne_nil _ _ _ _ _ _ _ _ H) as Hne.
    pose proof (zrep_down_l _ _ _ _ _ _ _ _ H) as Hl.
    pose proof (zrep_down_r _ _ _ _ _ _ _ _ H) as Hr.
    cbn [rootref] in Hp. simpl in Hb.
    inversion Hp; [congruence| |]; simplify_eq/=.
    + destruct c; [by eapply IHl; eauto; tauto|].
      destruct n as [|n]; [done|]. f_equal. by eapply IHl; eauto; tauto.
    + destruct c; [by eapply IHr; eauto; tauto|].
      destruct n as [|n]; [done|]. f_equal. by eapply IHr; eauto; tauto.
Qed.

(** A node of the tree is the root of a subtree of the represented tree. *)
Lemma in_tree_rep T t p :
  zrep T [] t -> in_tree T p ->
  exists C c l k v r, plug C (Nd p c l k v r) = t /\ zrep T C (Nd p c l k v r).
Proof.
  intros H Hin.
  induction Hin as [Hroot|p n q Hin IH Hn Hq Hne|p n q Hin IH Hn Hq Hne].
  - pose proof (z_root _ _ _ H) as Hr. simpl in Hr.
    destruct t as [|p c l k v r]; [done|]. simpl in Hr. rewrite Hr.
    by exists [], c, l, k, v, r.
  - destruct IH as (C & c & l & k & v & r & Hplug & Hz).
    rewrite (zrep_node _ _ _ _ _ _ _ _ Hz) in Hn. injection Hn as <-.
    simpl in Hq. injection Hq as <-.
    destruct l as [|pl cl ll kl vl rl]; [done|].
    exists (FL p c k v r :: C), cl, ll, kl, vl, rl. split; [done|].
    by apply zrep_down_l.
  - destruct IH as (C & c & l & k & v & r & Hplug & Hz).
    rewrite (zrep_node _ _ _ _ _ _ _ _ Hz) in Hn. injection Hn as <-.
    simpl in Hq. injection Hq as <-.
    destruct r as [|pr cr lr kr vr rr]; [done|].
    exists (FR p c l k v :: C), cr, lr, kr, vr, rr. split; [done|].
    by apply zrep_down_r.
Qed.

Lemma tree_inv_red_black T t :
  tree_inv T t -> root_is_black T /\ no_red_red T /\ equal_black_paths T.
Proof.
  intros ([H Hlen] & (Hc & Hn & m & Hb) & _ & _).
  split; [|split].
  - unfold root_is_black, is_black. rewrite (z_root _ _ _ H). cbn [croot].
    by rewrite (zrep_color _ _ _ H), Hc.
  - intros p n Hin Hp Hred.
    destruct (in_tree_rep _ _ _ H Hin) as (C & c & l & k & v & r & Hplug & Hz).
    rewrite (zrep_node _ _ _ _ _ _ _ _ Hz) in Hp. injection Hp as <-.
    simpl in *. subst c. rewrite <- Hplug in Hn.
    apply nored_unplug in Hn as (_ & (Hch & _ & _) & _).
    destruct (Hch eq_refl) as [Hl Hr]. unfold is_black.
    rewrite (zrep_color _ _ _ (zrep_down_l _ _ _ _ _ _ _ _ Hz)), Hl.
    by rewrite (zrep_color _ _ _ (zrep_down_r _ _ _ _ _ _ _ _ Hz)), Hr.
  - intros b1 b2 H1 H2. rewrite (z_root _ _ _ H) in H1, H2. cbn [croot] in *.
    rewrite (black_path_rep _ _ _ _ _ H Hb H1).
    by rewrite (black_path_rep _ _ _ _ _ H Hb H2).
Qed.

(** C2: starting from an empty tree, any sequence of [insert] calls runs
    to the end and leaves a tree whose root is black, in which no red node
    has a red child, and in which every path from the root to NIL passes
    through the same number of black nodes. *)
Theorem insert_red_black (ops : list (string * string)) :
  exists T, inserts ops init = Some T
    /\ root_is_black T /\ no_red_red T /\ equal_black_paths T.
Proof.
  destruct (tree_inv_inserts ops _ _ tree_inv_init) as (T & t & E & HT & _).
  exists T. split; [done|]. by eapply tree_inv_red_black.
Qed.

(** The descent stops on a node exactly when [lookup_tree] finds the key. *)
Lemma descend_lookup t : forall key C,
  lookup_tree t key
  = match (descend t key C).2 with
    | Leaf => None
    | Nd _ _ _ _ v _ => Some v
    end.
Proof.
  induction t as [|p c l IHl k v r IHr]; intros key C; simpl; [done|].
  destruct (decide (key = k)) as [->|Hne].
  - assert (String.ltb k k = false) as ->; [|done].
    pose proof (slt_irrefl k) as H. unfold slt in H.
    by destruct (String.ltb k k).
  - destruct (String.ltb key k) eqn:E1; [by apply IHl|].
    destruct (String.ltb k key) eqn:E2; [by apply IHr|].
    destruct Hne. by apply slt_total.
Qed.

(** C9: [insert] with a key that is already in the tree overwrites the
    [value] attribute of the one object that has this key and changes
    nothing else: every other object, the colours, the links, [root] and
    [NIL] stay as they are.  The call returns from the descent ([Updated]),
    the path of [insert] on which nothing is linked and [_fix_insert] is
    not called. *)
Theorem insert_existing_key (ops : list (string * string)) key value :
  key ∈ ops.*1 ->
  exists T T' x n,
    inserts ops init = Some T
    /\ insert_loop (length (objs T)) T key value None (Some (root T))
       = Some (Updated T')
    /\ insert T key value = Some T'
    /\ objs T !! x = Some n /\ Node.key n = Some key
    /\ T' = mk (<[x := Node.set_value (Some value) n]> (objs T))
              (NIL T) (root T).
Proof.
  intros Hin.
  destruct (tree_inv_inserts ops _ _ tree_inv_init) as (T & t & E & HT & Hm).
  destruct HT as ([H Hlen] & Hrb & Hs & Hnil).
  assert (is_Some (lookup_tree t key)) as Hl.
  { rewrite (lookup_tree_map t key Hs), Hm. apply assigns_lookup. by left. }
  rewrite (descend_lookup t key []) in Hl.
  pose proof (insert_loop_sim t (length (objs T)) T [] key value H) as Hloop.
  pose proof (descend_found t key []) as Hf.
  pose proof (z_root _ _ _ H) as Hroot. cbn [croot cpar] in *.
  rewrite <- Hroot in Hloop.
  destruct (descend t key []) as [C' s]. cbn [fst snd] in *.
  destruct s as [|p c l k v r]; [by destruct Hl|]. subst k.
  destruct Hloop as (T' & Eloop & Eset & _ & _ & _ & H'); [lia|].
  unfold setattr in Eset. simpl in Eset.
  destruct (objs T !! p) as [n|] eqn:Hp; [|done]. simpl in Eset.
  injection Eset as <-.
  eexists T, _, p, n. split; [done|]. split; [exact Eloop|]. split.
  - unfold insert. by rewrite Eloop.
  - split; [done|]. split; [|done].
    pose proof (zrep_node _ _ _ _ _ _ _ _ H') as Hn. simpl in Hn.
    rewrite list_lookup_insert_eq in Hn by (by eapply lookup_lt_Some).
    injection Hn as Hn. by destruct n; simpl in *; simplify_eq.
Qed.

Lemma insert_existing_key_witness :
  exists T T' x n,
    inserts [("b", "1"); ("a", "2"); ("c", "3")] init = Some T
    /\ insert_loop (length (objs T)) T "a" "4" None (Some (root T))
       = Some (Updated T')
    /\ insert T "a" "4" = Some T'
    /\ objs T !! x = Some n /\ Node.key n = Some "a"
    /\ T' = mk (<[x := Node.set_value (Some "4") n]> (objs T))
              (NIL T) (root T).
Proof.
  apply (insert_existing_key [("b", "1"); ("a", "2"); ("c", "3")] "a" "4").
  vm_compute. set_solver.
Defined.

(** ** The heap of access counts *)

Lemma string_ltb_le a b :
  String.ltb b a = false <-> slt a b \/ a = b.
Proof.
  unfold slt, String.ltb. rewrite (String.compare_antisym b a).
  destruct (String.compare a b) eqn:E; simpl; split; try done; auto.
  - intros _. right. by apply String.compare_eq_iff.
  - intros [H|H]; [done|]. subst. by rewrite string_compare_refl in E.
Qed.

Lemma ile_spec a b :
  ile a b <-> (fst a < fst b)%Z \/ (fst a = fst b /\ (slt (snd a) (snd b) \/ snd a = snd b)).
Proof.
  unfold ile, heapq.lt.
  destruct (Z.eqb_spec (fst b) (fst a)) as [Heq|Hne].
  - rewrite string_ltb_le. split; [intros H; right; split; [lia|done]|].
    intros [H|[_ H]]; [lia|done].
  - rewrite Z.ltb_ge. split; [intros H; left; lia|].
    intros [H|[H _]]; lia.
Qed.

Lemma lt_spec a b :
  heapq.lt a b = true <-> (fst a < fst b)%Z \/ (fst a = fst b /\ slt (snd a) (snd b)).
Proof.
  unfold heapq.lt.
  destruct (Z.eqb_spec (fst a) (fst b)) as [Heq|Hne].
  - split; [intros H; right; done|]. intros [H|[_ H]]; [lia|done].
  - rewrite Z.ltb_lt. split; [auto|]. intros [H|[H _]]; [done|lia].
Qed.

Lemma ile_refl a : ile a a.
Proof. apply ile_spec. right. auto. Qed.

Lemma ile_trans a b c : ile a b -> ile b c -> ile a c.
Proof.
  rewrite !ile_spec. intros [H1|[H1 H1']] [H2|[H2 H2']]; try (left; lia).
  right. split; [lia|].
  destruct H1' as [H1'|H1'], H2' as [H2'|H2'].
  - left. by eapply slt_trans.
  - left. by rewrite <- H2'.
  - left. by rewrite H1'.
  - right. congruence.
Qed.

Lemma ile_total a b : ile a b \/ ile b a.
Proof.
  unfold ile. destruct (heapq.lt b a) eqn:E; [|by left]. right.
  apply lt_spec in E. apply ile_spec. naive_solver.
Qed.

Lemma lt_ile a b : heapq.lt a b = true -> ile a b.
Proof. rewrite lt_spec, ile_spec. naive_solver. Qed.

Lemma ile_antisym a b : ile a b -> ile b a -> a = b.
Proof.
  rewrite !ile_spec. destruct a as [a1 a2], b as [b1 b2]. simpl.
  intros [H1|[H1 H1']] [H2|[H2 H2']]; try lia. subst.
  destruct H1' as [H1'|H1'], H2' as [H2'|H2']; subst; auto.
  by destruct (slt_asym _ _ H1').
Qed.

(** ** The heap invariant *)

Lemma div2_child i j : j = 2 * i + 1 \/ j = 2 * i + 2 -> (j - 1) / 2 = i.
Proof.
  intros [->| ->].
  - replace (2 * i + 1 - 1) with (i * 2) by lia. apply Nat.div_mul. lia.
  - replace (2 * i + 2 - 1) with (1 + i * 2) by lia.
    rewrite Nat.div_add by lia. done.
Qed.

Lemma div2_parent j :
  1 <= j -> j = 2 * ((j - 1) / 2) + 1 \/ j = 2 * ((j - 1) / 2) + 2.
Proof.
  intros Hj. pose proof (Nat.div_mod_eq (j - 1) 2) as H.
  pose proof (Nat.mod_upper_bound (j - 1) 2). lia.
Qed.

Lemma div2_le n : n / 2 <= n.
Proof. apply Nat.Div0.div_le_upper_bound. lia. Qed.

Lemma div2_children n i : n / 2 <= i -> n <= 2 * i + 1.
Proof.
  intros H. pose proof (Nat.div_mod_eq n 2) as H1.
  pose proof (Nat.mod_upper_bound n 2). lia.
Qed.

(** The first entry of a heap is its least. *)
Lemma heap_root_min l : is_heap l -> forall i, i < length l -> ile (l !!! 0) (l !!! i).
Proof.
  intros Hh i. induction i as [i IH] using lt_wf_ind. intros Hi.
  destruct (decide (i = 0)) as [->|Hne]; [apply ile_refl|].
  pose proof (div2_parent i ltac:(lia)) as Hp.
  eapply ile_trans; [apply (IH ((i - 1) / 2)); lia|].
  apply Hh; [lia|done|done].
Qed.

(** ** [_siftdown]: an entry moves up to its place *)

Lemma in_subtree_le s pos : in_subtree s pos -> s <= pos.
Proof. induction 1; lia. Qed.

Lemma in_subtree_parent s pos ppos :
  in_subtree s pos -> s < pos -> pos = 2 * ppos + 1 \/ pos = 2 * ppos + 2 ->
  in_subtree s ppos.
Proof.
  intros H Hs Hp. inversion H as [|i Hi|i Hi]; subst; [lia| |].
  - by replace ppos with i by lia.
  - by replace ppos with i by lia.
Qed.

Lemma in_subtree_0 pos : in_subtree 0 pos.
Proof.
  induction pos as [pos IH] using lt_wf_ind.
  destruct (decide (pos = 0)) as [->|Hne]; [constructor|].
  destruct (div2_parent pos ltac:(lia)) as [H|H]; rewrite H;
    constructor; apply IH; lia.
Qed.

Ltac ins :=
  repeat first
    [ rewrite list_lookup_total_insert_eq by (rewrite ?length_insert; lia)
    | rewrite list_lookup_total_insert_ne by lia ].

Lemma siftdown_loop_spec s x fuel : forall heap pos,
  pos <= fuel -> pos < length heap -> in_subtree s pos ->
  heap_but_up s (<[pos := x]> heap) pos ->
  let r := heapq.siftdown_loop fuel heap s pos x in
  heap_from s (<[snd r := x]> (fst r))
  /\ <[snd r := x]> (fst r) ≡ₚ <[pos := x]> heap
  /\ length (fst r) = length heap /\ snd r < length heap.
Proof.
  induction fuel as [|fuel IH]; intros heap pos Hfuel Hpos Hsub [Q1 Q2];
    cbn zeta;
    cbn [heapq.siftdown_loop fst snd].
  - split; [|split; [reflexivity|split; [reflexivity|lia]]]. intros i j Hi Hj Hlt. apply Q1; try done. lia.
  - destruct (Nat.ltb_spec s pos) as [Hs|Hs]; cbn [fst snd].
    2:{ split; [|split; [reflexivity|split; [reflexivity|lia]]]. intros i j Hi Hj Hlt. apply Q1; try done. lia. }
    pose proof (div2_parent pos ltac:(lia)) as Hpar.
    set (ppos := (pos - 1) / 2) in *.
    clearbody ppos.
    assert (ppos < pos) as Hpp by lia.
    pose proof (in_subtree_parent _ _ _ Hsub Hs Hpar) as Hsub'.
    pose proof (in_subtree_le _ _ Hsub') as Hsp'.
    destruct (heapq.lt x (heap !!! ppos)) eqn:Hlt; cbn [fst snd].
    2:{ split; [|split; [reflexivity|split; [reflexivity|lia]]]. intros i j Hi Hj Hj'.
        destruct (decide (j = pos)) as [->|Hne]; [|by apply Q1].
        assert (i = ppos) as -> by lia.
        ins. exact Hlt. }
    rewrite length_insert in *.
    specialize (IH (<[pos := heap !!! ppos]> heap) ppos).
    rewrite length_insert in IH.
    destruct IH as (H1 & H2 & H3 & H4); [lia|lia|done| |].
    + split.
      * intros i j Hi Hj Hj' Hne. rewrite !length_insert in Hj'.
        destruct (decide (i = ppos)) as [->|Hi'].
        -- ins. destruct (decide (j = pos)) as [->|Hjp].
           ++ ins. by apply lt_ile.
           ++ ins. eapply ile_trans; [by apply lt_ile|].
              specialize (Q1 ppos j Hi Hj Hj' Hjp). revert Q1. by ins.
        -- destruct (decide (i = pos)) as [->|Hip].
           ++ ins. specialize (Q2 Hs j Hj Hj'). revert Q2. by ins.
           ++ assert (j <> pos) as Hjp.
              { intros ->. apply Hi'. lia. }
              specialize (Q1 i j Hi Hj Hj' Hjp). revert Q1. by ins.
      * intros Hsp j Hj Hj'. rewrite !length_insert in Hj'.
        pose proof (div2_parent ppos ltac:(lia)) as Hgp.
        set (gpos := (ppos - 1) / 2) in *. clearbody gpos.
        pose proof (in_subtree_le _ _ (in_subtree_parent _ _ _ Hsub' Hsp Hgp)).
        assert (ile (heap !!! gpos) (heap !!! ppos)) as Hgpp.
        { specialize (Q1 gpos ppos ltac:(lia) Hgp
                        ltac:(lia) ltac:(lia)). revert Q1. by ins. }
        destruct (decide (j = pos)) as [->|Hjp]; [by ins|].
        ins. eapply ile_trans; [exact Hgpp|].
        specialize (Q1 ppos j ltac:(lia) Hj Hj' Hjp). revert Q1. by ins.
    + split; [done|]. split; [|split; [done|lia]].
      rewrite H2.
      rewrite <- (list_insert_insert_eq heap pos (heap !!! ppos) x).
      apply Permutation_insert_swap.
      * by rewrite list_lookup_insert_eq by lia.
      * rewrite list_lookup_insert_ne by lia.
        apply list_lookup_lookup_total_lt. lia.
Qed.

Lemma siftdown_spec s heap pos :
  pos < length heap -> in_subtree s pos -> heap_but_up s heap pos ->
  heap_from s (heapq._siftdown heap s pos)
  /\ heapq._siftdown heap s pos ≡ₚ heap
  /\ length (heapq._siftdown heap s pos) = length heap.
Proof.
  intros Hpos Hsub Hq. unfold heapq._siftdown.
  assert (<[pos := heap !!! pos]> heap = heap) as Hid.
  { apply list_insert_id. by apply list_lookup_lookup_total_lt. }
  pose proof (siftdown_loop_spec s (heap !!! pos) pos heap pos) as H.
  rewrite Hid in H. cbn zeta in H.
  destruct (heapq.siftdown_loop pos heap s pos (heap !!! pos)) as [h' p'].
  simpl in H. destruct H as (H1 & H2 & H3 & H4); try done.
  split; [done|]. split; [done|]. by rewrite length_insert.
Qed.

(** [heappush] keeps a heap a heap and adds the entry. *)
Lemma heappush_spec heap x :
  is_heap heap ->
  is_heap (heapq.heappush heap x) /\ heapq.heappush heap x ≡ₚ x :: heap.
Proof.
  intros Hh. unfold heapq.heappush.
  rewrite length_app. simpl.
  replace (length heap + 1 - 1) with (length heap) by lia.
  destruct (siftdown_spec 0 (heap ++ [x]) (length heap)) as (H1 & H2 & _).
  - rewrite length_app. simpl. lia.
  - apply in_subtree_0.
  - split.
    + intros i j _ Hj Hlt Hne. rewrite length_app in Hlt. simpl in Hlt.
      rewrite !lookup_total_app_l by lia. apply Hh; [lia|done|lia].
    + intros _ j Hj Hlt. rewrite length_app in Hlt. simpl in Hlt. lia.
  - split; [done|]. rewrite H2. by rewrite Permutation_app_comm.
Qed.

(** ** [_siftup]: an entry moves down to a leaf, then up to its place *)

Lemma siftup_loop_spec s x fuel : forall heap pos,
  pos < length heap -> in_subtree s pos -> length heap <= fuel + pos ->
  heap_but_down s (<[pos := x]> heap) pos ->
  let r := heapq.siftup_loop fuel heap (length heap) pos (2 * pos + 1) in
  heap_but_up s (<[snd r := x]> (fst r)) (snd r)
  /\ in_subtree s (snd r)
  /\ <[snd r := x]> (fst r) ≡ₚ <[pos := x]> heap
  /\ length (fst r) = length heap /\ snd r < length heap.
Proof.
  induction fuel as [|fuel IH]; intros heap pos Hpos Hsub Hfuel [R1 R2];
    cbn zeta; cbn [heapq.siftup_loop fst snd].
  - split; [|split; [done|split; [reflexivity|split; [reflexivity|lia]]]].
    rewrite length_insert in *.
    split; [|intros; lia].
    intros i j Hi Hj Hlt Hne. rewrite length_insert in Hlt.
    apply R1; try done; lia.
  - rewrite length_insert in *.
    destruct (Nat.ltb_spec (2 * pos + 1) (length heap)) as [Hc|Hc];
      cbn [fst snd].
    2:{ split; [|split; [done|split; [reflexivity|split; [reflexivity|lia]]]].
        split; [|intros; rewrite length_insert in *; lia].
        intros i j Hi Hj Hlt Hne. rewrite length_insert in Hlt.
        apply R1; try done; lia. }
    set (c := if Nat.ltb (2 * pos + 1 + 1) (length heap)
                 && negb (heapq.lt (heap !!! (2 * pos + 1))
                            (heap !!! (2 * pos + 1 + 1)))
              then 2 * pos + 1 + 1 else 2 * pos + 1).
    assert ((c = 2 * pos + 1 \/ c = 2 * pos + 2) /\ c < length heap
            /\ forall o, o = 2 * pos + 1 \/ o = 2 * pos + 2 ->
                 o < length heap -> o <> c ->
                 ile (heap !!! c) (heap !!! o)) as (Hcc & Hclt & Hmin).
    { unfold c.
      destruct (Nat.ltb_spec (2 * pos + 1 + 1) (length heap)) as [Hr|Hr];
        simpl.
      - destruct (heapq.lt _ _) eqn:Elt; simpl.
        + split; [lia|]. split; [lia|]. intros o Ho Holt Hne.
          replace o with (2 * pos + 1 + 1) by lia. by apply lt_ile.
        + split; [lia|]. split; [lia|]. intros o Ho Holt Hne.
          replace o with (2 * pos + 1) by lia. exact Elt.
      - split; [lia|]. split; [lia|]. intros o Ho Holt Hne. lia. }
    clearbody c.
    specialize (IH (<[pos := heap !!! c]> heap) c).
    rewrite length_insert in IH.
    destruct IH as (H1 & H2 & H3 & H4 & H5).
    + lia.
    + destruct Hcc as [-> | ->]; by constructor.
    + lia.
    + pose proof (in_subtree_le _ _ Hsub) as Hsle.
      split.
      * intros i j Hi Hj Hlt Hic Hjc. rewrite !length_insert in Hlt.
        destruct (decide (i = pos)) as [->|Hip].
        -- ins. specialize (Hmin j Hj Hlt Hjc). done.
        -- destruct (decide (j = pos)) as [->|Hjp].
           ++ ins. specialize (R2 ltac:(lia) c Hcc Hclt).
              revert R2. replace ((pos - 1) / 2) with i
                by (symmetry; by apply div2_child).
              by ins.
           ++ ins. specialize (R1 i j Hi Hj Hlt Hip Hjp). revert R1. by ins.
      * intros Hsc j Hj Hlt. rewrite !length_insert in Hlt.
        replace ((c - 1) / 2) with pos by (symmetry; by apply div2_child).
        ins. specialize (R1 c j ltac:(lia) Hj Hlt ltac:(lia) ltac:(lia)).
        revert R1. by ins.
    + split; [done|]. split; [done|]. split; [|split; [done|lia]].
      rewrite H3.
      rewrite <- (list_insert_insert_eq heap pos (heap !!! c) x).
      apply Permutation_insert_swap.
      * by rewrite list_lookup_insert_eq by lia.
      * rewrite list_lookup_insert_ne by lia.
        apply list_lookup_lookup_total_lt. lia.
Qed.

Lemma siftup_spec s heap :
  s < length heap -> heap_from (S s) heap ->
  heap_from s (heapq._siftup heap s)
  /\ heapq._siftup heap s ≡ₚ heap
  /\ length (heapq._siftup heap s) = length heap.
Proof.
  intros Hs Hh. unfold heapq._siftup.
  assert (<[s := heap !!! s]> heap = heap) as Hid.
  { apply list_insert_id. by apply list_lookup_lookup_total_lt. }
  pose proof (siftup_loop_spec s (heap !!! s) (length heap) heap s Hs
                (sub_root s) ltac:(lia)) as H.
  rewrite Hid in H. cbn zeta in H.
  destruct (heapq.siftup_loop _ heap _ s _) as [h' p'].
  simpl in H. destruct H as (H1 & H2 & H3 & H4 & H5).
  { split; [|intros; lia]. intros i j Hi Hj Hlt Hne _. apply Hh; [lia|done..]. }
  destruct (siftdown_spec s (<[p' := heap !!! s]> h') p') as (G1 & G2 & G3);
    [by rewrite length_insert; lia|done|done|].
  split; [done|]. split; [by rewrite G2|].
  by rewrite G3, length_insert.
Qed.

(** [heapify] turns any list into a heap with the same entries. *)
Lemma heapify_loop_spec n : forall heap,
  n <= length heap -> heap_from n heap ->
  let h := fold_left heapq._siftup (rev (seq 0 n)) heap in
  is_heap h /\ h ≡ₚ heap /\ length h = length heap.
Proof.
  induction n as [|n IH]; intros heap Hn Hh; cbn zeta.
  - simpl. done.
  - rewrite seq_S, rev_app_distr. simpl.
    destruct (siftup_spec n heap) as (H1 & H2 & H3); [lia|done|].
    destruct (IH (heapq._siftup heap n)) as (G1 & G2 & G3); [lia|done|].
    split; [done|]. split; [by rewrite G2|]. by rewrite G3.
Qed.

Lemma heapify_spec x :
  is_heap (heapq.heapify x) /\ heapq.heapify x ≡ₚ x.
Proof.
  unfold heapq.heapify.
  destruct (heapify_loop_spec (length x / 2) x) as (H1 & H2 & _).
  - apply div2_le.
  - intros i j Hi Hj Hlt. pose proof (div2_children _ _ Hi). lia.
  - done.
Qed.

(** [heappop] on a non-empty heap returns the least entry and leaves a
    heap of the others. *)
Lemma heappop_spec heap :
  is_heap heap -> heap <> [] ->
  exists m rest, heapq.heappop heap = Some (m, rest)
    /\ is_heap rest /\ heap ≡ₚ m :: rest
    /\ forall y, y ∈ heap -> ile m y.
Proof.
  intros Hh Hne. unfold heapq.heappop.
  destruct (rev heap) as [|lastelt rrest] eqn:Er.
  { apply (f_equal (@rev _)) in Er. rewrite rev_involutive in Er. done. }
  assert (heap = rev rrest ++ [lastelt]) as Hheap.
  { apply (f_equal (@rev _)) in Er. by rewrite rev_involutive in Er. }
  assert (forall y, y ∈ heap -> ile (heap !!! 0) y) as Hmin.
  { intros y Hy. apply list_elem_of_lookup in Hy as [i Hi].
    pose proof (lookup_lt_Some _ _ _ Hi).
    apply list_lookup_total_correct in Hi as <-. by apply heap_root_min. }
  destruct (rev rrest) as [|returnitem mid] eqn:Em.
  - exists lastelt, []. subst heap. simpl in *.
    split; [done|]. split; [|split; [done|done]].
    intros i j _ _ Hlt. simpl in Hlt. lia.
  - exists returnitem. eexists. split; [reflexivity|].
    subst heap. simpl in *.
    destruct (siftup_spec 0 (lastelt :: mid)) as (H1 & H2 & H3);
      [simpl; lia| |].
    + intros i j Hi Hj Hlt. simpl in Hlt.
      specialize (Hh i j ltac:(lia) Hj).
      simpl in Hh. rewrite length_app in Hh. simpl in Hh.
      specialize (Hh ltac:(lia)).
      destruct i as [|i]; [lia|]. destruct j as [|j]; [lia|].
      change ((returnitem :: mid ++ [lastelt]) !!! S i)
        with ((mid ++ [lastelt]) !!! i) in Hh.
      change ((returnitem :: mid ++ [lastelt]) !!! S j)
        with ((mid ++ [lastelt]) !!! j) in Hh.
      change ((lastelt :: mid) !!! S i) with (mid !!! i).
      change ((lastelt :: mid) !!! S j) with (mid !!! j).
      revert Hh. by rewrite !lookup_total_app_l by lia.
    + split; [done|]. split; [|done].
      rewrite H2. constructor.
      by rewrite Permutation_app_comm.
Qed.

(** ** The store *)

Lemma run_None ops : foldl (fun o x => st ← o; step st x) None ops = None.
Proof. induction ops; simpl; auto. Qed.

Lemma run_cons o ops st : run (o :: ops) st = st' ← step st o; run ops st'.
Proof.
  unfold run. simpl. destruct (step st o); [done|]. simpl. apply run_None.
Qed.

Lemma run_app ops1 ops2 st :
  run (ops1 ++ ops2) st = st' ← run ops1 st; run ops2 st'.
Proof.
  unfold run. rewrite foldl_app.
  destruct (foldl _ (Some st) ops1); [done|]. simpl. apply run_None.
Qed.

(** ** What the cuckoo tables hold *)

Lemma entry_set1 c pos kv k v :
  entry (set_table1 c pos kv) k v -> entry c k v \/ kv = (k, v).
Proof.
  intros [[i H]|[i H]]; [|left; right; eauto].
  cbn [cuckoo_table1 set_table1] in H.
  apply list_lookup_insert_Some in H as [(_ & Heq & _)|(_ & H)].
  - right. by simplify_eq.
  - left. left. eauto.
Qed.

Lemma entry_set2 c pos kv k v :
  entry (set_table2 c pos kv) k v -> entry c k v \/ kv = (k, v).
Proof.
  intros [[i H]|[i H]]; [left; left; eauto|].
  cbn [cuckoo_table2 set_table2] in H.
  apply list_lookup_insert_Some in H as [(_ & Heq & _)|(_ & H)].
  - right. by simplify_eq.
  - left. right. eauto.
Qed.

Lemma slot_total_Some (t : list (option (string * string))) i kv :
  t !!! i = Some kv -> t !! i = Some (Some kv).
Proof.
  rewrite list_lookup_total_alt. destruct (t !! i) as [s|]; simpl; [|done].
  by intros ->.
Qed.

Lemma cuckoo_iteration_entries c k v :
  match cuckoo_iteration c k v with
  | Return c' => forall k' v', entry c' k' v' -> entry c k' v' \/ (k', v') = (k, v)
  | Next c' k2 v2 =>
      entry c k2 v2
      /\ forall k' v', entry c' k' v' -> entry c k' v' \/ (k', v') = (k, v)
  end.
Proof.
  destruct (cuckoo_iteration_cases c k v)
    as [[-> _] | (k1 & v1 & E1 & _ & [[-> _] | (k2 & v2 & E2 & _ & ->)])].
  - intros k' v' H. apply entry_set1 in H. naive_solver.
  - intros k' v' H. apply entry_set2 in H as [H|H].
    + apply entry_set1 in H. naive_solver.
    + left. left. exists (cuckoo_hash1 k). apply slot_total_Some.
      by simplify_eq.
  - split.
    + right. exists (cuckoo_hash2 k1). by apply slot_total_Some.
    + intros k' v' H. apply entry_set2 in H as [H|H].
      * apply entry_set1 in H. naive_solver.
      * left. left. exists (cuckoo_hash1 k). apply slot_total_Some.
        by simplify_eq.
Qed.

Lemma cuckoo_insert_loop_entries n : forall c k v k' v',
  entry (snd (cuckoo_insert_loop n c k v)) k' v' ->
  entry c k' v' \/ (k', v') = (k, v).
Proof.
  induction n as [|n IH]; intros c k v k' v' H; simpl in *; [by left|].
  pose proof (cuckoo_iteration_entries c k v) as Hit.
  destruct (cuckoo_iteration c k v) as [c1|c1 k2 v2]; simpl in *; [by auto|].
  destruct Hit as [H2 Hc1]. apply IH in H as [H|H]; [by auto|].
  left. by simplify_eq.
Qed.

Lemma cuckoo_insert_entries c k v n k' v' :
  entry (snd (cuckoo_insert c k v n)) k' v' ->
  entry c k' v' \/ (k', v') = (k, v).
Proof.
  unfold cuckoo_insert.
  pose proof (cuckoo_insert_loop_entries n c k v k' v') as H.
  by destruct (cuckoo_insert_loop n c k v).
Qed.

Lemma cuckoo_lookup_entry c k v : cuckoo_lookup c k = Some v -> entry c k v.
Proof.
  unfold cuckoo_lookup.
  destruct (cuckoo_table1 c !!! cuckoo_hash1 k) as [[k1 v1]|] eqn:E1.
  - destruct (String.eqb_spec k1 k) as [->|Hne].
    + intros [= ->]. left. eexists. by apply slot_total_Some.
    + destruct (cuckoo_table2 c !!! cuckoo_hash2 k) as [[k2 v2]|] eqn:E2;
        [|done].
      destruct (String.eqb_spec k2 k) as [->|Hne2]; [|done].
      intros [= ->]. right. eexists. by apply slot_total_Some.
  - destruct (cuckoo_table2 c !!! cuckoo_hash2 k) as [[k2 v2]|] eqn:E2;
      [|done].
    destruct (String.eqb_spec k2 k) as [->|Hne2]; [|done].
    intros [= ->]. right. eexists. by apply slot_total_Some.
Qed.

Lemma entry_empty k v : ~ entry cuckoo_empty k v.
Proof.
  intros [[i H]|[i H]]; unfold cuckoo_empty in H;
    cbn [cuckoo_table1 cuckoo_table2] in H;
    apply lookup_replicate in H; by destruct H.
Qed.

(** ** The heap of counts follows the counter *)

Lemma find_url_Some heap k : forall i0 i,
  find_url heap k i0 = Some i ->
  exists neg_count, i0 <= i /\ heap !! (i - i0) = Some (neg_count, k).
Proof.
  induction heap as [|[nc u] heap IH]; intros i0 i; simpl; [done|].
  destruct (String.eqb_spec u k) as [->|Hne].
  - intros [= <-]. exists nc. by rewrite Nat.sub_diag.
  - intros H. destruct (IH _ _ H) as (nc' & Hle & Hl). exists nc'.
    split; [lia|]. by replace (i - i0) with (S (i - S i0)) by lia.
Qed.

Lemma find_url_None heap k : forall i0,
  find_url heap k i0 = None -> forall e, e ∈ heap -> snd e <> k.
Proof.
  induction heap as [|[nc u] heap IH]; intros i0; simpl.
  - intros _ e He. by apply elem_of_nil in He.
  - destruct (String.eqb_spec u k) as [->|Hne]; [done|].
    intros H e He. apply elem_of_cons in He as [->|He]; [done|]. eauto.
Qed.

Lemma tracker_entry counter heap nc k :
  heap ≡ₚ heap_entry <$> map_to_list counter ->
  (nc, k) ∈ heap -> counter !! k = Some (- nc)%Z.
Proof.
  intros Hp Hin. rewrite Hp in Hin.
  apply list_elem_of_fmap in Hin as ([k' c] & Heq & Hin).
  apply elem_of_map_to_list in Hin. unfold heap_entry in Heq. simpl in Heq.
  injection Heq as -> ->. rewrite Hin. f_equal. lia.
Qed.

Lemma count_insert (m : gmap string Z) k c : count (<[k := c]> m) k = c.
Proof. unfold count. by rewrite lookup_insert_eq. Qed.

Lemma count_insert_ne (m : gmap string Z) k k' c :
  k <> k' -> count (<[k := c]> m) k' = count m k'.
Proof. intros. unfold count. by rewrite lookup_insert_ne. Qed.

Lemma update_frequency_tracker st k :
  tracker_inv (access_counter st) (most_frequent st) ->
  tracker_inv (access_counter (update_frequency st k))
    (most_frequent (update_frequency st k)).
Proof.
  intros [Hh Hp]. unfold update_frequency. cbn [access_counter most_frequent].
  rewrite count_insert.
  destruct (find_url (most_frequent st) k 0) as [i|] eqn:Ef.
  - destruct (find_url_Some _ _ _ _ Ef) as (nc & _ & Hi).
    rewrite Nat.sub_0_r in Hi.
    assert (access_counter st !! k = Some (- nc)%Z) as Hk.
    { eapply tracker_entry; [done|]. by eapply list_elem_of_lookup_2. }
    destruct (heapify_spec
                (<[i := ((- (count (access_counter st) k + 1))%Z, k)]>
                   (most_frequent st))) as [H1 H2].
    split; [done|]. rewrite H2.
    rewrite <- (insert_delete_eq (access_counter st)).
    rewrite map_to_list_insert by apply lookup_delete_eq.
    rewrite fmap_cons. unfold heap_entry at 1. simpl.
    rewrite insert_take_drop by (by eapply lookup_lt_Some).
    rewrite <- Permutation_middle. constructor.
    rewrite <- delete_take_drop.
    apply (inj (cons (nc, k))).
    rewrite <- (delete_Permutation _ _ _ Hi), Hp.
    rewrite <- (map_to_list_delete _ _ _ Hk). rewrite fmap_cons.
    unfold heap_entry at 1. simpl. by rewrite Z.opp_involutive.
  - assert (access_counter st !! k = None) as Hk.
    { destruct (access_counter st !! k) as [c|] eqn:E; [|done].
      exfalso. apply (find_url_None _ _ _ Ef ((- c)%Z, k)); [|done].
      rewrite Hp. apply list_elem_of_fmap. exists (k, c).
      split; [done|]. by apply elem_of_map_to_list. }
    destruct (heappush_spec (most_frequent st)
                ((- (count (access_counter st) k + 1))%Z, k) Hh) as [H1 H2].
    split; [done|]. rewrite H2, map_to_list_insert by done.
    rewrite fmap_cons. unfold heap_entry at 1. simpl. by rewrite Hp.
Qed.

(** ** The popularity query *)

Lemma popular_loop_spec (m : gmap string string) n : forall heap,
  is_heap heap ->
  (forall e, e ∈ heap -> is_Some (m !! snd e)) ->
  exists top rest,
    popular_loop n m heap = Some top
    /\ heap ≡ₚ (popular_entry <$> top) ++ rest
    /\ length top = Nat.min n (length heap)
    /\ StronglySorted (fun p q => ile (popular_entry p) (popular_entry q)) top
    /\ (forall p e, p ∈ top -> e ∈ rest -> ile (popular_entry p) e)
    /\ Forall (fun p => m !! short_url p = Some (original_url p)) top.
Proof.
  induction n as [|n IH]; intros heap Hh Hm.
  - exists [], heap. simpl. repeat split; auto; try constructor.
    intros p e Hp. by apply elem_of_nil in Hp.
  - destruct heap as [|e0 heap0].
    + destruct (IH [] Hh Hm) as (top & rest & H1 & H2 & H3 & H4 & H5 & H6).
      exists top, rest. simpl. rewrite H1. simpl in H3. rewrite Nat.min_0_r in *.
      done.
    + cbn [popular_loop]. remember (e0 :: heap0) as heap eqn:Eheap.
      assert (heap <> []) as Hne by (by subst).
      destruct (heappop_spec heap Hh Hne)
        as ([nc k] & heap' & Hpop & Hh' & Hperm & Hmin).
      assert (forall e, e ∈ heap' -> e ∈ heap) as Hsub.
      { intros e He. rewrite Hperm. by right. }
      destruct (IH heap' Hh') as (top & rest & H1 & H2 & H3 & H4 & H5 & H6).
      { auto. }
      destruct (Hm (nc, k)) as [url Hurl]. { rewrite Hperm. by left. }
      simpl in Hurl.
      exists (mkPopular k url (- nc) :: top), rest.
      assert (popular_entry (mkPopular k url (- nc)) = (nc, k)) as Hpe.
      { unfold popular_entry. simpl. by rewrite Z.opp_involutive. }
      assert (forall e, e ∈ (popular_entry <$> top) ++ rest ->
                        ile (nc, k) e) as Hle.
      { intros e He. rewrite <- H2 in He. auto. }
      split; [|split; [|split; [|split; [|split]]]].
      * rewrite Hpop. simpl. rewrite H1. simpl. by rewrite Hurl.
      * rewrite fmap_cons, Hpe. simpl. by rewrite Hperm, H2.
      * simpl. rewrite H3.
        apply Permutation_length in Hperm. rewrite Hperm. simpl. lia.
      * constructor; [done|]. apply Forall_forall. intros p Hp.
        rewrite Hpe. apply Hle. apply elem_of_app. left.
        by apply list_elem_of_fmap_2.
      * intros p e Hp He. apply elem_of_cons in Hp as [->|Hp]; [|by eauto].
        rewrite Hpe. apply Hle. apply elem_of_app. by right.
      * constructor; [done|done].
Qed.

(** ** The invariant of the store *)

Lemma store_inv_initial : store_inv initial.
Proof.
  split; unfold initial; simpl.
  - exists Leaf. split; [apply tree_inv_init|done].
  - intros k v H. by apply entry_empty in H.
  - split; [|by rewrite map_to_list_empty].
    intros i j _ _ Hj. simpl in Hj. lia.
  - intros k [c H]. by rewrite lookup_empty in H.
Qed.

Lemma put_spec st k v :
  store_inv st ->
  exists st', put st k v = Some st'
    /\ store_inv st'
    /\ url_map st' = <[k := v]> (url_map st)
    /\ access_counter st' = access_counter st
    /\ most_frequent st' = most_frequent st
    /\ cuckoo st' = snd (cuckoo_insert (cuckoo st) k v 100).
Proof.
  intros [(t & Ht & Hmap) Hc Htr Hcnt]. unfold put.
  destruct (tree_inv_insert _ _ k v Ht) as (T' & HT' & Ht').
  pose proof (cuckoo_insert_entries (cuckoo st) k v 100) as He.
  destruct (cuckoo_insert (cuckoo st) k v 100) as [b c'] eqn:Ec.
  rewrite HT'. simpl. eexists. split; [done|]. simpl in *.
  split; [|done]. split; simpl.
  - eexists. split; [done|]. rewrite <- Hmap. apply insert_tree_map.
    apply Ht.
  - intros k' v' H. apply He in H as [H|H].
    + destruct (decide (k = k')) as [->|Hne].
      * rewrite lookup_insert_eq. eauto.
      * rewrite lookup_insert_ne by done. eauto.
    + simplify_eq. rewrite lookup_insert_eq. eauto.
  - done.
  - intros k' H. destruct (decide (k = k')) as [->|Hne].
    + rewrite lookup_insert_eq. eauto.
    + rewrite lookup_insert_ne by done. eauto.
Qed.

Lemma update_frequency_inv st k :
  store_inv st -> is_Some (url_map st !! k) ->
  store_inv (update_frequency st k).
Proof.
  intros [Ht Hc Htr Hcnt] Hk. split.
  - done.
  - done.
  - by apply update_frequency_tracker.
  - intros k'. unfold update_frequency. cbn [access_counter url_map].
    destruct (decide (k = k')) as [->|Hne]; [done|].
    rewrite lookup_insert_ne by done. apply Hcnt.
Qed.

Lemma redirect_to_url_spec st k :
  store_inv st ->
  redirect_to_url st k =
    Some (if truthy (answer st k)
          then (RedirectResponse (default "" (answer st k)),
                update_frequency st k)
          else (HTTPException 404, st)).
Proof.
  intros [(t & Ht & Hmap) _ _ _]. unfold redirect_to_url, answer.
  rewrite (search_sim _ t) by apply Ht.
  rewrite lookup_tree_map by apply Ht. rewrite Hmap.
  destruct (truthy (url_map st !! k)) eqn:E1; simpl.
  - rewrite E1. simpl. destruct (url_map st !! k) as [v|]; [|done].
    simpl in *. by destruct (String.eqb v "").
  - destruct (truthy (cuckoo_lookup (cuckoo st) k)) eqn:E2; simpl.
    + destruct (cuckoo_lookup (cuckoo st) k) as [v|]; [|done].
      simpl in *. by destruct (String.eqb v "").
    + rewrite E1. destruct (url_map st !! k) as [v|]; [|done].
      simpl in *. by destruct (String.eqb v "").
Qed.

Lemma answer_in_dict st k :
  store_inv st -> truthy (answer st k) = true -> is_Some (url_map st !! k).
Proof.
  intros Hinv. unfold answer.
  destruct (truthy (url_map st !! k)) eqn:E1.
  - rewrite E1. destruct (url_map st !! k); [eauto|done].
  - destruct (truthy (cuckoo_lookup (cuckoo st) k)) eqn:E2.
    + destruct (cuckoo_lookup (cuckoo st) k) as [v|] eqn:E; [|done].
      intros _. eapply inv_cuckoo; [done|]. by apply cuckoo_lookup_entry.
    + by rewrite E1.
Qed.

Lemma redirect_to_url_inv st k r st' :
  store_inv st -> redirect_to_url st k = Some (r, st') -> store_inv st'.
Proof.
  intros Hinv. rewrite redirect_to_url_spec by done.
  destruct (truthy (answer st k)) eqn:E; intros [= <- <-]; [|done].
  apply update_frequency_inv; [done|]. by apply answer_in_dict.
Qed.

Lemma tracked_in_dict st e :
  store_inv st -> e ∈ most_frequent st -> is_Some (url_map st !! snd e).
Proof.
  intros Hinv He. destruct e as [nc k]. apply (inv_counted st Hinv).
  simpl. destruct (inv_tracker st Hinv) as [_ Hp].
  rewrite (tracker_entry _ _ _ _ Hp He). eauto.
Qed.

Lemma top_urls_total n st :
  store_inv st -> exists top, top_urls n st = Some (top, st).
Proof.
  intros Hinv. unfold top_urls.
  destruct (popular_loop_spec (url_map st)
              (Nat.min n (length (most_frequent st))) (most_frequent st))
    as (top & rest & H & _).
  - apply (inv_tracker st Hinv).
  - intros e. by apply tracked_in_dict.
  - rewrite H. simpl. eauto.
Qed.

Lemma step_spec st o :
  store_inv st -> exists st', step st o = Some st' /\ store_inv st'.
Proof.
  intros Hinv. destruct o as [k v|k|]; simpl.
  - destruct (put_spec st k v Hinv) as (st' & H & Hinv' & _). eauto.
  - rewrite redirect_to_url_spec by done. simpl.
    eexists. split; [done|].
    destruct (truthy (answer st k)) eqn:E; simpl; [|done].
    apply update_frequency_inv; [done|]. by apply answer_in_dict.
  - unfold get_popular_urls.
    destruct (top_urls_total 10 st Hinv) as [top ->]. simpl. eauto.
Qed.

Lemma run_spec ops : forall st,
  store_inv st -> exists st', run ops st = Some st' /\ store_inv st'.
Proof.
  induction ops as [|o ops IH]; intros st Hinv; [by exists st|].
  rewrite run_cons. destruct (step_spec st o Hinv) as (st1 & -> & Hinv1).
  simpl. auto.
Qed.

Lemma run_inv ops st st' :
  store_inv st -> run ops st = Some st' -> store_inv st'.
Proof.
  intros Hinv H. destruct (run_spec ops st Hinv) as (st'' & H' & Hinv').
  congruence.
Qed.

(** ** Lookups answered by the dict *)

(** A non-empty value of the dict is the answer, whatever the cuckoo tables
    and the tree hold. *)
Lemma redirect_to_url_dict st k v :
  url_map st !! k = Some v -> v <> "" ->
  redirect_to_url st k = Some (RedirectResponse v, update_frequency st k).
Proof.
  intros Hk Hv. apply String.eqb_neq in Hv.
  unfold redirect_to_url, truthy. rewrite Hk, Hv. simpl. rewrite Hv. simpl.
  by rewrite Hv.
Qed.

(** [shorten_url] never stores an empty value. *)
Lemma with_scheme_not_empty url : with_scheme url <> "".
Proof.
  unfold with_scheme.
  destruct (String.prefix "http://" url || String.prefix "https://" url)
    eqn:E; [|done].
  intros ->. done.
Qed.

(** What [shorten_url] stores under a short hash is what a lookup of that
    hash answers. *)
Lemma shorten_url_then_get ops st short_hash url :
  run ops initial = Some st ->
  exists st',
    shorten_url st short_hash url = Some st'
    /\ redirect_to_url st' short_hash
       = Some (RedirectResponse (with_scheme url),
               update_frequency st' short_hash).
Proof.
  intros Hrun.
  pose proof (run_inv ops initial st store_inv_initial Hrun) as Hinv.
  destruct (put_spec st short_hash (with_scheme url) Hinv)
    as (st' & Hput & _ & Hm & _).
  exists st'. split; [exact Hput|].
  apply redirect_to_url_dict; [|apply with_scheme_not_empty].
  rewrite Hm. apply lookup_insert_eq.
Qed.

Lemma step_url_map st o st' k :
  store_inv st -> step st o = Some st' -> puts_key k o = false ->
  url_map st' !! k = url_map st !! k.
Proof.
  intros Hinv Hstep Hk. destruct o as [k' v|k'|]; simpl in *.
  - destruct (put_spec st k' v Hinv) as (st1 & H1 & _ & Hm & _).
    rewrite H1 in Hstep. injection Hstep as <-. rewrite Hm.
    apply lookup_insert_ne. by destruct (String.eqb_spec k' k).
  - rewrite redirect_to_url_spec in Hstep by done. simpl in Hstep.
    injection Hstep as <-. by destruct (truthy (answer st k')).
  - unfold get_popular_urls in Hstep.
    destruct (top_urls_total 10 st Hinv) as [top Htop].
    rewrite Htop in Hstep. by injection Hstep as <-.
Qed.

Lemma run_url_map ops k : forall st st',
  store_inv st -> run ops st = Some st' ->
  forallb (fun o => negb (puts_key k o)) ops = true ->
  url_map st' !! k = url_map st !! k.
Proof.
  induction ops as [|o ops IH]; intros st st' Hinv Hrun Hk.
  - by injection Hrun as <-.
  - rewrite run_cons in Hrun. simpl in Hk.
    apply andb_true_iff in Hk as [Ho Hk]. apply negb_true_iff in Ho.
    destruct (step_spec st o Hinv) as (st1 & Hstep & Hinv1).
    rewrite Hstep in Hrun. simpl in Hrun.
    rewrite (IH st1 st' Hinv1 Hrun Hk). by eapply step_url_map.
Qed.

Lemma run_put ops k v st :
  store_inv st ->
  forallb (fun o => negb (puts_key k o)) ops = true ->
  exists st', run (Put k v :: ops) st = Some st'
    /\ store_inv st' /\ url_map st' !! k = Some v.
Proof.
  intros Hinv Hk.
  destruct (run_spec (Put k v :: ops) st Hinv) as (st' & Hrun & Hinv').
  exists st'. split; [done|]. split; [done|].
  rewrite run_cons in Hrun. simpl in Hrun.
  destruct (put_spec st k v Hinv) as (st1 & H1 & Hinv1 & Hm & _).
  rewrite H1 in Hrun. simpl in Hrun.
  rewrite (run_url_map ops k st1 st' Hinv1 Hrun Hk), Hm.
  apply lookup_insert_eq.
Qed.

(** ** What the store answers *)

(** C1, as stated, fails: written with the empty string into the initial
    store, the key ["0000515"] is answered with 404. *)
Lemma put_empty_then_get_404 :
  exists st,
    put initial "0000515" "" = Some st
    /\ redirect_to_url st "0000515" = Some (HTTPException 404, st).
Proof. eexists. split; (vm_compute; reflexivity). Qed.

(** C1 (amended): for a non-empty value [v], after [put k v] a lookup of
    [k] answers [v], and keeps answering [v] whatever else is done ([ops2]:
    lookups, popularity queries, writes of other keys) until [k] is written
    again; after a later [put k v2] with [v2] non-empty it answers [v2],
    again until the next write of [k]. *)
Theorem put_then_get ops1 ops2 ops3 k v v2 :
  v <> "" -> v2 <> "" ->
  forallb (fun o => negb (puts_key k o)) ops2 = true ->
  forallb (fun o => negb (puts_key k o)) ops3 = true ->
  exists st1 st2,
    run (ops1 ++ Put k v :: ops2) initial = Some st1
    /\ redirect_to_url st1 k
       = Some (RedirectResponse v, update_frequency st1 k)
    /\ run (Put k v2 :: ops3) st1 = Some st2
    /\ redirect_to_url st2 k
       = Some (RedirectResponse v2, update_frequency st2 k).
Proof.
  intros Hv Hv2 H2 H3.
  destruct (run_spec ops1 initial store_inv_initial) as (st0 & Hrun0 & Hinv0).
  destruct (run_put ops2 k v st0 Hinv0 H2) as (st1 & Hrun1 & Hinv1 & Hk1).
  destruct (run_put ops3 k v2 st1 Hinv1 H3) as (st2 & Hrun2 & Hinv2 & Hk2).
  exists st1, st2. split; [|split; [|split]].
  - by rewrite run_app, Hrun0.
  - by apply redirect_to_url_dict.
  - done.
  - by apply redirect_to_url_dict.
Qed.

Lemma put_then_get_witness :
  exists st1 st2,
    run ([Put "0000023" "https://a.example"]
           ++ Put "000000c" "https://b.example"
           :: [Get "000000c"; Put "0000023" "https://c.example"; Popular])
      initial = Some st1
    /\ redirect_to_url st1 "000000c"
       = Some (RedirectResponse "https://b.example",
               update_frequency st1 "000000c")
    /\ run (Put "000000c" "https://d.example" :: [Get "0000023"]) st1
       = Some st2
    /\ redirect_to_url st2 "000000c"
       = Some (RedirectResponse "https://d.example",
               update_frequency st2 "000000c").
Proof.
  apply (put_then_get [Put "0000023" "https://a.example"]
           [Get "000000c"; Put "0000023" "https://c.example"; Popular]
           [Get "0000023"] "000000c" "https://b.example" "https://d.example");
    [done|done|reflexivity|reflexivity].
Defined.

(** C5, as stated, fails: ["0000515"], ["0002682"] and ["0004ffe"] share
    both slots, so the third insert runs out of iterations; written with
    the empty string, the third key is then answered with 404. *)
Lemma cuckoo_failure_empty_value_404 :
  exists st st',
    run [Put "0000515" "https://a.example"; Put "0002682" "https://b.example"]
      initial = Some st
    /\ fst (cuckoo_insert (cuckoo st) "0004ffe" "" 100) = false
    /\ put st "0004ffe" "" = Some st'
    /\ redirect_to_url st' "0004ffe" = Some (HTTPException 404, st').
Proof.
  do 2 eexists. split; [|split; [|split]].
  - vm_compute. reflexivity.
  - vm_compute. reflexivity.
  - vm_compute. reflexivity.
  - vm_compute. reflexivity.
Qed.

(** C5 (amended): when [cuckoo_insert] reports failure during [put k v]
    with [v] non-empty, the put still succeeds and a following lookup of [k]
    answers [v].  The dict answers it, whatever tree the store holds; the
    store's tree holds [v] for [k] all the same. *)
Theorem put_survives_cuckoo_failure ops st k v :
  v <> "" ->
  run ops initial = Some st ->
  fst (cuckoo_insert (cuckoo st) k v 100) = false ->
  exists st',
    put st k v = Some st'
    /\ redirect_to_url st' k
       = Some (RedirectResponse v, update_frequency st' k)
    /\ (forall T, fst <$> redirect_to_url (with_tree st' T) k
                  = Some (RedirectResponse v))
    /\ RedBlackTree.search (url_tree st') k = Some (Some v).
Proof.
  intros Hv Hrun _.
  pose proof (run_inv ops initial st store_inv_initial Hrun) as Hinv.
  destruct (put_spec st k v Hinv) as (st' & Hput & Hinv' & Hm & _).
  assert (url_map st' !! k = Some v) as Hk.
  { rewrite Hm. apply lookup_insert_eq. }
  exists st'. split; [done|]. split; [by apply redirect_to_url_dict|].
  split.
  - intros T. rewrite (redirect_to_url_dict (with_tree st' T) k v).
    + reflexivity.
    + exact Hk.
    + exact Hv.
  - destruct (inv_tree st' Hinv') as (t & Ht & Htm).
    rewrite (search_sim _ t) by apply Ht.
    rewrite lookup_tree_map by apply Ht. by rewrite Htm, Hk.
Qed.

Lemma put_survives_cuckoo_failure_witness :
  let ops := [Put "0000515" "https://a.example";
              Put "0002682" "https://b.example"] in
  exists st st',
    run ops initial = Some st
    /\ fst (cuckoo_insert (cuckoo st) "0004ffe" "https://c.example" 100)
       = false
    /\ put st "0004ffe" "https://c.example" = Some st'
    /\ redirect_to_url st' "0004ffe"
       = Some (RedirectResponse "https://c.example",
               update_frequency st' "0004ffe")
    /\ RedBlackTree.search (url_tree st') "0004ffe"
       = Some (Some "https://c.example").
Proof.
  intros ops. pose (st := default initial (run ops initial)).
  assert (run ops initial = Some st) as Hrun by (vm_compute; reflexivity).
  assert (fst (cuckoo_insert (cuckoo st) "0004ffe" "https://c.example" 100)
          = false) as Hfail by (vm_compute; reflexivity).
  destruct (put_survives_cuckoo_failure ops st "0004ffe" "https://c.example")
    as (st' & H1 & H2 & _ & H3); [discriminate|exact Hrun|exact Hfail|].
  exists st, st'.
  exact (conj Hrun (conj Hfail (conj H1 (conj H2 H3)))).
Defined.

(** C6: in every reachable state a lookup of [k] returns.  When it finds
    the key, the count of [k] goes up by exactly 1 (a key not counted before
    enters the counter at 1), no other key's entry of the counter changes,
    no count goes down, and the heap holds [k] with its new count; when it
    answers 404, nothing changes at all.  A key found in none of the
    structures is answered with 404. *)
Theorem get_counts ops st k :
  run ops initial = Some st ->
  exists r st',
    redirect_to_url st k = Some (r, st')
    /\ match r with
       | RedirectResponse _ =>
           access_counter st' !! k
           = Some (count (access_counter st) k + 1)%Z
           /\ (access_counter st !! k = None ->
               access_counter st' !! k = Some 1%Z)
           /\ (forall k', k' <> k ->
                 access_counter st' !! k' = access_counter st !! k')
           /\ (forall k', (count (access_counter st) k'
                           <= count (access_counter st') k')%Z)
           /\ ((- (count (access_counter st) k + 1))%Z, k)
              ∈ most_frequent st'
       | HTTPException status_code => status_code = 404%Z /\ st' = st
       end
    /\ (url_map st !! k = None -> r = HTTPException 404).
Proof.
  intros Hrun.
  pose proof (run_inv ops initial st store_inv_initial Hrun) as Hinv.
  rewrite redirect_to_url_spec by done.
  destruct (truthy (answer st k)) eqn:E; do 2 eexists; (split; [done|]).
  - pose proof (update_frequency_tracker st k (inv_tracker st Hinv))
      as [_ Hperm].
    assert (access_counter (update_frequency st k) !! k
            = Some (count (access_counter st) k + 1)%Z) as Hk.
    { unfold update_frequency. cbn [access_counter]. apply lookup_insert_eq. }
    split.
    + split; [exact Hk|]. split; [|split; [|split]].
      * intros Hnone. rewrite Hk. unfold count. by rewrite Hnone.
      * intros k' Hne. unfold update_frequency. cbn [access_counter].
        by apply lookup_insert_ne.
      * intros k'. unfold update_frequency. cbn [access_counter].
        destruct (decide (k = k')) as [<-|Hne].
        -- rewrite count_insert. lia.
        -- rewrite count_insert_ne by done. lia.
      * rewrite Hperm. apply list_elem_of_fmap.
        exists (k, (count (access_counter st) k + 1)%Z).
        split; [done|]. by apply elem_of_map_to_list.
    + intros Hnone. destruct (answer_in_dict st k Hinv E) as [v Hv].
      congruence.
  - by split.
Qed.

Lemma get_counts_witness :
  let ops := [Put "000000c" "https://a.example"; Get "000000c"] in
  exists st r st',
    run ops initial = Some st
    /\ redirect_to_url st "000000c" = Some (r, st')
    /\ r = RedirectResponse "https://a.example"
    /\ access_counter st !! "000000c" = Some 1%Z
    /\ access_counter st' !! "000000c" = Some 2%Z.
Proof.
  intros ops. pose (st := default initial (run ops initial)).
  assert (run ops initial = Some st) as Hrun by (vm_compute; reflexivity).
  destruct (get_counts ops st "000000c" Hrun) as (r & st' & Hget & Hr & _).
  exists st, r, st'. split; [exact Hrun|]. split; [exact Hget|].
  assert (fst <$> redirect_to_url st "000000c"
          = Some (RedirectResponse "https://a.example")) as Hfst
    by (vm_compute; reflexivity).
  rewrite Hget in Hfst. cbn [fmap option_fmap option_map fst] in Hfst.
  injection Hfst as ->.
  destruct Hr as (Hr & _). split; [reflexivity|].
  split; [vm_compute; reflexivity|]. rewrite Hr. vm_compute. reflexivity.
Defined.





(** C10, as stated, fails: ["0000515"] and ["0002682"] share both slots;
    writing ["0000515"] a second time, now with the empty string, leaves
    its first value in the cuckoo tables, and the lookup answers that value
    although the dict and the tree hold the empty string. *)
Lemma get_empty_value_stale_answer :
  exists st,
    run [Put "0000515" "https://a.example"; Put "0002682" "https://b.example";
         Put "0000515" ""] initial = Some st
    /\ url_map st !! "0000515" = Some ""
    /\ RedBlackTree.search (url_tree st) "0000515" = Some (Some "")
    /\ redirect_to_url st "0000515"
       = Some (RedirectResponse "https://a.example",
               update_frequency st "0000515").
Proof.
  eexists. split; [|split; [|split]].
  - vm_compute. reflexivity.
  - vm_compute. reflexivity.
  - vm_compute. reflexivity.
  - vm_compute. reflexivity.
Qed.

(** C10 (amended): in every reachable state, a key whose value in the dict
    is the empty string is answered with 404, and nothing is counted,
    provided the cuckoo tables answer no non-empty value for it. *)
Theorem get_empty_value ops st k :
  run ops initial = Some st ->
  url_map st !! k = Some "" ->
  truthy (cuckoo_lookup (cuckoo st) k) = false ->
  redirect_to_url st k = Some (HTTPException 404, st).
Proof.
  intros Hrun Hk Hc.
  pose proof (run_inv ops initial st store_inv_initial Hrun) as Hinv.
  rewrite redirect_to_url_spec by done. unfold answer.
  rewrite Hk. cbn [truthy String.eqb negb]. by rewrite Hc.
Qed.

Lemma get_empty_value_witness :
  let ops := [Put "0000515" ""] in
  exists st,
    run ops initial = Some st
    /\ redirect_to_url st "0000515" = Some (HTTPException 404, st).
Proof.
  intros ops. pose (st := default initial (run ops initial)).
  assert (run ops initial = Some st) as Hrun by (vm_compute; reflexivity).
  exists st. split; [exact Hrun|].
  apply (get_empty_value ops st "0000515" Hrun).
  - vm_compute. reflexivity.
  - vm_compute. reflexivity.
Defined.

(** C3: ["000000c"] and ["0000023"] share slot 167 of table 1.  The second
    insert moves ["000000c"] to table 2; inserting ["000000c"] again looks
    at table 1 only, evicts ["0000023"] and leaves ["000000c"] in two
    slots, the one of table 2 with the value of the first insert. *)
Lemma cuckoo_reinsert_duplicates :
  let c := cuckoo_inserts [("000000c", "https://a.example");
                           ("0000023", "https://b.example");
                           ("000000c", "https://c.example")] cuckoo_empty in
  cuckoo_hash1 "000000c" = cuckoo_hash1 "0000023"
  /\ cuckoo_table1 c !! cuckoo_hash1 "000000c"
     = Some (Some ("000000c", "https://c.example"))
  /\ cuckoo_table2 c !! cuckoo_hash2 "000000c"
     = Some (Some ("000000c", "https://a.example"))
  /\ slots_holding c "000000c" = 2.
Proof. vm_compute. repeat split. Qed.

(** C8: with ["000000c"] moved to table 2 by the write of ["0000023"],
    writing ["000000c"] twice leaves it in two cuckoo slots, one of them
    with the value of the very first write; the tree holds the last
    value. *)
Lemma put_twice_stale_cuckoo_slot :
  exists st,
    run [Put "000000c" "https://a.example"; Put "0000023" "https://b.example";
         Put "000000c" "https://c.example"; Put "000000c" "https://d.example"]
      initial = Some st
    /\ cuckoo_table1 (cuckoo st) !! cuckoo_hash1 "000000c"
       = Some (Some ("000000c", "https://d.example"))
    /\ cuckoo_table2 (cuckoo st) !! cuckoo_hash2 "000000c"
       = Some (Some ("000000c", "https://a.example"))
    /\ slots_holding (cuckoo st) "000000c" = 2
    /\ RedBlackTree.search (url_tree st) "000000c"
       = Some (Some "https://d.example").
Proof.
  eexists. split; [|split; [|split; [|split]]].
  - vm_compute. reflexivity.
  - vm_compute. reflexivity.
  - vm_compute. reflexivity.
  - vm_compute. reflexivity.
  - vm_compute. reflexivity.
Qed.

(** ** The cuckoo tables as a map *)

Lemma cuckoo_lookup_look c k :
  cuckoo_lookup c k
  = match look1 c k with Some v => Some v | None => look2 c k end.
Proof.
  unfold cuckoo_lookup, look1, look2.
  destruct (cuckoo_table1 c !!! cuckoo_hash1 k) as [[k1 v1]|]; [|done].
  by destruct (String.eqb k1 k).
Qed.

Lemma look1_set1 c k v k' :
  positioned c ->
  look1 (set_table1 c (cuckoo_hash1 k) (k, v)) k'
  = if decide (k' = k) then Some v
    else if decide (cuckoo_hash1 k' = cuckoo_hash1 k) then None
    else look1 c k'.
Proof.
  intros Hc. unfold look1. cbn [cuckoo_table1 set_table1].
  assert (cuckoo_hash1 k < length (cuckoo_table1 c)) as Hlt.
  { rewrite (pos_len1 _ Hc). apply cuckoo_hash1_lt. }
  destruct (decide (k' = k)) as [->|Hne].
  - rewrite list_lookup_total_insert_eq by done. by rewrite String.eqb_refl.
  - destruct (decide (cuckoo_hash1 k' = cuckoo_hash1 k)) as [->|Hh].
    + rewrite list_lookup_total_insert_eq by done.
      by destruct (String.eqb_spec k k'); [congruence|].
    + by rewrite list_lookup_total_insert_ne by done.
Qed.

Lemma look2_set2 c k v k' :
  positioned c ->
  look2 (set_table2 c (cuckoo_hash2 k) (k, v)) k'
  = if decide (k' = k) then Some v
    else if decide (cuckoo_hash2 k' = cuckoo_hash2 k) then None
    else look2 c k'.
Proof.
  intros Hc. unfold look2. cbn [cuckoo_table2 set_table2].
  assert (cuckoo_hash2 k < length (cuckoo_table2 c)) as Hlt.
  { rewrite (pos_len2 _ Hc). apply cuckoo_hash2_lt. }
  destruct (decide (k' = k)) as [->|Hne].
  - rewrite list_lookup_total_insert_eq by done. by rewrite String.eqb_refl.
  - destruct (decide (cuckoo_hash2 k' = cuckoo_hash2 k)) as [->|Hh].
    + rewrite list_lookup_total_insert_eq by done.
      by destruct (String.eqb_spec k k'); [congruence|].
    + by rewrite list_lookup_total_insert_ne by done.
Qed.

Lemma look2_set1 c p kv k' : look2 (set_table1 c p kv) k' = look2 c k'.
Proof. done. Qed.

Lemma look1_set2 c p kv k' : look1 (set_table2 c p kv) k' = look1 c k'.
Proof. done. Qed.

(** A slot that does not hold [k'] answers no probe for [k']. *)
Lemma look1_other c k k' :
  cuckoo_hash1 k' = cuckoo_hash1 k ->
  (cuckoo_table1 c !!! cuckoo_hash1 k = None
   \/ exists k1 v1, cuckoo_table1 c !!! cuckoo_hash1 k = Some (k1, v1)
                    /\ k1 <> k') ->
  look1 c k' = None.
Proof.
  intros Hh H. unfold look1. rewrite Hh.
  destruct H as [->|(k1 & v1 & -> & Hne)]; [done|].
  by destruct (String.eqb_spec k1 k').
Qed.

Lemma look2_other c k k' :
  cuckoo_hash2 k' = cuckoo_hash2 k ->
  (cuckoo_table2 c !!! cuckoo_hash2 k = None
   \/ exists k1 v1, cuckoo_table2 c !!! cuckoo_hash2 k = Some (k1, v1)
                    /\ k1 <> k') ->
  look2 c k' = None.
Proof.
  intros Hh H. unfold look2. rewrite Hh.
  destruct H as [->|(k1 & v1 & -> & Hne)]; [done|].
  by destruct (String.eqb_spec k1 k').
Qed.

Lemma look1_stored c k :
  positioned c -> (is_Some (look1 c k) <-> stored (cuckoo_table1 c) k).
Proof.
  intros Hc. rewrite (stored1_iff c k Hc). unfold look1. split.
  - destruct (cuckoo_table1 c !!! cuckoo_hash1 k) as [[k1 v1]|];
      [|by intros [? ?]].
    destruct (String.eqb_spec k1 k) as [->|]; [eauto|by intros [? ?]].
  - intros [v ->]. rewrite String.eqb_refl. eauto.
Qed.

Lemma look2_stored c k :
  positioned c -> (is_Some (look2 c k) <-> stored (cuckoo_table2 c) k).
Proof.
  intros Hc. rewrite (stored2_iff c k Hc). unfold look2. split.
  - destruct (cuckoo_table2 c !!! cuckoo_hash2 k) as [[k1 v1]|];
      [|by intros [? ?]].
    destruct (String.eqb_spec k1 k) as [->|]; [eauto|by intros [? ?]].
  - intros [v ->]. rewrite String.eqb_refl. eauto.
Qed.

Lemma look1_slot c k k1 v1 :
  cuckoo_table1 c !!! cuckoo_hash1 k = Some (k1, v1) ->
  cuckoo_hash1 k1 = cuckoo_hash1 k -> look1 c k1 = Some v1.
Proof. intros H Hh. unfold look1. by rewrite Hh, H, String.eqb_refl. Qed.

Lemma look2_slot c k k1 v1 :
  cuckoo_table2 c !!! cuckoo_hash2 k = Some (k1, v1) ->
  cuckoo_hash2 k1 = cuckoo_hash2 k -> look2 c k1 = Some v1.
Proof. intros H Hh. unfold look2. by rewrite Hh, H, String.eqb_refl. Qed.

(** The hash of the occupant of a slot names that slot. *)
Lemma slot1_hash c k k1 v1 :
  positioned c ->
  cuckoo_table1 c !!! cuckoo_hash1 k = Some (k1, v1) ->
  cuckoo_hash1 k1 = cuckoo_hash1 k.
Proof.
  intros Hc H. symmetry. apply (pos_tab1 _ Hc _ _ v1). rewrite <- H.
  apply slot_total. rewrite (pos_len1 _ Hc). apply cuckoo_hash1_lt.
Qed.

Lemma slot2_hash c k k1 v1 :
  positioned c ->
  cuckoo_table2 c !!! cuckoo_hash2 k = Some (k1, v1) ->
  cuckoo_hash2 k1 = cuckoo_hash2 k.
Proof.
  intros Hc H. symmetry. apply (pos_tab2 _ Hc _ _ v1). rewrite <- H.
  apply slot_total. rewrite (pos_len2 _ Hc). apply cuckoo_hash2_lt.
Qed.

(** ** One pass of [cuckoo_insert], seen through the lookups *)

Lemma one_table_look c k v :
  positioned c -> one_table c -> look1 c k = Some v -> look2 c k = None.
Proof.
  intros Hc Hu H1. destruct (look2 c k) as [w|] eqn:H2; [|done].
  destruct (Hu k).
  - apply (look1_stored c k Hc). by rewrite H1.
  - apply (look2_stored c k Hc). by rewrite H2.
Qed.

(** A pass that returns has bound [k] to [v] and moved nothing out of
    reach. *)
Lemma cuckoo_iteration_return_lookup c k v c' k' :
  positioned c ->
  cuckoo_iteration c k v = Return c' ->
  cuckoo_lookup c' k' = lookup_with c k v k'.
Proof.
  intros Hc Hit. unfold lookup_with. rewrite !cuckoo_lookup_look.
  destruct (cuckoo_iteration_cases c k v)
    as [[E H1] | (k1 & v1 & E1 & Hne1 & [[E H2] | (k2 & v2 & E2 & Hne2 & E)])];
    rewrite E in Hit; [| |done]; injection Hit as <-.
  - rewrite look1_set1, look2_set1 by done.
    destruct (decide (k' = k)) as [->|Hne]; [done|].
    destruct (decide (cuckoo_hash1 k' = cuckoo_hash1 k)) as [Hh|Hh]; [|done].
    rewrite (look1_other c k k' Hh); [done|].
    destruct H1 as [H1|[v0 H1]]; [by left|]. right. exists k, v0. auto.
  - pose proof (slot1_hash c k k1 v1 Hc E1) as Hh1.
    rewrite look1_set2, look1_set1 by done.
    rewrite look2_set2 by (by apply positioned_set1).
    rewrite look2_set1.
    destruct (decide (k' = k)) as [->|Hne]; [done|].
    destruct (decide (cuckoo_hash1 k' = cuckoo_hash1 k)) as [Hh|Hh].
    + destruct (decide (k' = k1)) as [->|Hne'].
      * by rewrite (look1_slot c k k1 v1 E1 Hh1).
      * rewrite (look1_other c k k' Hh) by (right; exists k1, v1; auto).
        destruct (decide (cuckoo_hash2 k' = cuckoo_hash2 k1)) as [Hg|Hg];
          [|done].
        rewrite (look2_other c k1 k' Hg); [done|].
        destruct H2 as [H2|[v0 H2]]; [by left|]. right. exists k1, v0. auto.
    + destruct (decide (k' = k1)) as [->|Hne']; [congruence|].
      destruct (decide (cuckoo_hash2 k' = cuckoo_hash2 k1)) as [Hg|Hg];
        [|done].
      rewrite (look2_other c k1 k' Hg); [done|].
      destruct H2 as [H2|[v0 H2]]; [by left|]. right. exists k1, v0. auto.
Qed.

(** A pass that goes on has bound [k] to [v]; what it carries away is
    still bound, in its hands. *)
Lemma cuckoo_iteration_next_lookup c k v c' k2 v2 k' :
  positioned c -> one_table c -> ~ stored (cuckoo_table2 c) k ->
  cuckoo_iteration c k v = Next c' k2 v2 ->
  lookup_with c' k2 v2 k' = lookup_with c k v k'.
Proof.
  intros Hc Hu Hk Hit. unfold lookup_with. rewrite !cuckoo_lookup_look.
  destruct (cuckoo_iteration_cases c k v)
    as [[E H1] | (k1 & v1 & E1 & Hne1 & [[E H2] | (k2' & v2' & E2 & Hne2 & E)])];
    rewrite E in Hit; [done|done|]. injection Hit as <- <- <-.
  cbn [cuckoo_table2 set_table1] in E2.
  pose proof (slot1_hash c k k1 v1 Hc E1) as Hh1.
  pose proof (slot2_hash c k1 k2' v2' Hc E2) as Hh2.
  assert (look2 c k2' = Some v2') as Hl2 by (by apply (look2_slot c k1)).
  assert (k2' <> k) as Hne.
  { intros ->. apply Hk. apply (look2_stored c k Hc). by rewrite Hl2. }
  assert (look1 c k2' = None) as Hl1.
  { destruct (look1 c k2') as [w|] eqn:Hw; [|done].
    by rewrite (one_table_look c k2' w Hc Hu Hw) in Hl2. }
  rewrite look1_set2, look1_set1 by done.
  rewrite look2_set2 by (by apply positioned_set1).
  rewrite look2_set1.
  destruct (decide (k' = k2')) as [->|Hne2'].
  - rewrite decide_False by done. by rewrite Hl1, Hl2.
  - destruct (decide (k' = k)) as [->|Hnek]; [done|].
    destruct (decide (cuckoo_hash1 k' = cuckoo_hash1 k)) as [Hh|Hh].
    + destruct (decide (k' = k1)) as [->|Hne'].
      * by rewrite (look1_slot c k k1 v1 E1 Hh1).
      * rewrite (look1_other c k k' Hh) by (right; exists k1, v1; auto).
        destruct (decide (cuckoo_hash2 k' = cuckoo_hash2 k1)) as [Hg|Hg];
          [|done].
        rewrite (look2_other c k1 k' Hg); [done|].
        right. exists k2', v2'. auto.
    + destruct (decide (k' = k1)) as [->|Hne']; [congruence|].
      destruct (decide (cuckoo_hash2 k' = cuckoo_hash2 k1)) as [Hg|Hg];
        [|done].
      rewrite (look2_other c k1 k' Hg); [done|].
      right. exists k2', v2'. auto.
Qed.

(** A pass that returns leaves no key in both tables. *)
Lemma cuckoo_iteration_return_one_table c k v c' :
  positioned c -> one_table c -> ~ stored (cuckoo_table2 c) k ->
  cuckoo_iteration c k v = Return c' -> one_table c'.
Proof.
  intros Hc Hu Hk Hit x Hx1 Hx2.
  destruct (cuckoo_iteration_cases c k v)
    as [[E H1] | (k1 & v1 & E1 & Hne1 & [[E H2] | (k2 & v2 & E2 & Hne2 & E)])];
    rewrite E in Hit; [| |done]; injection Hit as <-.
  - cbn [cuckoo_table2 set_table1] in Hx2.
    apply stored_set1 in Hx1; [|done].
    destruct Hx1 as [->|[_ Hx1]]; [by apply Hk|by eapply Hu].
  - pose proof (slot1_hash c k k1 v1 Hc E1) as Hh1.
    cbn [cuckoo_table1 set_table2] in Hx1.
    apply stored_set2 in Hx2; [|by apply positioned_set1].
    cbn [cuckoo_table2 set_table1] in Hx2.
    apply stored_set1 in Hx1; [|done].
    destruct Hx1 as [->|[Hh Hx1]].
    + destruct Hx2 as [->|[_ Hx2]]; [done|by apply Hk].
    + destruct Hx2 as [->|[_ Hx2]]; [done|]. by eapply Hu.
Qed.

(** The loop: whatever it ends with, the lookups are those of the tables
    it started from with [k] bound to [v], the pair in its hands
    counted in. *)
Lemma cuckoo_insert_loop_lookup n : forall c k v,
  positioned c -> one_table c -> ~ stored (cuckoo_table2 c) k ->
  match cuckoo_insert_loop n c k v with
  | (Placed, c') =>
      one_table c' /\ forall k', cuckoo_lookup c' k' = lookup_with c k v k'
  | (Exhausted k2 v2, c') =>
      one_table c'
      /\ (0 < n -> ~ stored (cuckoo_table1 c') k2
                   /\ ~ stored (cuckoo_table2 c') k2)
      /\ forall k', lookup_with c' k2 v2 k' = lookup_with c k v k'
  end.
Proof.
  induction n as [|n IH]; intros c k v Hc Hu Hk; simpl.
  - split; [done|]. split; [lia|done].
  - destruct (cuckoo_iteration c k v) as [c1|c1 k1 v1] eqn:Hit.
    + split; [by eapply cuckoo_iteration_return_one_table|].
      intros k'. by eapply cuckoo_iteration_return_lookup.
    + pose proof (cuckoo_iteration_positioned c k v Hc) as Hc1.
      rewrite Hit in Hc1.
      destruct (cuckoo_iteration_next_unique _ _ _ _ _ _ Hc Hu Hk Hit)
        as (Hu1 & Hk1 & Hk2).
      specialize (IH c1 k1 v1 Hc1 Hu1 Hk2).
      destruct n as [|n].
      * simpl. split; [done|]. split; [by intros _|].
        intros k'. by eapply cuckoo_iteration_next_lookup.
      * destruct (cuckoo_insert_loop (S n) c1 k1 v1) as [[|k2 v2] c2].
        -- destruct IH as [Hu2 IH]. split; [done|]. intros k'.
           rewrite IH. by eapply cuckoo_iteration_next_lookup.
        -- destruct IH as (Hu2 & Hn & IH). split; [done|].
           split; [intros _; apply Hn; lia|].
           intros k'. rewrite IH. by eapply cuckoo_iteration_next_lookup.
Qed.

(** ** Inserts of keys that are not in the tables *)

Lemma one_table_unique c : unique c = true -> one_table c.
Proof. intros H x. by apply unique_spec. Qed.

Lemma unique_one_table c : one_table c -> unique c = true.
Proof.
  intros Hu. unfold unique. apply forallb_forall. intros [[k v]|] Hin; [|done].
  apply negb_true_iff, storedb_false. intros H2. apply (Hu k); [|done].
  apply list_elem_of_In, list_elem_of_lookup in Hin as [i Hi]. by exists i, v.
Qed.

Lemma one_table_empty : one_table cuckoo_empty.
Proof.
  intros x (i & v & H) _. unfold cuckoo_empty in H.
  cbn [cuckoo_table1] in H. apply lookup_replicate in H. by destruct H.
Qed.

Lemma look_not_stored c k :
  positioned c ->
  ~ stored (cuckoo_table1 c) k -> ~ stored (cuckoo_table2 c) k ->
  cuckoo_lookup c k = None.
Proof.
  intros Hc H1 H2. rewrite cuckoo_lookup_look.
  destruct (look1 c k) as [v|] eqn:E1.
  { destruct H1. apply (look1_stored c k Hc). by rewrite E1. }
  destruct (look2 c k) as [v|] eqn:E2; [|done].
  destruct H2. apply (look2_stored c k Hc). by rewrite E2.
Qed.

Lemma stored_entry c k :
  stored (cuckoo_table1 c) k \/ stored (cuckoo_table2 c) k
  <-> exists v, entry c k v.
Proof.
  unfold stored, entry. split.
  - intros [(i & v & H)|(i & v & H)]; exists v; eauto.
  - intros (v & [[i H]|[i H]]); eauto.
Qed.

(** What [cuckoo_insert] does to the lookups, in tables that hold no key
    twice, for a key that is not in table 2. *)
Lemma cuckoo_insert_lookup c k v :
  positioned c -> one_table c -> ~ stored (cuckoo_table2 c) k ->
  match cuckoo_insert c k v 100 with
  | (true, c') =>
      one_table c' /\ forall k', cuckoo_lookup c' k' = lookup_with c k v k'
  | (false, c') =>
      one_table c'
      /\ exists k2 v2,
          lookup_with c k v k2 = Some v2
          /\ cuckoo_lookup c' k2 = None
          /\ forall k', k' <> k2 -> cuckoo_lookup c' k' = lookup_with c k v k'
  end.
Proof.
  intros Hc Hu Hk. unfold cuckoo_insert.
  pose proof (cuckoo_insert_loop_lookup 100 c k v Hc Hu Hk) as H.
  pose proof (cuckoo_insert_loop_positioned 100 c k v Hc) as Hc'.
  destruct (cuckoo_insert_loop 100 c k v) as [[|k2 v2] c']; simpl in *;
    [done|].
  destruct H as (Hu' & Hn & H). split; [done|]. exists k2, v2.
  destruct Hn as [Hn1 Hn2]; [lia|]. split; [|split].
  - rewrite <- H. unfold lookup_with. by rewrite decide_True.
  - by apply look_not_stored.
  - intros k' Hne. rewrite <- H. unfold lookup_with.
    by rewrite decide_False.
Qed.

(** Inserts of distinct keys, none of them in the tables, leave no key in
    two slots. *)
Lemma cuckoo_inserts_one_table ops : forall c,
  positioned c -> one_table c ->
  (forall k v, entry c k v -> k ∉ ops.*1) ->
  NoDup ops.*1 ->
  one_table (cuckoo_inserts ops c).
Proof.
  induction ops as [|[k v] ops IH]; intros c Hc Hu Hfresh Hnd; [done|].
  rewrite fmap_cons in Hnd. simpl in Hnd. apply NoDup_cons in Hnd as [Hk Hnd].
  unfold cuckoo_inserts. simpl. fold (cuckoo_inserts ops).
  assert (~ stored (cuckoo_table2 c) k) as Hk2.
  { intros (i & w & H). apply (Hfresh k w); [right; eauto|].
    rewrite fmap_cons. by left. }
  pose proof (cuckoo_insert_lookup c k v Hc Hu Hk2) as H.
  pose proof (cuckoo_insert_positioned c k v 100 Hc) as Hc'.
  pose proof (cuckoo_insert_entries c k v 100) as He.
  destruct (cuckoo_insert c k v 100) as [b c']. simpl in *.
  apply IH; [done| |  |done].
  - destruct b; apply H.
  - intros k' v' H'. apply He in H' as [H'|H'].
    + specialize (Hfresh _ _ H').
      by apply not_elem_of_cons in Hfresh as [_ ?].
    + by simplify_eq.
Qed.

(** At most one slot of a table can hold a given key, the one its hash
    names. *)
Lemma holds_true k s : holds k s = true <-> exists v, s = Some (k, v).
Proof.
  destruct s as [[k' v]|]; simpl.
  - destruct (String.eqb_spec k' k) as [->|Hne]; split; eauto; try done.
    intros (w & [= -> _]). done.
  - split; [done|]. by intros [? ?].
Qed.

Lemma holding_none k (t : list slot) :
  (forall i v, t !! i = Some (Some (k, v)) -> False) ->
  filter (fun s => holds k s = true) t = [].
Proof.
  induction t as [|x t IH]; intros H; [done|].
  rewrite filter_cons. destruct (decide (holds k x = true)) as [Hx|Hx].
  - apply holds_true in Hx as [v ->]. destruct (H 0 v). done.
  - apply IH. intros i v Hi. apply (H (S i) v). done.
Qed.

Lemma holding_le_1 k (t : list slot) : forall p,
  (forall i v, t !! i = Some (Some (k, v)) -> i = p) ->
  length (filter (fun s => holds k s = true) t) <= 1.
Proof.
  induction t as [|x t IH]; intros p H; [simpl; lia|].
  rewrite filter_cons. destruct (decide (holds k x = true)) as [Hx|Hx].
  - apply holds_true in Hx as [v ->].
    rewrite holding_none; [simpl; lia|].
    intros i w Hi. pose proof (H 0 v eq_refl). pose proof (H (S i) w Hi).
    lia.
  - apply (IH (pred p)). intros i v Hi. pose proof (H (S i) v Hi). lia.
Qed.

Lemma slots_holding_le_1 c k :
  positioned c -> one_table c -> slots_holding c k <= 1.
Proof.
  intros Hc Hu. unfold slots_holding.
  pose proof (holding_le_1 k (cuckoo_table1 c) (cuckoo_hash1 k)
                (fun i v => pos_tab1 c Hc i k v)) as H1.
  pose proof (holding_le_1 k (cuckoo_table2 c) (cuckoo_hash2 k)
                (fun i v => pos_tab2 c Hc i k v)) as H2.
  destruct (storedb (cuckoo_table1 c) k) eqn:Hs;
    [apply storedb_iff in Hs|apply storedb_false in Hs].
  - rewrite (holding_none k (cuckoo_table2 c)); [simpl; lia|].
    intros i v Hi. apply (Hu k Hs). by exists i, v.
  - rewrite (holding_none k (cuckoo_table1 c)); [simpl; lia|].
    intros i v Hi. apply Hs. by exists i, v.
Qed.

Lemma cuckoo_inserts_entries ops : forall c k v,
  entry (cuckoo_inserts ops c) k v -> entry c k v \/ (k, v) ∈ ops.
Proof.
  induction ops as [|[k0 v0] ops IH]; intros c k v H; [by left|].
  unfold cuckoo_inserts in H. simpl in H. fold (cuckoo_inserts ops) in H.
  apply IH in H as [H|H]; [|right; by right].
  apply cuckoo_insert_entries in H as [H|H]; [by left|].
  right. rewrite H. by left.
Qed.

Lemma cuckoo_lookup_empty k : cuckoo_lookup cuckoo_empty k = None.
Proof.
  destruct (cuckoo_lookup cuckoo_empty k) as [v|] eqn:E; [|done].
  apply cuckoo_lookup_entry in E. by apply entry_empty in E.
Qed.

Lemma cuckoo_inserts_lookup ops : forall c,
  positioned c -> one_table c ->
  (forall k v, entry c k v -> k ∉ ops.*1) ->
  NoDup ops.*1 ->
  all_placed ops c = true ->
  forall k,
    cuckoo_lookup (cuckoo_inserts ops c) k
    = match (list_to_map ops : gmap string string) !! k with
      | Some v => Some v
      | None => cuckoo_lookup c k
      end.
Proof.
  induction ops as [|[k0 v0] ops IH]; intros c Hc Hu Hfresh Hnd Hall k.
  { by rewrite list_to_map_nil, lookup_empty. }
  rewrite fmap_cons in Hnd. simpl in Hnd. apply NoDup_cons in Hnd as [Hk Hnd].
  unfold cuckoo_inserts. simpl. fold (cuckoo_inserts ops).
  assert (~ stored (cuckoo_table2 c) k0) as Hk2.
  { intros (i & w & H). apply (Hfresh k0 w); [right; eauto|].
    rewrite fmap_cons. by left. }
  pose proof (cuckoo_insert_lookup c k0 v0 Hc Hu Hk2) as H.
  pose proof (cuckoo_insert_positioned c k0 v0 100 Hc) as Hc'.
  pose proof (cuckoo_insert_entries c k0 v0 100) as He.
  simpl in Hall.
  destruct (cuckoo_insert c k0 v0 100) as [b c']. simpl in *.
  apply andb_true_iff in Hall as [-> Hall]. destruct H as [Hu' H].
  rewrite (IH c' Hc' Hu'); [| |done|done].
  - destruct (decide (k = k0)) as [->|Hne].
    + rewrite lookup_insert_eq.
      rewrite (not_elem_of_list_to_map_1 ops k0) by done.
      rewrite H. unfold lookup_with. by rewrite decide_True.
    + rewrite lookup_insert_ne by done.
      destruct (list_to_map ops !! k) as [w|]; [done|].
      rewrite H. unfold lookup_with. by rewrite decide_False.
  - intros k' v' H'. apply He in H' as [H'|H'].
    + specialize (Hfresh _ _ H').
      by apply not_elem_of_cons in Hfresh as [_ ?].
    + by simplify_eq.
Qed.

(** ** The cuckoo tables: what holds of [cuckoo_insert] and [cuckoo_lookup] *)

(** X1: after any sequence of [cuckoo_insert] calls on the empty tables,
    both tables still have [CUCKOO_SIZE] slots, and a pair stored in
    table 1 sits in the slot [cuckoo_hash1] names for its key, a pair
    stored in table 2 in the slot [cuckoo_hash2] names; both are below
    [CUCKOO_SIZE], so no access of either function is out of range. *)
Theorem cuckoo_slots_by_hash (ops : list (string * string)) :
  let c := cuckoo_inserts ops cuckoo_empty in
  length (cuckoo_table1 c) = CUCKOO_SIZE
  /\ length (cuckoo_table2 c) = CUCKOO_SIZE
  /\ (forall k, cuckoo_hash1 k < CUCKOO_SIZE /\ cuckoo_hash2 k < CUCKOO_SIZE)
  /\ (forall i k v, cuckoo_table1 c !! i = Some (Some (k, v)) ->
        i = cuckoo_hash1 k)
  /\ (forall i k v, cuckoo_table2 c !! i = Some (Some (k, v)) ->
        i = cuckoo_hash2 k).
Proof.
  intros c.
  assert (positioned c) as [H1 H2 H3 H4]
    by apply cuckoo_inserts_positioned, positioned_empty.
  split; [done|]. split; [done|]. split; [|by split].
  intros k. split; [apply cuckoo_hash1_lt|apply cuckoo_hash2_lt].
Qed.

(** X2: [cuckoo_lookup] only answers what was inserted: a value it
    returns for a key was passed to [cuckoo_insert] together with that
    key (so on the empty tables it returns None for every key). *)
Theorem cuckoo_lookup_inserted (ops : list (string * string)) k v :
  cuckoo_lookup (cuckoo_inserts ops cuckoo_empty) k = Some v ->
  (k, v) ∈ ops.
Proof.
  intros H.
  apply cuckoo_lookup_entry, cuckoo_inserts_entries in H as [H|H]; [|done].
  by apply entry_empty in H.
Qed.

Lemma cuckoo_lookup_inserted_witness :
  ("0000023", "https://b.example")
  ∈ [("000000c", "https://a.example"); ("0000023", "https://b.example")].
Proof.
  apply (cuckoo_lookup_inserted
           [("000000c", "https://a.example"); ("0000023", "https://b.example")]
           "0000023" "https://b.example").
  vm_compute. reflexivity.
Defined.

(** X3: in tables built by [cuckoo_insert] that hold no key in both
    tables, a [cuckoo_insert] of a key that is not in table 2 which
    returns True makes [cuckoo_lookup] answer the new value for that key,
    leaves the answer for every other key as it was - evicted pairs are
    found again in their other slot - and still leaves no key in both
    tables. *)
Theorem cuckoo_insert_then_lookup (ops : list (string * string)) k v c' :
  let c := cuckoo_inserts ops cuckoo_empty in
  unique c = true ->
  storedb (cuckoo_table2 c) k = false ->
  cuckoo_insert c k v 100 = (true, c') ->
  cuckoo_lookup c' k = Some v
  /\ (forall k', k' <> k -> cuckoo_lookup c' k' = cuckoo_lookup c k')
  /\ unique c' = true.
Proof.
  intros c Hu Hk Hins.
  assert (positioned c) as Hc
    by apply cuckoo_inserts_positioned, positioned_empty.
  apply one_table_unique in Hu. apply storedb_false in Hk.
  pose proof (cuckoo_insert_lookup c k v Hc Hu Hk) as H.
  rewrite Hins in H. destruct H as [Hu' H].
  split; [|split; [|by apply unique_one_table]].
  - rewrite H. unfold lookup_with. by rewrite decide_True.
  - intros k' Hne. rewrite H. unfold lookup_with. by rewrite decide_False.
Qed.

Lemma cuckoo_insert_then_lookup_witness :
  let c := cuckoo_inserts [("000000c", "https://a.example")] cuckoo_empty in
  let c' := snd (cuckoo_insert c "0000023" "https://b.example" 100) in
  cuckoo_lookup c' "0000023" = Some "https://b.example"
  /\ cuckoo_lookup c' "000000c" = Some "https://a.example"
  /\ cuckoo_table2 c' !! cuckoo_hash2 "000000c"
     = Some (Some ("000000c", "https://a.example")).
Proof.
  intros c c'.
  destruct (cuckoo_insert_then_lookup [("000000c", "https://a.example")]
              "0000023" "https://b.example" c') as (H1 & H2 & _).
  - vm_compute. reflexivity.
  - vm_compute. reflexivity.
  - vm_compute. reflexivity.
  - split; [exact H1|]. split.
    + rewrite H2 by discriminate. vm_compute. reflexivity.
    + vm_compute. reflexivity.
Defined.

(** X4: under the same conditions, a [cuckoo_insert] that returns False
    has lost exactly one pair: [cuckoo_lookup] returns None for one key
    that it answered before (or for the inserted key itself), and answers
    every other key as it did before, the inserted key with the new
    value. *)
Theorem cuckoo_insert_failure_loses_one (ops : list (string * string))
  k v c' :
  let c := cuckoo_inserts ops cuckoo_empty in
  unique c = true ->
  storedb (cuckoo_table2 c) k = false ->
  cuckoo_insert c k v 100 = (false, c') ->
  exists k2 v2,
    (if decide (k2 = k) then Some v else cuckoo_lookup c k2) = Some v2
    /\ cuckoo_lookup c' k2 = None
    /\ (forall k', k' <> k2 ->
          cuckoo_lookup c' k'
          = if decide (k' = k) then Some v else cuckoo_lookup c k')
    /\ unique c' = true.
Proof.
  intros c Hu Hk Hins.
  assert (positioned c) as Hc
    by apply cuckoo_inserts_positioned, positioned_empty.
  apply one_table_unique in Hu. apply storedb_false in Hk.
  pose proof (cuckoo_insert_lookup c k v Hc Hu Hk) as H.
  rewrite Hins in H. destruct H as (Hu' & k2 & v2 & H1 & H2 & H3).
  exists k2, v2. split; [exact H1|]. split; [exact H2|].
  split; [exact H3|by apply unique_one_table].
Qed.

Lemma cuckoo_insert_failure_loses_one_witness :
  let c := cuckoo_inserts [("0000515", "https://a.example");
                           ("0002682", "https://b.example")] cuckoo_empty in
  let c' := snd (cuckoo_insert c "0004ffe" "https://c.example" 100) in
  exists k2 v2,
    (if decide (k2 = "0004ffe") then Some "https://c.example"
     else cuckoo_lookup c k2) = Some v2
    /\ cuckoo_lookup c' k2 = None.
Proof.
  intros c c'.
  destruct (cuckoo_insert_failure_loses_one
              [("0000515", "https://a.example");
               ("0002682", "https://b.example")]
              "0004ffe" "https://c.example" c') as (k2 & v2 & H1 & H2 & _).
  - vm_compute. reflexivity.
  - vm_compute. reflexivity.
  - vm_compute. reflexivity.
  - exists k2, v2. exact (conj H1 H2).
Defined.

(** X5: when no key is inserted twice, no key ever occupies two slots:
    for every key at most one slot of the two tables holds it. *)
Theorem cuckoo_distinct_keys_one_slot (ops : list (string * string)) k :
  NoDup ops.*1 ->
  slots_holding (cuckoo_inserts ops cuckoo_empty) k <= 1
  /\ unique (cuckoo_inserts ops cuckoo_empty) = true.
Proof.
  intros Hnd.
  assert (positioned (cuckoo_inserts ops cuckoo_empty)) as Hc
    by apply cuckoo_inserts_positioned, positioned_empty.
  assert (one_table (cuckoo_inserts ops cuckoo_empty)) as Hu.
  { apply cuckoo_inserts_one_table;
      [apply positioned_empty|apply one_table_empty| |done].
    intros k' v' H. by apply entry_empty in H. }
  split; [by apply slots_holding_le_1|by apply unique_one_table].
Qed.

Lemma cuckoo_distinct_keys_one_slot_witness :
  slots_holding
    (cuckoo_inserts [("000000c", "https://a.example");
                     ("0000023", "https://b.example")] cuckoo_empty)
    "000000c" <= 1.
Proof.
  apply (cuckoo_distinct_keys_one_slot
           [("000000c", "https://a.example");
            ("0000023", "https://b.example")] "000000c").
  vm_compute. repeat constructor; set_solver.
Defined.

(** X6: when no key is inserted twice and every [cuckoo_insert] returned
    True, [cuckoo_lookup] answers every inserted key with its value and
    every other key with None. *)
Theorem cuckoo_distinct_keys_lookup (ops : list (string * string)) k :
  NoDup ops.*1 ->
  all_placed ops cuckoo_empty = true ->
  cuckoo_lookup (cuckoo_inserts ops cuckoo_empty) k
  = (list_to_map ops : gmap string string) !! k.
Proof.
  intros Hnd Hall.
  rewrite (cuckoo_inserts_lookup ops cuckoo_empty);
    [|apply positioned_empty|apply one_table_empty| |done|done].
  - rewrite cuckoo_lookup_empty. by destruct (list_to_map ops !! k).
  - intros k' v' H. by apply entry_empty in H.
Qed.

Lemma cuckoo_distinct_keys_lookup_witness :
  cuckoo_lookup
    (cuckoo_inserts [("000000c", "https://a.example");
                     ("0000023", "https://b.example")] cuckoo_empty)
    "000000c"
  = (list_to_map [("000000c", "https://a.example");
                  ("0000023", "https://b.example")] : gmap string string)
    !! "000000c".
Proof.
  apply (cuckoo_distinct_keys_lookup
           [("000000c", "https://a.example");
            ("0000023", "https://b.example")] "000000c").
  - vm_compute. repeat constructor; set_solver.
  - vm_compute. reflexivity.
Defined.

(** ** [inorder_traversal] *)

Lemma inorder_helper_sim t : forall fuel T C result,
  zrep T C t -> size t < fuel ->
  _inorder_helper fuel T (Some (rootref (NIL T) t)) result
  = Some (result ++ (reported <$> inorder t)).
Proof.
  induction t as [|p c l IHl k v r IHr]; intros fuel T C result H Hfuel;
    (destruct fuel as [|fuel]; [simpl in Hfuel; lia|]).
  - simpl. rewrite decide_True by done. by rewrite app_nil_r.
  - cbn [_inorder_helper rootref inorder].
    rewrite decide_False
      by (intros [= Heq]; by apply (zrep_ne_nil _ _ _ _ _ _ _ _ H)).
    simpl in Hfuel. rd H Node.left.
    rewrite (IHl fuel T (FL p c k v r :: C) result);
      [|by apply zrep_down_l|lia].
    red1. rd H Node.key. rd H Node.value. rd H Node.right.
    rewrite (IHr fuel T (FR p c l k v :: C));
      [|by apply zrep_down_r|lia].
    f_equal. rewrite fmap_app, fmap_cons. unfold reported at 2. simpl.
    by rewrite <- !app_assoc.
Qed.

Lemma inorder_traversal_sim T t :
  rep T t -> inorder_traversal T = Some (reported <$> inorder t).
Proof.
  intros [H Hlen]. unfold inorder_traversal.
  rewrite (z_root _ _ _ H). cbn [croot].
  rewrite (inorder_helper_sim t _ T [] []); [done|done|lia].
Qed.

(** ** The tree: what holds of [search] and [inorder_traversal] *)

(** X7: after any sequence of [insert] calls on the empty tree, [search]
    returns for every key what the same writes leave in a dict: the value
    of the last insert of that key, and None for a key never inserted. *)
Theorem search_after_inserts (ops : list (string * string)) :
  exists T,
    inserts ops init = Some T
    /\ forall key, search T key = Some (assigns ops ∅ !! key).
Proof.
  destruct (tree_inv_inserts ops _ _ tree_inv_init) as (T & t & E & HT & Hm).
  assert (tree_map Leaf = ∅) as HL by done. rewrite HL in Hm.
  exists T. split; [exact E|]. intros key.
  destruct HT as (Hrep & _ & Hs & _).
  rewrite (search_sim T t key Hrep), (lookup_tree_map t key Hs), Hm.
  done.
Qed.

(** X8: after any sequence of [insert] calls on the empty tree,
    [inorder_traversal] returns the (key, value) pairs in strictly
    ascending order of the keys, one pair for each key inserted, with the
    value of the last insert of that key. *)
Theorem inorder_traversal_sorted (ops : list (string * string)) :
  exists T l,
    inserts ops init = Some T
    /\ inorder_traversal T = Some (reported <$> l)
    /\ sorted l
    /\ forall k v, (k, v) ∈ l <-> assigns ops ∅ !! k = Some v.
Proof.
  destruct (tree_inv_inserts ops _ _ tree_inv_init) as (T & t & E & HT & Hm).
  assert (tree_map Leaf = ∅) as HL by done. rewrite HL in Hm.
  destruct HT as (Hrep & _ & Hs & _).
  exists T, (inorder t). split; [exact E|].
  split; [by apply inorder_traversal_sim|]. split; [exact Hs|].
  intros k v. rewrite <- Hm. unfold tree_map.
  apply elem_of_list_to_map. by apply sorted_NoDup.
Qed.

(** ** Single requests *)

Lemma step_Put st k v st' :
  store_inv st -> step st (Put k v) = Some st' ->
  url_map st' = <[k := v]> (url_map st)
  /\ access_counter st' = access_counter st
  /\ most_frequent st' = most_frequent st
  /\ cuckoo st' = snd (cuckoo_insert (cuckoo st) k v 100).
Proof.
  intros Hinv Hstep. simpl in Hstep.
  destruct (put_spec st k v Hinv) as (st1 & H1 & _ & H).
  rewrite H1 in Hstep. by injection Hstep as <-.
Qed.

Lemma step_Get st k st' :
  store_inv st -> step st (Get k) = Some st' ->
  st' = if truthy (answer st k) then update_frequency st k else st.
Proof.
  intros Hinv Hstep. simpl in Hstep.
  rewrite redirect_to_url_spec in Hstep by done. simpl in Hstep.
  injection Hstep as <-. by destruct (truthy (answer st k)).
Qed.

Lemma step_Popular st st' :
  store_inv st -> step st Popular = Some st' -> st' = st.
Proof.
  intros Hinv Hstep. simpl in Hstep. unfold get_popular_urls in Hstep.
  destruct (top_urls_total 10 st Hinv) as [top Htop].
  rewrite Htop in Hstep. by injection Hstep as <-.
Qed.

Lemma step_reads st o st' :
  store_inv st -> step st o = Some st' -> reads o = true ->
  url_map st' = url_map st /\ url_tree st' = url_tree st
  /\ cuckoo st' = cuckoo st.
Proof.
  intros Hinv Hstep Hr. destruct o as [k v|k|]; [done| |].
  - rewrite (step_Get st k st' Hinv Hstep).
    by destruct (truthy (answer st k)).
  - by rewrite (step_Popular st st' Hinv Hstep).
Qed.

(** ** Where answers come from *)

Lemma run_written ops : forall st st',
  store_inv st -> run ops st = Some st' ->
  (forall k v, url_map st' !! k = Some v ->
     url_map st !! k = Some v \/ Put k v ∈ ops)
  /\ (forall k v, entry (cuckoo st') k v ->
        entry (cuckoo st) k v \/ Put k v ∈ ops).
Proof.
  induction ops as [|o ops IH]; intros st st' Hinv Hrun.
  { injection Hrun as <-. split; intros; by left. }
  rewrite run_cons in Hrun.
  destruct (step_spec st o Hinv) as (st1 & Hstep & Hinv1).
  rewrite Hstep in Hrun. simpl in Hrun.
  destruct (IH st1 st' Hinv1 Hrun) as [IH1 IH2].
  assert ((forall k v, url_map st1 !! k = Some v ->
             url_map st !! k = Some v \/ o = Put k v)
          /\ (forall k v, entry (cuckoo st1) k v ->
                entry (cuckoo st) k v \/ o = Put k v)) as [H1 H2].
  { destruct (reads o) eqn:Hr.
    - destruct (step_reads st o st1 Hinv Hstep Hr) as (-> & _ & ->).
      split; intros; by left.
    - destruct o as [k0 v0| |]; [|done|done].
      destruct (step_Put st k0 v0 st1 Hinv Hstep) as (-> & _ & _ & ->).
      split; intros k v H.
      + destruct (decide (k = k0)) as [->|Hne].
        * rewrite lookup_insert_eq in H. injection H as ->. by right.
        * rewrite lookup_insert_ne in H by done. by left.
      + apply cuckoo_insert_entries in H as [H|H]; [by left|].
        right. by injection H as -> ->. }
  split; intros k v H.
  - apply IH1 in H as [H|H]; [|right; by right].
    apply H1 in H as [H| ->]; [by left|right; by left].
  - apply IH2 in H as [H|H]; [|right; by right].
    apply H2 in H as [H| ->]; [by left|right; by left].
Qed.

(** ** Counting *)

Lemma step_count st o st' k :
  store_inv st -> step st o = Some st' ->
  count (access_counter st') k
  = (count (access_counter st) k + if redirected st k o then 1 else 0)%Z.
Proof.
  intros Hinv Hstep. destruct o as [k0 v0|k0|].
  - destruct (step_Put st k0 v0 st' Hinv Hstep) as (_ & -> & _).
    simpl. lia.
  - rewrite (step_Get st k0 st' Hinv Hstep). simpl.
    rewrite redirect_to_url_spec by done.
    destruct (truthy (answer st k0)) eqn:E.
    + unfold update_frequency. cbn [access_counter].
      destruct (String.eqb_spec k0 k) as [->|Hne]; simpl.
      * by rewrite count_insert.
      * rewrite count_insert_ne by done. lia.
    + rewrite andb_false_r. lia.
  - rewrite (step_Popular st st' Hinv Hstep). simpl. lia.
Qed.

Lemma run_count ops : forall st st' k,
  store_inv st -> run ops st = Some st' ->
  count (access_counter st') k
  = (count (access_counter st) k + redirects ops st k)%Z.
Proof.
  induction ops as [|o ops IH]; intros st st' k Hinv Hrun.
  { injection Hrun as <-. simpl. lia. }
  rewrite run_cons in Hrun.
  destruct (step_spec st o Hinv) as (st1 & Hstep & Hinv1).
  rewrite Hstep in Hrun. simpl in Hrun.
  rewrite (IH st1 st' k Hinv1 Hrun), (step_count st o st1 k Hinv Hstep).
  simpl. rewrite Hstep. lia.
Qed.

Lemma run_reads ops : forall st st',
  store_inv st -> run ops st = Some st' ->
  forallb reads ops = true ->
  url_map st' = url_map st /\ url_tree st' = url_tree st
  /\ cuckoo st' = cuckoo st.
Proof.
  induction ops as [|o ops IH]; intros st st' Hinv Hrun Hr.
  { by injection Hrun as <-. }
  rewrite run_cons in Hrun. simpl in Hr.
  apply andb_true_iff in Hr as [Ho Hr].
  destruct (step_spec st o Hinv) as (st1 & Hstep & Hinv1).
  rewrite Hstep in Hrun. simpl in Hrun.
  destruct (IH st1 st' Hinv1 Hrun Hr) as (-> & -> & ->).
  by apply (step_reads st o st1).
Qed.

Lemma run_counts_positive ops : forall st st',
  store_inv st -> run ops st = Some st' ->
  (forall k c, access_counter st !! k = Some c -> (1 <= c)%Z) ->
  forall k c, access_counter st' !! k = Some c -> (1 <= c)%Z.
Proof.
  induction ops as [|o ops IH]; intros st st' Hinv Hrun Hpos.
  { by injection Hrun as <-. }
  rewrite run_cons in Hrun.
  destruct (step_spec st o Hinv) as (st1 & Hstep & Hinv1).
  rewrite Hstep in Hrun. simpl in Hrun.
  apply (IH st1 st' Hinv1 Hrun). clear IH Hrun.
  destruct o as [k0 v0|k0|].
  - by destruct (step_Put st k0 v0 st1 Hinv Hstep) as (_ & -> & _).
  - rewrite (step_Get st k0 st1 Hinv Hstep).
    destruct (truthy (answer st k0)); [|done].
    unfold update_frequency. cbn [access_counter]. intros k c.
    destruct (decide (k = k0)) as [->|Hne].
    + rewrite lookup_insert_eq. intros [= <-]. unfold count.
      destruct (access_counter st !! k0) as [c0|] eqn:E; simpl; [|lia].
      specialize (Hpos _ _ E). lia.
    + rewrite lookup_insert_ne by done. apply Hpos.
  - by rewrite (step_Popular st st1 Hinv Hstep).
Qed.

(** ** The store: what holds in every state it can reach *)

(** X9: in every reachable state [most_frequent] is a binary min-heap
    that holds exactly one entry [(-count, key)] for every key of
    [access_counter], with its count; every count is at least 1 and every
    counted key is a key of [url_map]. *)
Theorem heap_follows_counter (ops : list op) :
  exists st,
    run ops initial = Some st
    /\ is_heap (most_frequent st)
    /\ most_frequent st ≡ₚ heap_entry <$> map_to_list (access_counter st)
    /\ forall k c, access_counter st !! k = Some c ->
         (1 <= c)%Z /\ is_Some (url_map st !! k).
Proof.
  destruct (run_spec ops initial store_inv_initial) as (st & Hrun & Hinv).
  exists st. split; [exact Hrun|].
  destruct (inv_tracker st Hinv) as [Hheap Hperm].
  split; [exact Hheap|]. split; [exact Hperm|]. intros k c Hk. split.
  - apply (run_counts_positive ops initial st store_inv_initial Hrun) with k;
      [|exact Hk].
    intros k' c' H. unfold initial in H. cbn [access_counter] in H.
    by rewrite lookup_empty in H.
  - apply (inv_counted st Hinv). by rewrite Hk.
Qed.

(** X10: a key that was never written is answered with 404, whatever
    else was done before, and the lookup changes nothing; in particular
    every lookup in the initial store is a 404. *)
Theorem get_unknown_key (ops : list op) k :
  forallb (fun o => negb (puts_key k o)) ops = true ->
  exists st,
    run ops initial = Some st
    /\ url_map st !! k = None
    /\ redirect_to_url st k = Some (HTTPException 404, st).
Proof.
  intros Hk.
  destruct (run_spec ops initial store_inv_initial) as (st & Hrun & Hinv).
  exists st. split; [exact Hrun|].
  assert (url_map st !! k = None) as Hnone.
  { by rewrite (run_url_map ops k initial st store_inv_initial Hrun Hk). }
  split; [exact Hnone|]. rewrite redirect_to_url_spec by done.
  assert (truthy (answer st k) = false) as ->; [|done].
  unfold answer. rewrite Hnone. cbn [truthy].
  destruct (cuckoo_lookup (cuckoo st) k) as [v|] eqn:E; [|done].
  apply cuckoo_lookup_entry in E. apply (inv_cuckoo st Hinv) in E.
  rewrite Hnone in E. by destruct E.
Qed.

Lemma get_unknown_key_witness :
  exists st,
    run [Put "000000c" "https://a.example"; Get "000000c"; Get "0000023"]
      initial = Some st
    /\ url_map st !! "0000023" = None
    /\ redirect_to_url st "0000023" = Some (HTTPException 404, st).
Proof.
  apply (get_unknown_key
           [Put "000000c" "https://a.example"; Get "000000c"; Get "0000023"]
           "0000023").
  reflexivity.
Defined.

(** X11: a lookup never answers a key with a value that was not written
    under that key: when [redirect_to_url] redirects [k] to [v], some
    earlier write stored [v] under [k], and [v] is not empty. *)
Theorem get_answers_written (ops : list op) st k v st' :
  run ops initial = Some st ->
  redirect_to_url st k = Some (RedirectResponse v, st') ->
  Put k v ∈ ops /\ v <> "".
Proof.
  intros Hrun Hget.
  pose proof (run_inv ops initial st store_inv_initial Hrun) as Hinv.
  destruct (run_written ops initial st store_inv_initial Hrun) as [H1 H2].
  rewrite redirect_to_url_spec in Hget by done.
  destruct (truthy (answer st k)) eqn:E; [|done].
  injection Hget as <- _. unfold answer in *.
  assert (forall o, truthy o = true ->
            exists w, o = Some w /\ w <> "") as Htruthy.
  { intros [w|] Hw; [|done]. exists w. split; [done|].
    intros ->. done. }
  destruct (truthy (url_map st !! k)) eqn:E1.
  - rewrite E1 in *. destruct (Htruthy _ E1) as (w & Hw & Hne).
    rewrite Hw. simpl. split; [|done].
    destruct (H1 k w Hw) as [H|H]; [|done].
    unfold initial in H. simpl in H. by rewrite lookup_empty in H.
  - destruct (truthy (cuckoo_lookup (cuckoo st) k)) eqn:E2.
    + destruct (Htruthy _ E2) as (w & Hw & Hne). rewrite Hw. simpl.
      split; [|done]. apply cuckoo_lookup_entry in Hw.
      destruct (H2 k w Hw) as [H|H]; [|done].
      by apply entry_empty in H.
    + by rewrite E1 in E.
Qed.

Lemma get_answers_written_witness :
  let ops := [Put "000000c" "https://a.example";
              Put "0000023" "https://b.example"] in
  Put "0000023" "https://b.example" ∈ ops /\ "https://b.example" <> "".
Proof.
  intros ops. pose (st := default initial (run ops initial)).
  assert (run ops initial = Some st) as Hrun by (vm_compute; reflexivity).
  apply (get_answers_written ops st "0000023" "https://b.example"
           (update_frequency st "0000023") Hrun).
  vm_compute. reflexivity.
Defined.

(** X12: in every reachable state the tree mirrors the dict: [search]
    returns for every key what [url_map.get] returns, and
    [inorder_traversal] lists the items of [url_map] in strictly ascending
    order of the keys. *)
Theorem tree_mirrors_dict (ops : list op) :
  exists st l,
    run ops initial = Some st
    /\ (forall k, RedBlackTree.search (url_tree st) k
                  = Some (url_map st !! k))
    /\ RedBlackTree.inorder_traversal (url_tree st) = Some (reported <$> l)
    /\ sorted l
    /\ forall k v, (k, v) ∈ l <-> url_map st !! k = Some v.
Proof.
  destruct (run_spec ops initial store_inv_initial) as (st & Hrun & Hinv).
  destruct (inv_tree st Hinv) as (t & (Hrep & _ & Hs & _) & Hm).
  exists st, (inorder t). split; [exact Hrun|]. split; [|split; [|split]].
  - intros k. by rewrite (search_sim _ t k Hrep), (lookup_tree_map t k Hs), Hm.
  - by apply inorder_traversal_sim.
  - exact Hs.
  - intros k v. rewrite <- Hm. unfold tree_map.
    apply elem_of_list_to_map. by apply sorted_NoDup.
Qed.

(** X13: lookups and popularity queries never change what is stored:
    after any number of them the dict, the tree and the cuckoo tables are
    what they were. *)
Theorem reads_change_no_mapping (ops1 ops2 : list op) :
  forallb reads ops2 = true ->
  exists st st',
    run ops1 initial = Some st
    /\ run ops2 st = Some st'
    /\ url_map st' = url_map st
    /\ url_tree st' = url_tree st
    /\ cuckoo st' = cuckoo st.
Proof.
  intros Hr.
  destruct (run_spec ops1 initial store_inv_initial) as (st & Hrun & Hinv).
  destruct (run_spec ops2 st Hinv) as (st' & Hrun' & _).
  exists st, st'. split; [exact Hrun|]. split; [exact Hrun'|].
  by apply (run_reads ops2 st st' Hinv Hrun').
Qed.

Lemma reads_change_no_mapping_witness :
  exists st st',
    run [Put "000000c" "https://a.example"] initial = Some st
    /\ run [Get "000000c"; Popular; Get "0000023"] st = Some st'
    /\ url_map st' = url_map st
    /\ url_tree st' = url_tree st
    /\ cuckoo st' = cuckoo st.
Proof.
  apply (reads_change_no_mapping [Put "000000c" "https://a.example"]
           [Get "000000c"; Popular; Get "0000023"]).
  reflexivity.
Defined.

(** X14: the counter counts the redirects: in every reachable state the
    count of a key is the number of lookups of that key that were answered
    with a redirect; writes, popularity queries, lookups of other keys and
    lookups answered 404 do not change it. *)
Theorem counter_counts_redirects (ops : list op) k :
  exists st,
    run ops initial = Some st
    /\ count (access_counter st) k = redirects ops initial k.
Proof.
  destruct (run_spec ops initial store_inv_initial) as (st & Hrun & Hinv).
  exists st. split; [exact Hrun|].
  rewrite (run_count ops initial st k store_inv_initial Hrun).
  unfold initial at 1. cbn [access_counter]. unfold count.
  rewrite lookup_empty. simpl. lia.
Qed.

(** ** Short hashes *)

Lemma sha256_test_vectors :
  Hashlib.hexdigest (Hashlib.sha256 (Hashlib.encode ""))
  = "e3b0c44298fc1c149afbf4c8996fb92427ae41e4649b934ca495991b7852b855"
  /\ Hashlib.hexdigest (Hashlib.sha256 (Hashlib.encode "abc"))
     = "ba7816bf8f01cfea414140de5dae2223b00361a396177a9cb410ff61f20015ad"
  /\ Hashlib.hexdigest
       (Hashlib.sha256
          (Hashlib.encode
             "abcdbcdecdefdefgefghfghighijhijkijkljklmklmnlmnomnopnopq"))
     = "248d6a61d20638b8e5c026930c3e6039a33ce45964ff2167f6ecedd419db06c1".
Proof. vm_compute. repeat split. Qed.

Lemma hash_url_example :
  hash_url "https://example.com" "1700000000.123456" = "a577406".
Proof. vm_compute. reflexivity. Qed.

Lemma length_le_bytes n x : length (Hashlib.le_bytes n x) = n.
Proof. revert x. induction n as [|n IH]; intros x; simpl; [done|]. by rewrite IH. Qed.

Lemma length_be_bytes n x : length (Hashlib.be_bytes n x) = n.
Proof. unfold Hashlib.be_bytes. by rewrite length_rev, length_le_bytes. Qed.

Lemma length_sha256 msg : length (Hashlib.sha256 msg) = 32.
Proof.
  unfold Hashlib.sha256.
  destruct (fold_left Hashlib.sha256_block _ _)
    as [[[[[[[h0 h1] h2] h3] h4] h5] h6] h7].
  by rewrite !length_app, !length_be_bytes.
Qed.

Lemma hex_digit_in n : Hashlib.hex_digit n ∈ hex_digits.
Proof.
  unfold Hashlib.hex_digit. fold hex_digits.
  destruct (decide (Z.to_nat n < length hex_digits)) as [Hlt|Hge].
  - apply list_elem_of_In, nth_In. exact Hlt.
  - rewrite nth_overflow by lia. unfold hex_digits. simpl. set_solver.
Qed.

Lemma hexdigest_chars d :
  length (list_ascii_of_string (Hashlib.hexdigest d)) = 2 * length d
  /\ Forall (fun c => c ∈ hex_digits)
       (list_ascii_of_string (Hashlib.hexdigest d)).
Proof.
  unfold Hashlib.hexdigest. rewrite list_ascii_of_string_of_list_ascii.
  induction d as [|b d [IH1 IH2]]; [by split|]. simpl. split.
  - rewrite IH1. lia.
  - constructor; [apply hex_digit_in|].
    constructor; [apply hex_digit_in|exact IH2].
Qed.

(** [s[:n]] *)
Lemma substring_take n : forall s,
  list_ascii_of_string (String.substring 0 n s)
  = take n (list_ascii_of_string s).
Proof.
  induction n as [|n IH]; intros [|c s]; simpl; try done.
  by rewrite IH.
Qed.

Lemma string_length_list s :
  String.length s = length (list_ascii_of_string s).
Proof. induction s as [|c s IH]; simpl; [done|]. by rewrite IH. Qed.

Lemma with_scheme_prefix url :
  String.prefix "http://" (with_scheme url)
  || String.prefix "https://" (with_scheme url) = true.
Proof.
  unfold with_scheme.
  destruct (String.prefix "http://" url || String.prefix "https://" url)
    eqn:E; [exact E|].
  apply orb_true_iff. right. simpl. by destruct url.
Qed.

Lemma length_hash_url url timestamp :
  String.length (hash_url url timestamp) = 7.
Proof.
  unfold hash_url. rewrite string_length_list, substring_take.
  rewrite length_take. destruct (hexdigest_chars (Hashlib.sha256
    (Hashlib.encode (String.append url timestamp)))) as [-> _].
  rewrite length_sha256. unfold HASH_SIZE. lia.
Qed.

(** ** Short hashes and the request that stores them *)

(** X15: [hash_url] returns, for every URL and every clock value, a string
    of exactly [HASH_SIZE] = 7 characters, all of them lowercase
    hexadecimal digits. *)
Theorem hash_url_format (url timestamp : string) :
  String.length (hash_url url timestamp) = HASH_SIZE
  /\ Forall (fun c => c ∈ hex_digits)
       (list_ascii_of_string (hash_url url timestamp)).
Proof.
  unfold hash_url. rewrite string_length_list, substring_take.
  set (d := Hashlib.sha256 _).
  destruct (hexdigest_chars d) as [Hlen Hall].
  assert (length d = 32) as Hd by apply length_sha256.
  split.
  - rewrite length_take, Hlen, Hd. unfold HASH_SIZE. lia.
  - by apply Forall_take.
Qed.

(** X16: [shorten_url] prefixes [https://] to a URL that starts with
    neither [http://] nor [https://] and leaves every other URL as it is:
    what it stores always starts with one of the two, is never empty, and
    passing it through the guard again changes nothing. *)
Theorem with_scheme_idempotent (url : string) :
  String.prefix "http://" (with_scheme url)
  || String.prefix "https://" (with_scheme url) = true
  /\ with_scheme (with_scheme url) = with_scheme url
  /\ with_scheme url <> ""
  /\ (String.prefix "http://" url || String.prefix "https://" url = true ->
      with_scheme url = url)
  /\ (String.prefix "http://" url || String.prefix "https://" url = false ->
      with_scheme url = String.append "https://" url).
Proof.
  pose proof (with_scheme_prefix url) as H. split; [exact H|].
  split; [|split; [apply with_scheme_not_empty|split]].
  - unfold with_scheme at 1. by rewrite H.
  - intros E. unfold with_scheme. by rewrite E.
  - intros E. unfold with_scheme. by rewrite E.
Qed.

(** X17: in every reachable state the whole [shorten_url] request
    returns: it hands back a short hash of 7 characters and at most five
    popular entries, a lookup of that hash then redirects to the URL with
    its scheme, and the request changes no count. *)
Theorem shorten_url_request_resolves (ops : list op) (timestamp url : string) :
  exists st short_hash popular_urls st',
    run ops initial = Some st
    /\ shorten_url_request st timestamp url
       = Some (short_hash, popular_urls, st')
    /\ short_hash = hash_url (with_scheme url) timestamp
    /\ String.length short_hash = 7
    /\ length popular_urls <= 5
    /\ redirect_to_url st' short_hash
       = Some (RedirectResponse (with_scheme url),
               update_frequency st' short_hash)
    /\ access_counter st' = access_counter st.
Proof.
  destruct (run_spec ops initial store_inv_initial) as (st & Hrun & Hinv).
  set (h := hash_url (with_scheme url) timestamp).
  destruct (put_spec st h (with_scheme url) Hinv)
    as (st' & Hput & Hinv' & Hm & Hc & Hmf & _).
  destruct (popular_loop_spec (url_map st')
              (Nat.min 5 (length (most_frequent st'))) (most_frequent st'))
    as (top & rest & Hloop & _ & Hlen & _);
    [apply (inv_tracker st' Hinv')|by intros e; apply tracked_in_dict|].
  exists st, h, top, st'. split; [exact Hrun|]. split.
  { unfold shorten_url_request. fold h. rewrite Hput. simpl.
    unfold top_urls. rewrite Hloop. done. }
  split; [done|]. split; [apply length_hash_url|]. split; [lia|].
  split; [|exact Hc].
  apply redirect_to_url_dict; [|apply with_scheme_not_empty].
  rewrite Hm. apply lookup_insert_eq.
Qed.

(** ** Stopping and starting again *)

(** The entries popped first are determined by the entries of the heap,
    not by how the list arranges them. *)
Lemma least_entries_unique (l1 : list (Z * string)) : forall l2 r1 r2,
  l1 ++ r1 ≡ₚ l2 ++ r2 -> length l1 = length l2 ->
  StronglySorted ile l1 -> StronglySorted ile l2 ->
  (forall x y, x ∈ l1 -> y ∈ r1 -> ile x y) ->
  (forall x y, x ∈ l2 -> y ∈ r2 -> ile x y) ->
  l1 = l2.
Proof.
  induction l1 as [|x1 l1 IH]; intros [|x2 l2] r1 r2 Hp Hlen Hs1 Hs2 Hr1 Hr2;
    try done.
  apply StronglySorted_inv in Hs1 as [Hs1 Hx1].
  apply StronglySorted_inv in Hs2 as [Hs2 Hx2].
  rewrite Forall_forall in Hx1, Hx2.
  assert (forall x l r y, Forall (ile x) l ->
            (forall a b, a ∈ x :: l -> b ∈ r -> ile a b) ->
            y ∈ (x :: l) ++ r -> ile x y) as Hmin.
  { intros x l r y Hl Hr Hy. rewrite Forall_forall in Hl.
    apply elem_of_app in Hy as [Hy|Hy].
    - apply elem_of_cons in Hy as [->|Hy]; [apply ile_refl|by apply Hl].
    - apply (Hr x y); [by left|done]. }
  assert (x1 = x2) as <-.
  { apply ile_antisym.
    - apply (Hmin x1 l1 r1); [by apply Forall_forall|done|].
      rewrite Hp. by left.
    - apply (Hmin x2 l2 r2); [by apply Forall_forall|done|].
      rewrite <- Hp. by left. }
  f_equal. apply (IH l2 r1 r2); try done.
  - simpl in Hp. by apply Permutation_cons_inv in Hp.
  - simpl in Hlen. lia.
  - intros x y Hx Hy. apply Hr1; [by right|done].
  - intros x y Hx Hy. apply Hr2; [by right|done].
Qed.

Lemma popular_records_unique (m : gmap string string) (l1 : list popular_url) :
  forall l2,
  popular_entry <$> l1 = popular_entry <$> l2 ->
  Forall (fun p => m !! short_url p = Some (original_url p)) l1 ->
  Forall (fun p => m !! short_url p = Some (original_url p)) l2 ->
  l1 = l2.
Proof.
  induction l1 as [|p1 l1 IH]; intros [|p2 l2] He H1 H2; try done.
  apply Forall_cons in H1 as [Hp1 H1]. apply Forall_cons in H2 as [Hp2 H2].
  rewrite !fmap_cons in He. injection He as He1 He2 He.
  f_equal; [|by apply IH].
  destruct p1 as [k1 u1 c1], p2 as [k2 u2 c2]. simpl in *. subst k2.
  rewrite Hp1 in Hp2. injection Hp2 as ->. f_equal. lia.
Qed.

(** Two heaps with the same entries give the same popular entries. *)
Lemma popular_loop_perm (m : gmap string string) n heap1 heap2 :
  is_heap heap1 -> is_heap heap2 -> heap1 ≡ₚ heap2 ->
  (forall e, e ∈ heap1 -> is_Some (m !! snd e)) ->
  popular_loop (Nat.min n (length heap1)) m heap1
  = popular_loop (Nat.min n (length heap2)) m heap2.
Proof.
  intros Hh1 Hh2 Hp Hm.
  assert (forall e, e ∈ heap2 -> is_Some (m !! snd e)) as Hm2.
  { intros e He. apply Hm. by rewrite Hp. }
  destruct (popular_loop_spec m (Nat.min n (length heap1)) heap1 Hh1 Hm)
    as (top1 & rest1 & E1 & P1 & L1 & S1 & R1 & U1).
  destruct (popular_loop_spec m (Nat.min n (length heap2)) heap2 Hh2 Hm2)
    as (top2 & rest2 & E2 & P2 & L2 & S2 & R2 & U2).
  rewrite E1, E2. f_equal.
  apply (popular_records_unique m); [|done|done].
  apply (least_entries_unique _ _ rest1 rest2).
  - by rewrite <- P1, <- P2.
  - rewrite !length_fmap, L1, L2. by rewrite (Permutation_length Hp).
  - clear -S1. induction S1 as [|p l Hl IH Hp]; [constructor|].
    rewrite fmap_cons. constructor; [done|].
    apply Forall_fmap. exact Hp.
  - clear -S2. induction S2 as [|p l Hl IH Hp]; [constructor|].
    rewrite fmap_cons. constructor; [done|].
    apply Forall_fmap. exact Hp.
  - intros x y Hx Hy. apply list_elem_of_fmap in Hx as (p & -> & Hp').
    by apply R1.
  - intros x y Hx Hy. apply list_elem_of_fmap in Hx as (p & -> & Hp').
    by apply R2.
Qed.

Lemma heap_entries_items (items : list (string * Z)) :
  map (fun '(url, count) => ((- count)%Z, url)) items = heap_entry <$> items.
Proof. apply map_ext. by intros [url c]. Qed.

Lemma list_to_map_items (m : gmap string Z) items :
  items ≡ₚ map_to_list m -> list_to_map items = m.
Proof.
  intros Hp. transitivity (list_to_map (map_to_list m) : gmap string Z);
    [|apply list_to_map_to_list].
  apply list_to_map_proper; [|done].
  rewrite Hp. apply NoDup_fst_map_to_list.
Qed.

Lemma save_data_saved st items : save_data st items = saved st items.
Proof. done. Qed.

Lemma startup_saved st items :
  startup_event (saved st items)
  = mkStore (url_map st) (list_to_map items)
      (heapq.heapify (heap_entry <$> items)) (url_tree st) cuckoo_empty.
Proof.
  unfold startup_event, load_data, saved. cbn [DATA_FILE COUNTER_FILE TREE_FILE].
  cbn [url_map access_counter most_frequent url_tree cuckoo initial].
  by rewrite heap_entries_items.
Qed.

Lemma startup_saved_inv st items :
  store_inv st -> items ≡ₚ map_to_list (access_counter st) ->
  store_inv (startup_event (saved st items)).
Proof.
  intros Hinv Hp. rewrite startup_saved.
  pose proof (list_to_map_items _ _ Hp) as Hm.
  split; cbn [url_map access_counter most_frequent url_tree cuckoo].
  - apply (inv_tree st Hinv).
  - intros k v H. by apply entry_empty in H.
  - destruct (heapify_spec (heap_entry <$> items)) as [H1 H2].
    split; [exact H1|]. by rewrite H2, Hm, Hp.
  - rewrite Hm. apply (inv_counted st Hinv).
Qed.

Lemma load_data_tracker fs st :
  (forall items, COUNTER_FILE fs = Pickled items -> NoDup items.*1) ->
  tracker_inv (access_counter st) (most_frequent st) ->
  tracker_inv (access_counter (load_data fs st))
    (most_frequent (load_data fs st)).
Proof.
  intros Hnd Hst. unfold load_data.
  destruct fs as [data counter tree].
  cbn [DATA_FILE COUNTER_FILE TREE_FILE] in *.
  assert (forall items, counter = Pickled items ->
            tracker_inv (list_to_map items)
              (heapq.heapify
                 (map (fun '(url, count) => ((- count)%Z, url)) items)))
    as Hc.
  { intros items ->. rewrite heap_entries_items.
    destruct (heapify_spec (heap_entry <$> items)) as [H1 H2].
    split; [exact H1|]. rewrite H2.
    by rewrite (map_to_list_to_map items) by (by apply Hnd). }
  destruct data, counter, tree;
    cbn [access_counter most_frequent url_map url_tree cuckoo];
    try exact Hst; by apply Hc.
Qed.

(** ** [save_data] and [load_data] *)

(** X18: stopping and starting again loses nothing but the cuckoo
    tables.  From the files [save_data] writes in a reachable state,
    whatever the order of the counter's items, [startup_event] restores
    the dict, the counter and the tree and leaves the cuckoo tables empty;
    every key with a non-empty value is redirected as before, every key
    not in the dict is answered 404, the popularity query returns the same
    entries in the same order, and every later request returns. *)
Theorem restart_preserves (ops : list op) st items :
  run ops initial = Some st ->
  items ≡ₚ map_to_list (access_counter st) ->
  let st' := startup_event (saved st items) in
  url_map st' = url_map st
  /\ access_counter st' = access_counter st
  /\ url_tree st' = url_tree st
  /\ cuckoo st' = cuckoo_empty
  /\ (forall k v, url_map st !! k = Some v -> v <> "" ->
        redirect_to_url st' k
        = Some (RedirectResponse v, update_frequency st' k))
  /\ (forall k, url_map st !! k = None ->
        redirect_to_url st' k = Some (HTTPException 404, st'))
  /\ (forall n, fst <$> top_urls n st' = fst <$> top_urls n st)
  /\ (forall ops', exists st'', run ops' st' = Some st'').
Proof.
  intros Hrun Hp st'.
  pose proof (run_inv ops initial st store_inv_initial Hrun) as Hinv.
  pose proof (startup_saved_inv st items Hinv Hp) as Hinv'.
  pose proof (list_to_map_items _ _ Hp) as Hm.
  assert (url_map st' = url_map st) as Hurl
    by (unfold st'; by rewrite startup_saved).
  assert (most_frequent st' = heapq.heapify (heap_entry <$> items)) as Hmf
    by (unfold st'; by rewrite startup_saved).
  assert (cuckoo st' = cuckoo_empty) as Hck
    by (unfold st'; by rewrite startup_saved).
  split; [exact Hurl|]. split; [unfold st'; by rewrite startup_saved|].
  split; [unfold st'; by rewrite startup_saved|]. split; [exact Hck|].
  split; [|split; [|split]].
  - intros k v Hk Hv. apply redirect_to_url_dict; [|done]. by rewrite Hurl.
  - intros k Hk. rewrite redirect_to_url_spec by done.
    assert (truthy (answer st' k) = false) as ->; [|done].
    unfold answer. rewrite Hurl, Hk, Hck, cuckoo_lookup_empty. done.
  - intros n. unfold top_urls. rewrite Hurl.
    destruct (heapify_spec (heap_entry <$> items)) as [H1 H2].
    destruct (inv_tracker st Hinv) as [H3 H4].
    rewrite (popular_loop_perm (url_map st) n (most_frequent st')
               (most_frequent st)).
    + by destruct (popular_loop _ _ (most_frequent st)).
    + by rewrite Hmf.
    + exact H3.
    + by rewrite Hmf, H2, H4, Hp.
    + intros e He. rewrite <- Hurl. by apply tracked_in_dict.
  - intros ops'. destruct (run_spec ops' st' Hinv') as (st'' & H & _).
    eauto.
Qed.

Lemma restart_preserves_witness :
  let ops := [Put "000000c" "https://a.example";
              Put "0000023" "https://b.example";
              Get "0000023"; Get "000000c"; Get "0000023"] in
  exists st,
    run ops initial = Some st
    /\ let st' :=
         startup_event (save_data st (map_to_list (access_counter st))) in
       url_map st' = url_map st
       /\ cuckoo st' = cuckoo_empty
       /\ fst <$> top_urls 10 st' = fst <$> top_urls 10 st.
Proof.
  intros ops. pose (st := default initial (run ops initial)).
  assert (run ops initial = Some st) as Hrun by (vm_compute; reflexivity).
  exists st. split; [exact Hrun|].
  destruct (restart_preserves ops st (map_to_list (access_counter st)) Hrun)
    as (H1 & _ & _ & H4 & _ & _ & H7 & _); [reflexivity|].
  rewrite save_data_saved. exact (conj H1 (conj H4 (H7 10))).
Defined.

(** X19: whatever [load_data] finds - files missing, files that cannot be
    read, any counter with distinct keys - the heap it leaves is in step
    with the counter it leaves: [most_frequent] is a binary min-heap
    holding exactly one entry [(-count, key)] per key of
    [access_counter]. *)
Theorem startup_heap_follows_counter (fs : Files) :
  (forall items, COUNTER_FILE fs = Pickled items -> NoDup items.*1) ->
  let st := startup_event fs in
  is_heap (most_frequent st)
  /\ most_frequent st ≡ₚ heap_entry <$> map_to_list (access_counter st).
Proof.
  intros Hnd st. apply (load_data_tracker fs initial Hnd).
  unfold initial. cbn [access_counter most_frequent].
  split; [|by rewrite map_to_list_empty].
  intros i j _ _ Hj. simpl in Hj. lia.
Qed.

Lemma startup_heap_follows_counter_witness :
  let fs := mkFiles Missing
              (Pickled [("000000c", 1%Z); ("0000023", 3%Z)]) Unreadable in
  is_heap (most_frequent (startup_event fs))
  /\ most_frequent (startup_event fs)
     ≡ₚ heap_entry <$> map_to_list (access_counter (startup_event fs)).
Proof.
  intros fs. apply (startup_heap_follows_counter fs).
  intros items [= <-]. vm_compute. repeat constructor; set_solver.
Defined.

(** ** How deep [search] goes *)

Lemma search_helper_height t : forall fuel T C key,
  zrep T C t -> height t < fuel ->
  _search_helper fuel T (Some (rootref (NIL T) t)) key
  = Some (lookup_tree t key).
Proof.
  induction t as [|p c l IHl k v r IHr]; intros fuel T C key H Hfuel;
    (destruct fuel as [|fuel]; [simpl in Hfuel; lia|]).
  - simpl. by rewrite decide_True.
  - cbn [_search_helper rootref lookup_tree].
    rewrite decide_False
      by (intros [= Heq]; by apply (zrep_ne_nil _ _ _ _ _ _ _ _ H)).
    rd H Node.key. simpl in Hfuel.
    destruct (decide (key = k)) as [->|Hne].
    { rewrite decide_True by done. by rd H Node.value. }
    rewrite decide_False by congruence. red1.
    destruct (String.ltb key k) eqn:E1.
    + rd H Node.left.
      apply (IHl fuel T (FL p c k v r :: C)); [by apply zrep_down_l|lia].
    + rd H Node.right.
      apply (IHr fuel T (FR p c l k v :: C)); [by apply zrep_down_r|lia].
Qed.

Lemma balanced_height t : forall n,
  balanced t n -> nored t ->
  height t <= 2 * n + (if color_of t then 1 else 0).
Proof.
  induction t as [|p c l IHl k v r IHr]; intros n Hb Hn; simpl in *.
  - lia.
  - destruct Hn as (Hc & Hnl & Hnr). destruct c.
    + destruct Hb as [Hbl Hbr]. destruct (Hc eq_refl) as [Hcl Hcr].
      specialize (IHl n Hbl Hnl). specialize (IHr n Hbr Hnr).
      rewrite Hcl in IHl. rewrite Hcr in IHr. lia.
    + destruct n as [|m]; [done|]. destruct Hb as [Hbl Hbr].
      specialize (IHl m Hbl Hnl). specialize (IHr m Hbr Hnr).
      destruct (color_of l), (color_of r); lia.
Qed.

Lemma balanced_size t : forall n, balanced t n -> 2 ^ n <= size t + 1.
Proof.
  induction t as [|p c l IHl k v r IHr]; intros n Hb; simpl in *.
  - subst n. simpl. lia.
  - destruct c.
    + destruct Hb as [Hbl Hbr].
      specialize (IHl n Hbl). specialize (IHr n Hbr). lia.
    + destruct n as [|m]; [done|]. destruct Hb as [Hbl Hbr].
      specialize (IHl m Hbl). specialize (IHr m Hbr).
      rewrite Nat.pow_succ_r'. lia.
Qed.

Lemma rbtree_height t : rbtree t -> height t <= 2 * Nat.log2 (size t + 1).
Proof.
  intros (Hc & Hn & n & Hb).
  pose proof (balanced_height t n Hb Hn) as Hh. rewrite Hc in Hh.
  pose proof (balanced_size t n Hb) as Hs.
  assert (n <= Nat.log2 (size t + 1)); [|lia].
  apply Nat.log2_le_pow2; [lia|done].
Qed.

Lemma size_tree_map t :
  sorted (inorder t) -> base.size (tree_map t) = size t.
Proof.
  intros Hs. unfold tree_map.
  rewrite <- length_map_to_list, size_inorder.
  apply Permutation_length, map_to_list_to_map. by apply sorted_NoDup.
Qed.

Lemma rotation_same_tree T T' C s s' t :
  rep T t -> sorted (inorder t) -> plug C s = t ->
  zrep T' C s' -> length (objs T') = length (objs T) ->
  inorder s' = inorder s ->
  inorder_traversal T' = inorder_traversal T
  /\ forall key, search T' key = search T key.
Proof.
  intros Hrep Hs Hplug Hz' Hlen Hino.
  assert (inorder (plug C s') = inorder t) as Hino'.
  { by rewrite <- Hplug, !inorder_plug, Hino. }
  assert (rep T' (plug C s')) as Hrep'.
  { split; [by apply zrep_plug|]. destruct Hrep as [_ Hl].
    by rewrite Hlen, Hl, !size_inorder, Hino'. }
  split.
  - by rewrite (inorder_traversal_sim T' _ Hrep'),
         (inorder_traversal_sim T t Hrep), Hino'.
  - intros key. rewrite (search_sim T' _ key Hrep'), (search_sim T t key Hrep).
    rewrite !lookup_tree_map by (by rewrite ?Hino'). unfold tree_map.
    by rewrite Hino'.
Qed.

Lemma left_rotate_nil T C x c l k v :
  zrep T C (Nd x c l k v Leaf) -> _left_rotate T (Some x) = None.
Proof.
  intros H. unfold _left_rotate. rd H Node.right.
  pose proof (z_nil _ _ _ H) as Hnil.
  pose proof (zrep_node _ _ _ _ _ _ _ _ H) as Hx.
  pose proof (zrep_ne_nil _ _ _ _ _ _ _ _ H) as Hne.
  rewrite (attr_Some T (NIL T) NILnode Node.left Hnil).
  cbn [mbind option_bind NILnode Node.left].
  rewrite (setattr_Some T x _ _ Hx). cbn [mbind option_bind].
  rewrite (attr_Some _ (NIL T) NILnode Node.left)
    by (cbn [objs]; by rewrite list_lookup_insert_ne).
  cbn [mbind option_bind NILnode Node.left NIL].
  by rewrite decide_True.
Qed.

Lemma right_rotate_nil T C x c k v r :
  zrep T C (Nd x c Leaf k v r) -> _right_rotate T (Some x) = None.
Proof.
  intros H. unfold _right_rotate. rd H Node.left.
  pose proof (z_nil _ _ _ H) as Hnil.
  pose proof (zrep_node _ _ _ _ _ _ _ _ H) as Hx.
  pose proof (zrep_ne_nil _ _ _ _ _ _ _ _ H) as Hne.
  rewrite (attr_Some T (NIL T) NILnode Node.right Hnil).
  cbn [mbind option_bind NILnode Node.right].
  rewrite (setattr_Some T x _ _ Hx). cbn [mbind option_bind].
  rewrite (attr_Some _ (NIL T) NILnode Node.right)
    by (cbn [objs]; by rewrite list_lookup_insert_ne).
  cbn [mbind option_bind NILnode Node.right NIL].
  by rewrite decide_True.
Qed.

(** ** The tree: size, depth and rotations *)

(** X20: after any sequence of [insert] calls on the empty tree, the
    store holds one node for each key inserted (and NIL): inserting a key
    again allocates nothing.  With [n] such keys, the descent of [search]
    ends within 2 log2 (n + 1) + 1 calls of [_search_helper], whatever
    the key. *)
Theorem search_depth_logarithmic (ops : list (string * string)) :
  exists T,
    inserts ops init = Some T
    /\ length (objs T) = S (base.size (assigns ops ∅))
    /\ forall key,
         _search_helper (2 * Nat.log2 (length (objs T)) + 1) T
           (Some (root T)) key
         = search T key.
Proof.
  destruct (tree_inv_inserts ops _ _ tree_inv_init) as (T & t & E & HT & Hm).
  assert (tree_map Leaf = ∅) as HL by done. rewrite HL in Hm.
  destruct HT as ([Hz Hlen] & Hrb & Hs & _).
  exists T. split; [exact E|]. split.
  - by rewrite Hlen, <- Hm, size_tree_map.
  - intros key. rewrite (search_sim T t key (conj Hz Hlen)).
    rewrite (z_root _ _ _ Hz). cbn [croot].
    apply (search_helper_height t _ T []); [done|].
    pose proof (rbtree_height t Hrb) as Hh. rewrite Hlen.
    replace (S (size t)) with (size t + 1) by lia. lia.
Qed.

(** X21: in a tree built by [insert], [_left_rotate] at a node whose
    right child is NIL raises (it dereferences the [left] of NIL, which is
    None); at any other node it returns, and the rotated tree has the same
    in-order sequence and answers every [search] as before. *)
Theorem left_rotate_keeps_order (ops : list (string * string)) :
  exists T,
    inserts ops init = Some T
    /\ forall x n, in_tree T x -> objs T !! x = Some n ->
         (Node.right n = Some (NIL T) -> _left_rotate T (Some x) = None)
         /\ (Node.right n <> Some (NIL T) ->
             exists T',
               _left_rotate T (Some x) = Some T'
               /\ inorder_traversal T' = inorder_traversal T
               /\ forall key, search T' key = search T key).
Proof.
  destruct (tree_inv_inserts ops _ _ tree_inv_init) as (T & t & E & HT & _).
  destruct HT as (Hrep & _ & Hs & _). pose proof Hrep as [Hz _].
  exists T. split; [exact E|]. intros x n Hin Hx.
  destruct (in_tree_rep T t x Hz Hin) as (C & c & l & k & v & r & Hplug & Hzx).
  pose proof (zrep_node _ _ _ _ _ _ _ _ Hzx) as Hn.
  rewrite Hx in Hn. injection Hn as ->. cbn [Node.right].
  destruct r as [|y cy b ky vy c'].
  - split; [intros _; by apply (left_rotate_nil T C x c l k v)|].
    intros Hne. by destruct Hne.
  - split.
    + intros [= Hy]. cbn [rootref] in Hy.
      pose proof (zrep_down_r _ _ _ _ _ _ _ _ Hzx) as Hzy.
      by destruct (zrep_ne_nil _ _ _ _ _ _ _ _ Hzy).
    + intros _.
      destruct (left_rotate_spec _ _ _ _ _ _ _ _ _ _ _ _ _ Hzx)
        as (T' & Hrot & _ & Hlen & Hz').
      exists T'. split; [exact Hrot|].
      apply (rotation_same_tree T T' C _ _ t Hrep Hs Hplug Hz' Hlen).
      simpl. by rewrite <- !app_assoc.
Qed.

(** X22: likewise [_right_rotate]: at a node whose left child is NIL it
    raises; at any other node of a tree built by [insert] it returns, and
    the rotated tree has the same in-order sequence and answers every
    [search] as before. *)
Theorem right_rotate_keeps_order (ops : list (string * string)) :
  exists T,
    inserts ops init = Some T
    /\ forall x n, in_tree T x -> objs T !! x = Some n ->
         (Node.left n = Some (NIL T) -> _right_rotate T (Some x) = None)
         /\ (Node.left n <> Some (NIL T) ->
             exists T',
               _right_rotate T (Some x) = Some T'
               /\ inorder_traversal T' = inorder_traversal T
               /\ forall key, search T' key = search T key).
Proof.
  destruct (tree_inv_inserts ops _ _ tree_inv_init) as (T & t & E & HT & _).
  destruct HT as (Hrep & _ & Hs & _). pose proof Hrep as [Hz _].
  exists T. split; [exact E|]. intros x n Hin Hx.
  destruct (in_tree_rep T t x Hz Hin) as (C & c & l & k & v & r & Hplug & Hzx).
  pose proof (zrep_node _ _ _ _ _ _ _ _ Hzx) as Hn.
  rewrite Hx in Hn. injection Hn as ->. cbn [Node.left].
  destruct l as [|y cy a ky vy b].
  - split; [intros _; by apply (right_rotate_nil T C x c k v r)|].
    intros Hne. by destruct Hne.
  - split.
    + intros [= Hy]. cbn [rootref] in Hy.
      pose proof (zrep_down_l _ _ _ _ _ _ _ _ Hzx) as Hzy.
      by destruct (zrep_ne_nil _ _ _ _ _ _ _ _ Hzy).
    + intros _.
      destruct (right_rotate_spec _ _ _ _ _ _ _ _ _ _ _ _ _ Hzx)
        as (T' & Hrot & _ & Hlen & Hz').
      exists T'. split; [exact Hrot|].
      apply (rotation_same_tree T T' C _ _ t Hrep Hs Hplug Hz' Hlen).
      simpl. by rewrite <- !app_assoc.
Qed.

(** ** The cuckoo tables as a copy of the dict *)

Lemma run_puts ops : forall st st',
  store_inv st -> run ops st = Some st' ->
  cuckoo st' = cuckoo_inserts (puts ops) (cuckoo st)
  /\ url_map st' = assigns (puts ops) (url_map st).
Proof.
  induction ops as [|o ops IH]; intros st st' Hinv Hrun.
  { by injection Hrun as <-. }
  rewrite run_cons in Hrun.
  destruct (step_spec st o Hinv) as (st1 & Hstep & Hinv1).
  rewrite Hstep in Hrun. simpl in Hrun.
  destruct (IH st1 st' Hinv1 Hrun) as [-> ->].
  destruct o as [k v|k|].
  - destruct (step_Put st k v st1 Hinv Hstep) as (-> & _ & _ & ->). done.
  - by destruct (step_reads st (Get k) st1 Hinv Hstep eq_refl)
      as (-> & _ & ->).
  - by destruct (step_reads st Popular st1 Hinv Hstep eq_refl)
      as (-> & _ & ->).
Qed.

Lemma assigns_distinct l : forall (m : gmap string string) k,
  NoDup l.*1 ->
  assigns l m !! k
  = match (list_to_map l : gmap string string) !! k with
    | Some v => Some v
    | None => m !! k
    end.
Proof.
  induction l as [|[k0 v0] l IH]; intros m k Hnd.
  { by rewrite list_to_map_nil, lookup_empty. }
  rewrite fmap_cons in Hnd. simpl in Hnd. apply NoDup_cons in Hnd as [Hk Hnd].
  unfold assigns. simpl. fold (assigns l (<[k0 := v0]> m)).
  rewrite (IH _ k Hnd). destruct (decide (k = k0)) as [->|Hne].
  - rewrite lookup_insert_eq.
    rewrite (not_elem_of_list_to_map_1 l k0) by done.
    by rewrite lookup_insert_eq.
  - by rewrite !lookup_insert_ne by done.
Qed.

(** X23: as long as no key is written twice and every [cuckoo_insert]
    returned True, the cuckoo tables are a faithful copy of the dict:
    in the state reached, [cuckoo_lookup] returns for every key what
    [url_map.get] returns. *)
Theorem cuckoo_mirrors_dict (ops : list op) :
  NoDup (puts ops).*1 ->
  all_placed (puts ops) cuckoo_empty = true ->
  exists st,
    run ops initial = Some st
    /\ forall k, cuckoo_lookup (cuckoo st) k = url_map st !! k.
Proof.
  intros Hnd Hall.
  destruct (run_spec ops initial store_inv_initial) as (st & Hrun & Hinv).
  exists st. split; [exact Hrun|]. intros k.
  destruct (run_puts ops initial st store_inv_initial Hrun) as [-> ->].
  unfold initial. cbn [cuckoo url_map].
  rewrite (cuckoo_inserts_lookup (puts ops) cuckoo_empty);
    [|apply positioned_empty|apply one_table_empty| |done|done].
  - rewrite (assigns_distinct (puts ops) ∅ k Hnd).
    by rewrite cuckoo_lookup_empty, lookup_empty.
  - intros k' v' H. by apply entry_empty in H.
Qed.

Lemma cuckoo_mirrors_dict_witness :
  exists st,
    run [Put "000000c" "https://a.example"; Get "000000c";
         Put "0000023" "https://b.example"] initial = Some st
    /\ forall k, cuckoo_lookup (cuckoo st) k = url_map st !! k.
Proof.
  apply (cuckoo_mirrors_dict
           [Put "000000c" "https://a.example"; Get "000000c";
            Put "0000023" "https://b.example"]).
  - vm_compute. repeat constructor; set_solver.
  - vm_compute. reflexivity.
Defined.

(** ** The page and the statistics *)

(** Popping fewer entries gives a prefix of popping more. *)
Lemma popular_loop_take (m : gmap string string) n1 : forall n2 heap,
  n1 <= n2 -> is_heap heap ->
  (forall e, e ∈ heap -> is_Some (m !! snd e)) ->
  exists top,
    popular_loop n2 m heap = Some top
    /\ popular_loop n1 m heap = Some (take n1 top).
Proof.
  induction n1 as [|n1 IH]; intros n2 heap Hle Hh Hm.
  - destruct (popular_loop_spec m n2 heap Hh Hm) as (top & _ & E & _).
    exists top. split; [exact E|]. by rewrite take_0.
  - destruct n2 as [|n2]; [lia|].
    destruct heap as [|e0 heap0].
    + destruct (IH n2 [] ltac:(lia) Hh Hm) as (top & E2 & E1).
      exists top. simpl. rewrite E2, E1. split; [done|].
      destruct (popular_loop_spec m n2 [] Hh Hm) as (top' & _ & E & _ & L & _).
      rewrite E2 in E. injection E as <-. simpl in L.
      rewrite Nat.min_0_r in L. destruct top; [|done].
      by rewrite !take_nil.
    + cbn [popular_loop]. remember (e0 :: heap0) as heap eqn:Eheap.
      assert (heap <> []) as Hne by (by subst).
      destruct (heappop_spec heap Hh Hne)
        as ([nc k] & heap' & Hpop & Hh' & Hperm & _).
      assert (forall e, e ∈ heap' -> is_Some (m !! snd e)) as Hm'.
      { intros e He. apply Hm. rewrite Hperm. by right. }
      destruct (IH n2 heap' ltac:(lia) Hh' Hm') as (top & E2 & E1).
      destruct (Hm (nc, k)) as [url Hurl]. { rewrite Hperm. by left. }
      simpl in Hurl. rewrite Hpop. simpl. rewrite E2, E1. simpl.
      rewrite Hurl. eexists. split; [done|]. done.
Qed.

(** X24: the page shows the head of the statistics: in every reachable
    state [get_index] returns the first five entries of what
    [get_popular_urls] returns, and neither changes the store. *)
Theorem get_index_prefix (ops : list op) :
  exists st top,
    run ops initial = Some st
    /\ get_popular_urls st = Some (top, st)
    /\ get_index st = Some (take 5 top, st).
Proof.
  destruct (run_spec ops initial store_inv_initial) as (st & Hrun & Hinv).
  pose proof (inv_tracker st Hinv) as [Hh _].
  assert (forall e, e ∈ most_frequent st -> is_Some (url_map st !! snd e))
    as Hm by (intros e; by apply tracked_in_dict).
  set (len := length (most_frequent st)).
  destruct (popular_loop_take (url_map st) (Nat.min 5 len) (Nat.min 10 len)
              (most_frequent st) ltac:(lia) Hh Hm) as (top & E10 & E5).
  destruct (popular_loop_spec (url_map st) (Nat.min 10 len)
              (most_frequent st) Hh Hm) as (top' & _ & E & _ & L & _).
  rewrite E10 in E. injection E as <-. fold len in L.
  exists st, top. split; [exact Hrun|].
  unfold get_popular_urls, get_index, top_urls. fold len.
  rewrite E10, E5. cbn [mbind option_bind]. split; [done|].
  assert (take (Nat.min 5 len) top = take 5 top) as ->; [|done].
  destruct (decide (5 <= len)) as [H5|H5].
  - by rewrite Nat.min_l by done.
  - rewrite (Nat.min_r 5 len) by lia. rewrite !take_ge by lia. done.
Qed.
